(** * LZMA / LZMA2 codec: operation stream, LZMA1 reader, LZMA2 splitter

    A shallow embedding of the parts of the codec that the specification
    speaks about:

    - [Properties.fromByte]              (lzma_1/reader.go)
    - [reader.readSeq], [fillBuffer], [Read] (lzma_1/reader.go)
    - [Writer.Write], [potentialOffsets], [writeMatch] (lzbase/writer.go)
    - [splitStream], [mtrGenerate], [mtReader] (lzma parallel reader)
    - [mtWriter]                         (lzma/writer2.go)
    - [Reader.Read]                      (lzma2 chunk reader)
    - the header [params], [uncompressedReader] (lzma_1/reader.go)
    - [Writer2Config], [fixSBConfig], [NewWriter2Config] (lzma/writer2.go)
    - [Parameters]                       (lzma/parameters.go)
    - [lzmaFilter]                       (lzmafilter.go)

    Go integers are modelled as [Z] with the wrap-around written out where
    the code converts between widths; byte slices are [list Z] with every
    element in [0, 256). *)

From Stdlib Require Import ZArith Lia Bool String.
From stdpp Require Import base list.
Open Scope Z_scope.

(** ** Errors

    Go's [error] values.  The sentinel errors the code compares by identity
    are constructors of their own; an error made on the spot by
    [errors.New] / [newError] carries its message; [ErrIO] stands for an
    error of an underlying reader or writer. *)
Inductive error : Type :=
| EOF                       (* io.EOF *)
| ErrUnexpectedEOF          (* io.ErrUnexpectedEOF *)
| errEOS                    (* lzma_1: "EOS marker" *)
| ErrEncoding               (* lzma_1: ErrEncoding *)
| errClosed                 (* lzma: errClosed *)
| errAgain                  (* lzbase: errAgain *)
| errNoMatch                (* lzbase: errNoMatch *)
| errEmptyBuf               (* lzbase: errEmptyBuf *)
| NewError (msg : string)   (* errors.New(msg), newError(msg) *)
| ErrIO (code : nat).       (* failure of an external reader / writer *)

Definition error_eqb (a b : error) : bool :=
  match a, b with
  | EOF, EOF | ErrUnexpectedEOF, ErrUnexpectedEOF | errEOS, errEOS
  | ErrEncoding, ErrEncoding | errClosed, errClosed | errAgain, errAgain
  | errNoMatch, errNoMatch | errEmptyBuf, errEmptyBuf => true
  | NewError s, NewError t => String.eqb s t
  | ErrIO n, ErrIO m => Nat.eqb n m
  | _, _ => false
  end.

Lemma error_eqb_eq (a b : error) : error_eqb a b = true <-> a = b.
Proof.
  destruct a, b; simpl; split; intro H; try reflexivity; try discriminate.
  - apply String.eqb_eq in H. now subst.
  - inversion H. apply String.eqb_refl.
  - apply Nat.eqb_eq in H. now subst.
  - inversion H. apply Nat.eqb_refl.
Qed.

(** A Go byte: an integer in [0, 256). *)
Definition is_byte (b : Z) : Prop := 0 <= b < 256.

(** ** LZMA properties byte (lzma_1/reader.go) *)
Module Props.

Record Properties : Type := mkProperties { LC : Z; LP : Z; PB : Z }.

(** [func (p Properties) byte() byte]: the conversion to [byte] keeps the
    low eight bits. *)
Definition byte (p : Properties) : Z :=
  ((PB p * 5 + LP p) * 9 + LC p) mod 256.

(** [func (p *Properties) fromByte(b byte) error].  The receiver is
    overwritten before the check, so the fields are returned together
    with the error. *)
Definition fromByte (b : Z) : Properties * option error :=
  let lc := b mod 9 in
  let b1 := b / 9 in
  let lp := b1 mod 5 in
  let b2 := b1 / 5 in
  let p := mkProperties lc lp b2 in
  if 4 <? PB p
  then (p, Some (NewError "lzma: invalid properties byte"))
  else (p, None).

(** [func (p Properties) Verify() error] *)
Definition Verify (p : Properties) : option error :=
  if negb ((0 <=? LC p) && (LC p <=? 8))
  then Some (NewError "lzma: LC out of range 0..8")
  else if negb ((0 <=? LP p) && (LP p <=? 4))
  then Some (NewError "lzma: LP out of range 0..4")
  else if negb ((0 <=? PB p) && (PB p <=? 4))
  then Some (NewError "lzma: PB out of range 0..4")
  else None.

End Props.

(** ** Results, panics and the state-and-error monad *)

(** What a Go call of result type [(A, error)] hands back. *)
Inductive res (A : Type) : Type :=
| Ok (a : A)
| Err (e : error).
Arguments Ok {A} a.
Arguments Err {A} e.

(** How a Go call ends: it returns, it panics, or (for the loops that are
    run on fuel here) the fuel is used up before it returns. *)
Inductive run (A : Type) : Type :=
| Done (a : A)
| Panic (msg : string)
| OutOfFuel.
Arguments Done {A} a.
Arguments Panic {A} msg.
Arguments OutOfFuel {A}.

(** A method on a mutable receiver [S] with result [(A, error)]: the
    receiver keeps what was assigned to it also when an error comes back. *)
Definition M (S A : Type) : Type := S -> res A * S.

Definition ret {S A : Type} (a : A) : M S A := fun s => (Ok a, s).

Definition fail {S A : Type} (e : error) : M S A := fun s => (Err e, s).

Definition bind {S A B : Type} (m : M S A) (k : A -> M S B) : M S B :=
  fun s => match m s with
           | (Ok a, s') => k a s'
           | (Err e, s') => (Err e, s')
           end.

Definition modify {S : Type} (f : S -> S) : M S unit := fun s => (Ok tt, f s).

Definition gets {S A : Type} (f : S -> A) : M S A := fun s => (Ok (f s), s).

Declare Scope go_scope.
Delimit Scope go_scope with go.
Notation "'do' x <- m ; k" := (bind m (fun x => k))
  (at level 10, x name, m at level 100, k at level 200) : go_scope.
Notation "'do' ' p <- m ; k" := (bind m (fun x => match x with p => k end))
  (at level 10, p pattern, m at level 100, k at level 200) : go_scope.
Notation "m ;; k" := (bind m (fun _ => k))
  (at level 100, k at level 200, right associativity) : go_scope.

(** ** Machine integers *)

(** [uint32(x)]: the low 32 bits. *)
Definition wrap32 (x : Z) : Z := x mod 2 ^ 32.

(** [int64(x)] of a sum of two [int64]: two's complement wrap-around. *)
Definition wrap64 (x : Z) : Z := (x + 2 ^ 63) mod 2 ^ 64 - 2 ^ 63.

(** [byte(x)]: the low 8 bits. *)
Definition wrap8 (x : Z) : Z := x mod 256.

Lemma wrap32_small (x : Z) : 0 <= x < 2 ^ 32 -> wrap32 x = x.
Proof. intros H. unfold wrap32. now apply Z.mod_small. Qed.

Lemma wrap64_small (x : Z) : - 2 ^ 63 <= x < 2 ^ 63 -> wrap64 x = x.
Proof. intros H. unfold wrap64. rewrite Z.mod_small; lia. Qed.

(** ** The repetition registers, [rep [4]uint32]

    A Go array of four words, read with [rep[i]] and assigned with
    [rep[i] = v]; the indices in the code are constants below four. *)
Definition rep_get (rep : list Z) (i : nat) : Z := default 0 (rep !! i).

Definition rep_set (rep : list Z) (i : nat) (v : Z) : list Z := <[i := v]> rep.

(** ** The register rules of the data model

    The three rules as the data model words them, on the registers as a
    list [rep0; rep1; rep2; rep3]: a simple match shifts right and puts
    the new distance first; a repetition of register [g] rotates the
    first [g+1] registers so that the old [rep g] comes first; a literal
    and a short repetition leave the registers alone. *)
Definition shiftRegs (d : Z) (rep : list Z) : list Z := d :: take 3 rep.

Definition rotateRegs (g : nat) (rep : list Z) : list Z :=
  rep_get rep g :: (take g rep ++ drop (S g) rep).

Inductive opKind : Type :=
| KLiteral
| KSimple
| KShortRep
| KRep (g : nat).

Definition updateRegs (k : opKind) (d : Z) (rep : list Z) : list Z :=
  match k with
  | KLiteral | KShortRep => rep
  | KSimple => shiftRegs d rep
  | KRep g => rotateRegs g rep
  end.

(** ** The context state machine

    Modelled from the spec: the methods [updateStateLiteral],
    [updateStateMatch], [updateStateRep], [updateStateShortRep] and [states]
    of the operation codec are not among the sources; the transitions are
    the ones of the data model ("Context state", "Position state") and of
    the operation state machine ([state2 = (state << 4) | ps]). *)
Definition updateStateLiteral (s : Z) : Z :=
  if s <? 4 then 0 else if s <? 10 then s - 3 else s - 6.

Definition updateStateMatch (s : Z) : Z := if s <? 7 then 7 else 10.

Definition updateStateRep (s : Z) : Z := if s <? 7 then 8 else 11.

Definition updateStateShortRep (s : Z) : Z := if s <? 7 then 9 else 11.

Definition states (props : Props.Properties) (state pos : Z) : Z * Z * Z :=
  let posState := Z.land (wrap32 pos) (Z.shiftl 1 (Props.PB props) - 1) in
  let state2 := Z.lor (Z.shiftl state 4) posState in
  (state, state2, posState).

Definition litState (props : Props.Properties) (prev pos : Z) : Z :=
  Z.lor (Z.shiftl (Z.land (wrap32 pos) (Z.shiftl 1 (Props.LP props) - 1))
                  (Props.LC props))
        (Z.shiftr prev (8 - Props.LC props)).

(** The probability cell a binary decision is coded with. *)
Inductive cell : Type :=
| isMatch (state2 : Z)
| isRep (state : Z)
| isRepG0 (state : Z)
| isRepG0Long (state2 : Z)
| isRepG1 (state : Z)
| isRepG2 (state : Z).

(** ** The decoder's dictionary buffer, [lz.Buffer]

    The buffer type belongs to the package [github.com/ulikunitz/lz], which
    the reader imports.  The model keeps the bytes written so far as one
    logical stream: [data] holds every byte written, [rd_pos] counts the
    bytes already handed out by [Read], [bufferSize] bounds the bytes that
    may wait to be read and [windowSize] bounds match offsets. *)
Module Buffer.

Record t : Type := mk {
  data : list Z;
  rd_pos : nat;
  bufferSize : Z;
  windowSize : Z;
  off : Z
}.

(** [Pos()]: the absolute position of the head. *)
Definition Pos (b : t) : Z := off b + Z.of_nat (length (data b)).

(** [Len()]: the number of bytes written and not yet read. *)
Definition Len (b : t) : Z := Z.of_nat (length (data b) - rd_pos b).

(** [Available()]: the number of bytes that can still be written. *)
Definition Available (b : t) : Z := bufferSize b - Len b.

(** [ByteAtEnd(i)]: the byte [i] positions before the head, zero when there
    is none. *)
Definition ByteAtEnd (b : t) (i : Z) : Z :=
  let n := Z.of_nat (length (data b)) in
  if (1 <=? i) && (i <=? n)
  then default 0 (data b !! Z.to_nat (n - i))
  else 0.

(** [Read(p)] with [len(p) = k]: hands out the unread bytes, in order, as
    far as they fit; it never fails. *)
Definition Read (k : nat) (b : t) : list Z * t :=
  let out := take k (drop (rd_pos b) (data b)) in
  (out, mk (data b) (rd_pos b + length out) (bufferSize b) (windowSize b) (off b)).

Definition append (bs : list Z) (b : t) : t :=
  mk (data b ++ bs) (rd_pos b) (bufferSize b) (windowSize b) (off b).

(** [WriteByte(c)]: fails when the buffer is full. *)
Definition WriteByte (c : Z) (b : t) : option error * t :=
  if Available b <? 1
  then (Some (NewError "lz: full buffer"), b)
  else (None, append [c] b).

(** The bytes a match of length [m] at offset [o] replays; the copy runs
    byte by byte, so it may overlap its own output. *)
Fixpoint copyMatch (m : nat) (o : nat) (d : list Z) : list Z :=
  match m with
  | O => d
  | S m' => copyMatch m' o (d ++ [default 0 (d !! (length d - o)%nat)])
  end.

(** [WriteMatch(m, o)]: fails for an offset outside the window or the data
    and for a length that does not fit. *)
Definition WriteMatch (m o : Z) (b : t) : option error * t :=
  if negb ((1 <=? o) && (o <=? Z.min (Z.of_nat (length (data b))) (windowSize b)))
  then (Some (NewError "lz: offset out of range"), b)
  else if (m <? 0) || (Available b <? m)
  then (Some (NewError "lz: full buffer"), b)
  else (None, mk (copyMatch (Z.to_nat m) (Z.to_nat o) (data b))
                 (rd_pos b) (bufferSize b) (windowSize b) (off b)).

(** The read position never passes the head. *)
Definition wf (b : t) : Prop := (rd_pos b <= length (data b))%nat.

(** The bytes handed out so far: the part of the stream before the read
    position. *)
Definition handedOut (b : t) : list Z := take (rd_pos b) (data b).

End Buffer.

(** ** The LZMA1 reader (lzma_1/reader.go) *)
Module Reader.

(** [lz.Seq]: a one-byte literal ([LitLen = 1], the byte in [Aux]) or a
    match ([MatchLen] and [Offset] non-zero). *)
Record Seq : Type := mkSeq { LitLen : Z; MatchLen : Z; Offset : Z; Aux : Z }.

Definition noSeq : Seq := mkSeq 0 0 0 0.

(** [const eosDist = 1<<32 - 1] *)
Definition eosDist : Z := 2 ^ 32 - 1.

(** The fields of [state] the reader itself touches; the probability
    cells and the sub-codecs travel with the range decoder below. *)
Record state : Type := mkState {
  st : Z;
  rep : list Z;
  props : Props.Properties
}.

Definition with_st (f : Z -> Z) (s : state) : state :=
  mkState (f (st s)) (rep s) (props s).

Definition with_rep (f : list Z -> list Z) (s : state) : state :=
  mkState (st s) (f (rep s)) (props s).

(** The range decoder with the probability model it adapts, and the
    sub-codecs driven by it (rangecodec.go, litcodec.go, lencodec.go,
    distcodec.go are not among the sources): each call consumes input and
    updates cells inside [coder].  [distDecode] hands back a value together
    with its error, as [distCodec.Decode] does.  The constants
    [minMatchLen], [maxMatchLen] and [minDistance] come with them. *)
Class DecoderOps : Type := {
  coder : Type;
  decodeBit : cell -> M coder Z;
  litDecode : Z -> Z -> Z -> M coder Z;
  lenDecode : Z -> M coder Z;
  repLenDecode : Z -> M coder Z;
  distDecode : Z -> coder -> (Z * option error) * coder;
  possiblyAtEnd : coder -> bool;
  minMatchLen : Z;
  maxMatchLen : Z;
  minDistance : Z
}.

Section Decoder.

Context {ops : DecoderOps}.

Record reader : Type := mkReader {
  dict : Buffer.t;
  rstate : state;
  rd : coder;
  uncompressedLimit : Z;
  err : option error
}.

Definition set_dict (d : Buffer.t) (r : reader) : reader :=
  mkReader d (rstate r) (rd r) (uncompressedLimit r) (err r).

Definition set_state (s : state) (r : reader) : reader :=
  mkReader (dict r) s (rd r) (uncompressedLimit r) (err r).

Definition set_rd (c : coder) (r : reader) : reader :=
  mkReader (dict r) (rstate r) c (uncompressedLimit r) (err r).

Definition set_err (e : option error) (r : reader) : reader :=
  mkReader (dict r) (rstate r) (rd r) (uncompressedLimit r) e.

(** Run a decoder call on the field [r.rd]. *)
Definition onRd {A : Type} (m : M coder A) : M reader A :=
  fun r => let '(x, c) := m (rd r) in (x, set_rd c r).

(** [r.state.rep[i]] and [r.state.rep[i] = v]. *)
Definition getRep (i : nat) : M reader Z :=
  gets (fun r => rep_get (rep (rstate r)) i).

Definition setRep (i : nat) (v : Z) : M reader unit :=
  modify (fun r => set_state (with_rep (fun l => rep_set l i v) (rstate r)) r).

Definition updState (f : Z -> Z) : M reader unit :=
  modify (fun r => set_state (with_st f (rstate r)) r).

Open Scope go_scope.

(** [func (r *reader) decodeLiteral() (seq lz.Seq, err error)] *)
Definition decodeLiteral : M reader Seq :=
  fun r =>
    let ls := litState (props (rstate r)) (Buffer.ByteAtEnd (dict r) 1)
                       (Buffer.Pos (dict r)) in
    let mb := Buffer.ByteAtEnd (dict r) (rep_get (rep (rstate r)) 0 + 1) in
    (do s <- onRd (litDecode (st (rstate r)) mb ls);
     ret (mkSeq 1 0 0 (wrap32 s))) r.

(** [r.state.rep[0], err = r.state.distCodec.Decode(&r.rd, n)]: the
    register is assigned whatever comes back, error or not. *)
Definition decodeDistIntoRep0 (n : Z) : M reader unit :=
  fun r =>
    let '((d, e), c) := distDecode n (rd r) in
    let r' := set_state (with_rep (fun l => rep_set l 0 d) (rstate r)) (set_rd c r) in
    match e with
    | Some e => (Err e, r')
    | None => (Ok tt, r')
    end.

(** The common end of the long repetitions in [readSeq]. *)
Definition readRepLen (posState dist : Z) : M reader Seq :=
  do n <- onRd (repLenDecode posState);
  updState updateStateRep ;;
  ret (mkSeq 0 (wrap32 (n + minMatchLen)) (wrap32 (dist + minDistance)) 0).

(** [func (r *reader) readSeq() (seq lz.Seq, err error)] *)
Definition readSeq : M reader Seq :=
  fun r0 =>
    let '(state, state2, posState) :=
      states (props (rstate r0)) (st (rstate r0)) (Buffer.Pos (dict r0)) in
    (do b <- onRd (decodeBit (isMatch state2));
     if b =? 0 then
       (* literal *)
       do seq <- decodeLiteral;
       updState updateStateLiteral ;;
       ret seq
     else
     do b <- onRd (decodeBit (isRep state));
     if b =? 0 then
       (* simple match *)
       do r2 <- getRep 2; do r1 <- getRep 1; do r0' <- getRep 0;
       setRep 3 r2 ;; setRep 2 r1 ;; setRep 1 r0' ;;
       updState updateStateMatch ;;
       do n <- onRd (lenDecode posState);
       decodeDistIntoRep0 n ;;
       do d <- getRep 0;
       if d =? eosDist then fail errEOS
       else ret (mkSeq 0 (wrap32 (n + minMatchLen)) (wrap32 (d + minDistance)) 0)
     else
     do b <- onRd (decodeBit (isRepG0 state));
     do dist <- getRep 0;
     if b =? 0 then
       (* rep match 0 *)
       do b <- onRd (decodeBit (isRepG0Long state2));
       if b =? 0 then
         updState updateStateShortRep ;;
         ret (mkSeq 0 1 (wrap32 (dist + minDistance)) 0)
       else readRepLen posState dist
     else
       do b <- onRd (decodeBit (isRepG1 state));
       do dist <- (if b =? 0 then getRep 1
                   else
                     do b <- onRd (decodeBit (isRepG2 state));
                     do dist <- (if b =? 0 then getRep 2
                                 else
                                   do d3 <- getRep 3;
                                   do d2 <- getRep 2;
                                   setRep 3 d2 ;;
                                   ret d3);
                     do d1 <- getRep 1;
                     setRep 2 d1 ;;
                     ret dist);
       do d0 <- getRep 0;
       setRep 1 d0 ;;
       setRep 0 dist ;;
       readRepLen posState dist) r0.

(** [r.state.states(r.dict.Pos())] *)
Definition rstates (r : reader) : Z * Z * Z :=
  states (props (rstate r)) (st (rstate r)) (Buffer.Pos (dict r)).

(** The decision tree of the operation state machine, as the
    specification draws it: which kind of operation the next bits of the
    stream announce. *)
Definition spec_opKind (state state2 : Z) : M coder opKind :=
  do b <- decodeBit (isMatch state2);
  if b =? 0 then ret KLiteral else
  do b <- decodeBit (isRep state);
  if b =? 0 then ret KSimple else
  do b <- decodeBit (isRepG0 state);
  if b =? 0 then
    do b <- decodeBit (isRepG0Long state2);
    if b =? 0 then ret KShortRep else ret (KRep 0)
  else
    do b <- decodeBit (isRepG1 state);
    if b =? 0 then ret (KRep 1) else
    do b <- decodeBit (isRepG2 state);
    if b =? 0 then ret (KRep 2) else ret (KRep 3).

Close Scope go_scope.

(** How [fillBuffer] rewrites the error of [readSeq]. *)
Definition fillError (e : error) (r : reader) : error :=
  let s := uncompressedLimit r in
  match e with
  | errEOS =>
      if possiblyAtEnd (rd r) && ((s <? 0) || (s =? Buffer.Pos (dict r)))
      then EOF else errEOS
  | EOF =>
      if negb (possiblyAtEnd (rd r)) || negb (s =? Buffer.Pos (dict r))
      then ErrUnexpectedEOF else EOF
  | _ => e
  end.

(** The end of the loop body of [fillBuffer]: the declared size has been
    reached exactly. *)
Definition atLimit (r : reader) : option error * reader :=
  if possiblyAtEnd (rd r)
  then (Some EOF, set_err (Some EOF) r)
  else
    let '(x, r') := readSeq r in
    let isEOS := match x with Err errEOS => true | _ => false end in
    let e := if negb isEOS || negb (possiblyAtEnd (rd r')) then ErrEncoding else EOF in
    (Some e, set_err (Some e) r').

(** The middle of the loop body of [fillBuffer]: the sequence goes into
    the dictionary, a literal with [WriteByte] (whose failure panics), a
    match with [WriteMatch] (whose failure is latched and returned). *)
Definition writeSeq (seq : Seq) (r1 : reader) : run (option error * reader) :=
  if MatchLen seq =? 0
  then match Buffer.WriteByte (wrap8 (Aux seq)) (dict r1) with
       | (Some _, _) => Panic "lz: full buffer"
       | (None, d) => Done (None, set_dict d r1)
       end
  else match Buffer.WriteMatch (MatchLen seq) (Offset seq) (dict r1) with
       | (Some e, d) => Done (Some e, set_err (Some e) (set_dict d r1))
       | (None, d) => Done (None, set_dict d r1)
       end.

(** The loop of [fillBuffer], one iteration per unit of fuel. *)
Fixpoint fillLoop (fuel : nat) (r : reader) : run (option error * reader) :=
  match fuel with
  | O => OutOfFuel
  | S fuel' =>
      if Buffer.Available (dict r) <? maxMatchLen then Done (None, r)
      else
        match readSeq r with
        | (Err e, r1) =>
            let e' := fillError e r1 in
            Done (Some e', set_err (Some e') r1)
        | (Ok seq, r1) =>
            match writeSeq seq r1 with
            | Done (None, r2) =>
                if uncompressedLimit r2 =? Buffer.Pos (dict r2)
                then Done (atLimit r2)
                else fillLoop fuel' r2
            | Done (Some e, r2) => Done (Some e, r2)
            | Panic msg => Panic msg
            | OutOfFuel => OutOfFuel
            end
        end
  end.

(** [func (r *reader) fillBuffer() error].  Every round of the loop
    writes at least one byte, so the free space bounds the rounds. *)
Definition fillBuffer (r : reader) : run (option error * reader) :=
  match err r with
  | Some e => Done (Some e, r)
  | None => fillLoop (S (Z.to_nat (Buffer.Available (dict r)))) r
  end.

(** The loop of [Read]; [k] is [len(p)] and [acc] is [p[:n]]. *)
Fixpoint readLoop (fuel : nat) (k : nat) (acc : list Z) (r : reader)
  : run (list Z * option error * reader) :=
  match fuel with
  | O => OutOfFuel
  | S fuel' =>
      let '(out, d) := Buffer.Read (k - length acc) (dict r) in
      let acc' := acc ++ out in
      let r1 := set_dict d r in
      if (length acc' =? k)%nat then Done (acc', None, r1)
      else
        match fillBuffer r1 with
        | Done (Some e, r2) =>
            if 0 <? Buffer.Len (dict r2)
            then readLoop fuel' k acc' r2
            else Done (acc', Some e, r2)
        | Done (None, r2) => readLoop fuel' k acc' r2
        | Panic msg => Panic msg
        | OutOfFuel => OutOfFuel
        end
  end.

(** [func (r *reader) Read(p []byte) (n int, err error)]: the bytes put
    into [p], the error and the reader afterwards. *)
Definition Read (k : nat) (r : reader) : run (list Z * option error * reader) :=
  readLoop (S (S k)) k [] r.

(** [func (r *reader) start(z io.Reader, uncompressedSize uint64) error],
    as far as the size limit goes; [c] is the range decoder after
    [r.rd.init]. *)
Definition start (uncompressedSize : Z) (c : res coder) (r : reader)
  : option error * reader :=
  let limit :=
    if uncompressedSize =? 2 ^ 64 - 1 then -1
    else wrap64 ((Buffer.Pos (dict r) + uncompressedSize) mod 2 ^ 64) in
  let r1 := mkReader (dict r) (rstate r) (rd r) limit (err r) in
  if negb (uncompressedSize =? 2 ^ 64 - 1) &&
     ((limit <? 0) ||
      ((Buffer.Pos (dict r) + uncompressedSize) mod 2 ^ 64 <? uncompressedSize))
  then (Some (NewError "lzma: overflow"), r1)
  else
    match c with
    | Err e => (Some e, r1)
    | Ok c' => (None, mkReader (dict r) (rstate r) c' limit None)
    end.

(** What a call leaves alone: the dictionary, the size limit and the
    latched error. *)
Definition frame (r r' : reader) : Prop :=
  dict r' = dict r /\ uncompressedLimit r' = uncompressedLimit r /\ err r' = err r.

Definition keeps {A : Type} (m : M reader A) : Prop :=
  forall r x r', m r = (x, r') -> frame r r'.

End Decoder.

End Reader.

(** ** The LZMA writer (lzbase/writer.go) *)
Module Writer.

(** [type match struct { distance int64; length int }] *)
Record lzmatch : Type := mkMatch { m_distance : Z; m_length : Z }.

(** [operation]: a match or a literal, with its [Len()]. *)
Inductive operation : Type :=
| opMatch (m : lzmatch)
| opLit (b : Z).

Definition opLen (op : operation) : Z :=
  match op with
  | opMatch m => m_length m
  | opLit _ => 1
  end.

(** The fields of [Parameters] the writer reads. *)
Record Parameters : Type := mkParameters {
  Size : Z;
  SizeInHeader : bool;
  EOS : bool
}.

(** The range encoder with the probability model and the sub-codecs
    (not among the sources), and the constants of the operation codec:
    [minDistance], [maxDistance], [MinLength], [MaxLength]. *)
Class EncoderOps : Type := {
  enc : Type;
  encodeBit : cell -> Z -> M enc unit;
  litEncode : Z -> Z -> Z -> Z -> M enc unit;
  lenEncode : Z -> Z -> M enc unit;
  repLenEncode : Z -> Z -> M enc unit;
  distEncode : Z -> Z -> M enc unit;
  reClose : M enc unit;
  minDistance : Z;
  maxDistance : Z;
  MinLength : Z;
  MaxLength : Z
}.

(** The writer's dictionary, [WriterDict] (not among the sources): the
    fields [start] and [end] and the methods the writer calls. *)
Class DictOps : Type := {
  wdict : Type;
  d_start : wdict -> Z;
  d_end : wdict -> Z;
  Offset : wdict -> Z;
  dictWrite : list Z -> wdict -> (Z * option error) * wdict;
  Offsets : list Z -> wdict -> list Z;
  EqualBytes : Z -> Z -> Z -> wdict -> Z;
  (* PeekHead(p): the contents of p afterwards, n and err *)
  PeekHead : nat -> wdict -> list Z * Z * option error;
  Readable : wdict -> Z;
  (* Copy(bw.Dict.t4, n) *)
  Copy : Z -> wdict -> (Z * option error) * wdict;
  Byte : Z -> wdict -> Z;
  dictClose : M wdict unit
}.

Section Encoder.

Context {eops : EncoderOps} {dops : DictOps}.

(** [Writer] with the fields of its [OpCodec] that the writer assigns:
    the registers [rep] and the context [state]. *)
Record Writer : Type := mkWriter {
  oc_rep : list Z;
  oc_state : Z;
  oc_props : Props.Properties;
  Dict : wdict;
  re : enc;
  params : Parameters
}.

Definition set_rep (l : list Z) (w : Writer) : Writer :=
  mkWriter l (oc_state w) (oc_props w) (Dict w) (re w) (params w).

Definition set_state (s : Z) (w : Writer) : Writer :=
  mkWriter (oc_rep w) s (oc_props w) (Dict w) (re w) (params w).

Definition set_Dict (d : wdict) (w : Writer) : Writer :=
  mkWriter (oc_rep w) (oc_state w) (oc_props w) d (re w) (params w).

Definition set_re (e : enc) (w : Writer) : Writer :=
  mkWriter (oc_rep w) (oc_state w) (oc_props w) (Dict w) e (params w).

Definition onRe {A : Type} (m : M enc A) : M Writer A :=
  fun w => let '(x, e) := m (re w) in (x, set_re e w).

Definition onDict {A : Type} (m : M wdict A) : M Writer A :=
  fun w => let '(x, d) := m (Dict w) in (x, set_Dict d w).

Definition getRep (i : nat) : M Writer Z := gets (fun w => rep_get (oc_rep w) i).

Definition setRep (i : nat) (v : Z) : M Writer unit :=
  modify (fun w => set_rep (rep_set (oc_rep w) i v) w).

Definition updState (f : Z -> Z) : M Writer unit :=
  modify (fun w => set_state (f (oc_state w)) w).

(** [oc.states()] and [oc.litState()]: the position is the dictionary
    offset, the previous byte is [Dict.Byte(1)]. *)
Definition oc_states (w : Writer) : Z * Z * Z :=
  states (oc_props w) (oc_state w) (Offset (Dict w)).

Definition oc_litState (w : Writer) : Z :=
  litState (oc_props w) (Byte 1 (Dict w)) (Offset (Dict w)).

(** [func iverson(ok bool) uint32] *)
Definition iverson (ok : bool) : Z := if ok then 1 else 0.

(** The loop [for i := 1; i < 11; i++] of [potentialOffsets]. *)
Definition nearOffsets (head start : Z) : list Z :=
  foldl (fun offs i => let off := head - i in
                       if start <=? off then offs ++ [off] else offs)
        [] (seqZ 1 (11 - 1)).

(** The loop [for i := 3; i >= 0; i--] of [potentialOffsets]. *)
Definition repOffsets (rep : list Z) (head start : Z) : list Z :=
  foldl (fun offs i => let dist := rep_get rep i + minDistance in
                       let off := head - dist in
                       if start <=? off then offs ++ [off] else offs)
        [] [3%nat; 2%nat; 1%nat; 0%nat].

(** [func (bw *Writer) potentialOffsets(p []byte) []int64] *)
Definition potentialOffsets (p : list Z) (w : Writer) : list Z :=
  let head := Offset (Dict w) in
  let start := d_start (Dict w) in
  let offs := nearOffsets head start in
  let offs := if (length p =? 4)%nat then offs ++ Offsets p (Dict w) else offs in
  offs ++ repOffsets (oc_rep w) head start.

(** [func (bw *Writer) bestMatch(offsets []int64) (m match, err error)]:
    the loop runs from the last offset to the first. *)
Definition bestMatch (offsets : list Z) (w : Writer) : res lzmatch :=
  let head := Offset (Dict w) in
  let '(off, len) :=
    foldl (fun '(off, len) o =>
             let n := EqualBytes head o MaxLength (Dict w) in
             if len <? n then (o, n) else (off, len))
          (-1, 0) (reverse offsets) in
  if off <? 0 then Err errNoMatch
  else if (len =? 1) && negb (off =? head - (rep_get (oc_rep w) 0 + minDistance))
  then Err errNoMatch
  else Ok (mkMatch (head - off) len).

(** [func (bw *Writer) findOp() (op operation, err error)] *)
Definition findOp (w : Writer) : run (res operation) :=
  let '(p, n, e) := PeekHead 4 (Dict w) in
  let bad := match e with
             | None | Some errAgain | Some EOF => None
             | Some e' => Some e'
             end in
  match bad with
  | Some e' => Done (Err e')
  | None =>
      if n <=? 0 then
        if n <? 0 then Panic "strange n" else Done (Err errEmptyBuf)
      else
        let offs := potentialOffsets (take (Z.to_nat n) p) w in
        match bestMatch offs w with
        | Err errNoMatch => Done (Ok (opLit (default 0 (p !! 0%nat))))
        | Err e' => Done (Err e')
        | Ok m => Done (Ok (opMatch m))
        end
  end.

(** [func (bw *Writer) discardOp(op operation) error] *)
Definition discardOp (op : operation) : M Writer unit :=
  fun w =>
    let '((n, e), d) := Copy (opLen op) (Dict w) in
    let w' := set_Dict d w in
    match e with
    | Some e' => (Err e', w')
    | None => if n <? opLen op then (Err errAgain, w') else (Ok tt, w')
    end.

Open Scope go_scope.

(** [func (bw *Writer) writeLiteral(l lit) error] *)
Definition writeLiteral (b : Z) : M Writer unit :=
  fun w =>
    let '(state, state2, _) := oc_states w in
    (onRe (encodeBit (isMatch state2) 0) ;;
     do ls <- gets oc_litState;
     do mb <- gets (fun w => Byte (rep_get (oc_rep w) 0 + 1) (Dict w));
     onRe (litEncode b state mb ls) ;;
     updState updateStateLiteral) w.

(** The loop [for g = 0; g < 4; g++ { if oc.rep[g] == dist { break } }]. *)
Fixpoint findRepFrom (n : nat) (g : nat) (rep : list Z) (dist : Z) : nat :=
  match n with
  | O => g
  | S n' => if rep_get rep g =? dist then g else findRepFrom n' (S g) rep dist
  end.

Definition findRep (rep : list Z) (dist : Z) : nat := findRepFrom 4 0 rep dist.

(** [func (bw *Writer) writeMatch(m match) error] *)
Definition writeMatch (m : lzmatch) : M Writer unit :=
  fun w =>
    if negb ((minDistance <=? m_distance m) && (m_distance m <=? maxDistance))
    then (Err (NewError "distance out of range"), w)
    else
      let dist := wrap32 (m_distance m - minDistance) in
      if negb ((MinLength <=? m_length m) && (m_length m <=? MaxLength)) &&
         negb ((dist =? rep_get (oc_rep w) 0) && (m_length m =? 1))
      then (Err (NewError "length out of range"), w)
      else
        let '(state, state2, posState) := oc_states w in
        (onRe (encodeBit (isMatch state2) 1) ;;
         do g <- gets (fun w => findRep (oc_rep w) dist);
         let b := iverson (g <? 4)%nat in
         onRe (encodeBit (isRep state) b) ;;
         let n := wrap32 (m_length m - MinLength) in
         if b =? 0 then
           (* simple match *)
           do r2 <- getRep 2; do r1 <- getRep 1; do r0 <- getRep 0;
           setRep 3 r2 ;; setRep 2 r1 ;; setRep 1 r0 ;; setRep 0 dist ;;
           updState updateStateMatch ;;
           onRe (lenEncode n posState) ;;
           onRe (distEncode dist n)
         else
           let b := iverson (negb (g =? 0)%nat) in
           onRe (encodeBit (isRepG0 state) b) ;;
           do short <-
             (if b =? 0 then
                (* g == 0 *)
                let b := iverson (negb (m_length m =? 1)) in
                onRe (encodeBit (isRepG0Long state2) b) ;;
                if b =? 0 then updState updateStateShortRep ;; ret true
                else ret false
              else
                (* g in {1,2,3} *)
                let b := iverson (negb (g =? 1)%nat) in
                onRe (encodeBit (isRepG1 state) b) ;;
                (if b =? 1 then
                   (* g in {2,3} *)
                   let b := iverson (negb (g =? 2)%nat) in
                   onRe (encodeBit (isRepG2 state) b) ;;
                   (if b =? 1
                    then do r2 <- getRep 2; setRep 3 r2
                    else ret tt) ;;
                   do r1 <- getRep 1; setRep 2 r1
                 else ret tt) ;;
                do r0 <- getRep 0; setRep 1 r0 ;;
                setRep 0 dist ;;
                ret false);
           if (short : bool) then ret tt
           else
             updState updateStateRep ;;
             onRe (repLenEncode n posState)) w.

(** The kind of operation a match stands for, as the specification has
    it: a repetition of the first register that holds its distance, a
    short repetition when that is register 0 and the length is one, a
    simple match when no register holds it. *)
Definition matchKind (rep : list Z) (dist len : Z) : opKind :=
  match list_find (fun x => x = dist) rep with
  | None => KSimple
  | Some (g, _) => if (g =? 0)%nat && (len =? 1) then KShortRep else KRep g
  end.

(** [func (bw *Writer) writeEOS() error] *)
Definition writeEOS : M Writer unit := writeMatch (mkMatch maxDistance MinLength).

(** [func (bw *Writer) writeOp(op operation) error] *)
Definition writeOp (op : operation) : M Writer unit :=
  match op with
  | opMatch x => writeMatch x
  | opLit b => writeLiteral b
  end.

Close Scope go_scope.

(** [const allData = 1] *)
Definition allData : Z := 1.

(** [func (bw *Writer) process(flags int) error], one round of the loop
    per unit of fuel. *)
Fixpoint process (fuel : nat) (flags : Z) (w : Writer) : run (option error * Writer) :=
  match fuel with
  | O => OutOfFuel
  | S fuel' =>
      let lowMark := if Z.land flags allData =? 0 then MaxLength - 1 else 0 in
      if negb (lowMark <? Readable (Dict w)) then Done (None, w)
      else
        match findOp w with
        | Panic msg => Panic msg
        | OutOfFuel => OutOfFuel
        | Done (Err e) => Done (Some e, w)
        | Done (Ok op) =>
            match writeOp op w with
            | (Err e, w1) => Done (Some e, w1)
            | (Ok _, w1) =>
                match discardOp op w1 with
                | (Err e, w2) => Done (Some e, w2)
                | (Ok _, w2) => process fuel' flags w2
                end
            end
        end
  end.

(** Go's [p[:k]] on a slice taken with no spare capacity: out of range it
    panics. *)
Definition sliceTo (p : list Z) (k : Z) : option (list Z) :=
  if (k <? 0) || (Z.of_nat (length p) <? k) then None
  else Some (take (Z.to_nat k) p).

(** The loop [for n < len(p)] of [Write]. *)
Fixpoint writeLoop (fuel : nat) (p : list Z) (n : Z) (rerr : option error)
         (w : Writer) : run (Z * option error * Writer) :=
  match fuel with
  | O => OutOfFuel
  | S fuel' =>
      if negb (n <? Z.of_nat (length p)) then Done (n, rerr, w)
      else
        let '((k, e), d) := dictWrite (drop (Z.to_nat n) p) (Dict w) in
        let w1 := set_Dict d w in
        let n := n + k in
        match e with
        | Some e' =>
            if negb (error_eqb e' errAgain) then Done (n, Some e', w1)
            else
              match process fuel' 0 w1 with
              | Done (Some e2, w2) => Done (n, Some e2, w2)
              | Done (None, w2) => writeLoop fuel' p n rerr w2
              | Panic msg => Panic msg
              | OutOfFuel => OutOfFuel
              end
        | None =>
            match process fuel' 0 w1 with
            | Done (Some e2, w2) => Done (n, Some e2, w2)
            | Done (None, w2) => writeLoop fuel' p n rerr w2
            | Panic msg => Panic msg
            | OutOfFuel => OutOfFuel
            end
        end
  end.

(** [func (bw *Writer) Write(p []byte) (n int, err error)] *)
Definition Write (fuel : nat) (p : list Z) (w : Writer)
  : run (Z * option error * Writer) :=
  let end_ := wrap64 (d_end (Dict w) + Z.of_nat (length p)) in
  if end_ <? 0 then Panic "end counter overflow"
  else if SizeInHeader (params w) && (Size (params w) <? end_)
  then
    match sliceTo p (Size (params w) - end_) with
    | None => Panic "slice bounds out of range"
    | Some p' => writeLoop fuel p' 0 (Some (NewError "write exceeds unpackLen")) w
    end
  else writeLoop fuel p 0 None w.

(** [func (bw *Writer) Close() error] *)
Definition Close (fuel : nat) (w : Writer) : run (option error * Writer) :=
  match process fuel allData w with
  | Done (None, w1) =>
      let eos := if EOS (params w1) then writeEOS w1 else (Ok tt, w1) in
      match eos with
      | (Err e, w2) => Done (Some e, w2)
      | (Ok _, w2) =>
          match onRe reClose w2 with
          | (Err e, w3) => Done (Some e, w3)
          | (Ok _, w3) =>
              match onDict dictClose w3 with
              | (Err e, w4) => Done (Some e, w4)
              | (Ok _, w4) => Done (None, w4)
              end
          end
      end
  | other => other
  end.

End Encoder.

End Writer.

(** ** The parallel LZMA2 reader: configuration and stream splitting
    (lzma, reader2) *)
Module Reader2.

(** [const minDictSize]: the smallest dictionary the package accepts.
    Modelled from the spec: the constant is not among the sources; the
    parameter table gives [DictSize >= 4096]. *)
Definition minDictSize : Z := 4096.

Record Reader2Config : Type := mkConfig {
  DictSize : Z;
  Workers : Z;
  WorkerBufferSize : Z
}.

(** [func (cfg *Reader2Config) Verify() error] *)
Definition Verify (cfg : Reader2Config) : option error :=
  if DictSize cfg <? minDictSize
  then Some (NewError "lzma: dictionary size must be larger or equal 4096 bytes")
  else if Workers cfg <? 0
  then Some (NewError "lzma: Worker must be larger than 0")
  else if WorkerBufferSize cfg <=? 0
  then Some (NewError "lzma: WorkerBufferSize must be greater than 0")
  else None.

(** [func (cfg *Reader2Config) ApplyDefaults()] *)
Definition ApplyDefaults (cfg : Reader2Config) : Reader2Config :=
  let cfg := if DictSize cfg =? 0
             then mkConfig (8 * 2 ^ 20) (Workers cfg) (WorkerBufferSize cfg)
             else cfg in
  let cfg := if Workers cfg =? 0
             then mkConfig (DictSize cfg) 1 (WorkerBufferSize cfg)
             else cfg in
  if WorkerBufferSize cfg =? 0
  then mkConfig (DictSize cfg) (Workers cfg) (2 ^ 20)
  else cfg.

(** Which reader [NewReader2Config] builds. *)
Inductive readerKind : Type :=
| SingleReader (dictSize : Z)           (* a chunkReader, behind io.NopCloser *)
| MultiReader (cfg : Reader2Config).    (* newMTReader(cfg, z) *)

(** [func NewReader2Config(z io.Reader, cfg Reader2Config)] *)
Definition NewReader2Config (cfg : Reader2Config) : res readerKind :=
  let cfg := ApplyDefaults cfg in
  match Verify cfg with
  | Some e => Err e
  | None =>
      if Workers cfg <=? 1 then Ok (SingleReader (DictSize cfg))
      else Ok (MultiReader cfg)
  end.

(** The fields of a chunk header that [splitStream] reads. *)
Record chunkHeader : Type := mkHeader {
  control : Z;
  size : Z;
  compressedSize : Z
}.

(** The chunk controls [splitStream] names.  Modelled from the spec: the
    constants are not among the sources; the chunk header table gives 0x00
    for the end of the stream, 0x01 for an uncompressed chunk with
    dictionary reset, and the reset mode "full" (bits 5 and 6 set, 0xE0)
    for a compressed chunk that resets dictionary, state and properties. *)
Definition cEOS : Z := 0.

Definition cUD : Z := 1.

Definition cCSPD : Z := 224.

(** [peekChunkHeader] (not among the sources): the header at the front of
    the input, left in place, with its length in bytes. *)
Class ChunkOps : Type := {
  peekChunkHeader : list Z -> res (chunkHeader * Z)
}.

Section Split.

Context {cops : ChunkOps}.

(** [io.CopyN(w, z, k)] on byte lists: [k] bytes move from [z] to [w]; when
    [z] holds fewer, all of them move and the error is [io.EOF]. *)
Definition copyN (k : Z) (w z : list Z) : option error * list Z * list Z :=
  let n := Z.to_nat k in
  if (length z <? n)%nat then (Some EOF, w ++ z, [])
  else (None, w ++ take n z, drop n z).

(** The loop of [splitStream]: [w] is what has been written to the task
    buffer, [z] the input not yet consumed, [n] the uncompressed size so
    far.  The result is [(n, ok, err)] with the two streams afterwards. *)
Fixpoint splitLoop (fuel : nat) (w z : list Z) (sizeB n : Z)
  : run (Z * bool * option error * list Z * list Z) :=
  match fuel with
  | O => OutOfFuel
  | S fuel' =>
      match peekChunkHeader z with
      | Err e =>
          let e := if error_eqb e EOF then ErrUnexpectedEOF else e in
          Done (0, false, Some e, w, z)
      | Ok (hdr, k) =>
          if ((control hdr =? cUD) || (control hdr =? cCSPD)) && (0 <? n)
          then Done (n, true, None, w, z)
          else if control hdr =? cEOS
          then Done (n, true, Some EOF, w, z)
          else
            let k := if Z.land (control hdr) (Z.shiftl 1 7) =? 0
                     then k + size hdr
                     else k + compressedSize hdr in
            let n := n + size hdr in
            if sizeB <? n then Done (0, false, Some EOF, w, z)
            else
              match copyN k w z with
              | (Some e, w', z') =>
                  let e := if error_eqb e EOF then ErrUnexpectedEOF else e in
                  Done (0, false, Some e, w', z')
              | (None, w', z') => splitLoop fuel' w' z' sizeB n
              end
      end
  end.

(** [func splitStream(w io.Writer, z *bufio.Reader, size int)
    (n int, ok bool, err error)]; every round that goes on consumes a
    chunk, so the input length bounds the rounds. *)
Definition splitStream (w z : list Z) (sizeB : Z)
  : run (Z * bool * option error * list Z * list Z) :=
  splitLoop (S (length z)) w z sizeB 0.

(** A task as [mtrGenerate] sends it to the output queue: a reader that
    only returns an error, a run of chunks for a worker with the size of
    its output, or the rest of the stream for a chunk reader in the
    foreground ([size = -1]). *)
Inductive task : Type :=
| TaskError (e : error)
| TaskParallel (z : list Z) (size : Z)
| TaskSerial (z : list Z).

(** The loop of [mtrGenerate] when nobody cancels: the tasks in the order
    they are sent to [outCh], and the number of workers started. *)
Fixpoint mtrLoop (fuel : nat) (z : list Z) (cfg : Reader2Config) (workers : Z)
  : run (list task * Z) :=
  match fuel with
  | O => OutOfFuel
  | S fuel' =>
      match splitStream [] z (WorkerBufferSize cfg) with
      | Panic msg => Panic msg
      | OutOfFuel => OutOfFuel
      | Done (size, parallel, err, buf, z') =>
          match err with
          | Some EOF | None =>
              if (parallel : bool) then
                let workers := if workers <? Workers cfg then workers + 1 else workers in
                let tsk := TaskParallel buf size in
                match err with
                | Some _ => Done ([tsk], workers)
                | None =>
                    match mtrLoop fuel' z' cfg workers with
                    | Done (tsks, ws) => Done (tsk :: tsks, ws)
                    | other => other
                    end
                end
              else Done ([TaskSerial (buf ++ z')], workers)
          | Some e => Done ([TaskError e], workers)
          end
      end
  end.

(** [func mtrGenerate(ctx, z, cfg, tskCh, outCh)] *)
Definition mtrGenerate (z : list Z) (cfg : Reader2Config) : run (list task * Z) :=
  mtrLoop (S (length z)) z cfg 0.

End Split.

End Reader2.

(** ** What the environment decides

    The parallel writer and reader talk to their goroutines through
    channels.  A [select] that listens on the error channel is modelled by
    the next event of a list: [EvErr e] when an error arrives and that case
    is taken, [EvGo] when the other case is taken (the [default], a send
    or a receive); a call of the underlying writer takes an event in the
    same way.  An empty list stands for "no error ever". *)
Inductive event : Type :=
| EvErr (e : error)
| EvGo.

Definition nextEvent (evs : list event) : event * list event :=
  match evs with
  | [] => (EvGo, [])
  | ev :: evs' => (ev, evs')
  end.

(** ** The parallel LZMA2 writer (lzma/writer2.go) *)
Module MtWriter.

(** [mtwOutput]: whether it carries a data channel and a flush channel. *)
Record mtwOutput : Type := mkOutput { hasZCh : bool; hasFlushCh : bool }.

(** [mtWriter]: the buffer, the worker count and the latched error; the
    tasks and outputs put on the channels so far, in order; the bytes
    [Close] writes to [z] itself; whether [cancel] has been called; the
    two fields of the configuration the writer reads. *)
Record mtWriter : Type := mk {
  buf : list Z;
  workers : Z;
  err : option error;
  cancelled : bool;
  taskCh : list (list Z);
  outCh : list mtwOutput;
  zOut : list Z;
  cfgWorkers : Z;
  cfgWorkerBufferSize : Z
}.

Definition set_buf (b : list Z) (w : mtWriter) : mtWriter :=
  mk b (workers w) (err w) (cancelled w) (taskCh w) (outCh w) (zOut w)
     (cfgWorkers w) (cfgWorkerBufferSize w).

(** [w.err = err; w.cancel()] *)
Definition latch (e : error) (w : mtWriter) : mtWriter :=
  mk (buf w) (workers w) (Some e) true (taskCh w) (outCh w) (zOut w)
     (cfgWorkers w) (cfgWorkerBufferSize w).

(** [if w.workers < w.cfg.Workers { go mtwWork(...); w.workers++ }] *)
Definition spawn (w : mtWriter) : mtWriter :=
  if workers w <? cfgWorkers w
  then mk (buf w) (workers w + 1) (err w) (cancelled w) (taskCh w) (outCh w)
          (zOut w) (cfgWorkers w) (cfgWorkerBufferSize w)
  else w.

(** [w.taskCh <- mtwTask{data: w.buf, zCh: zCh}] *)
Definition sendTask (w : mtWriter) : mtWriter :=
  mk (buf w) (workers w) (err w) (cancelled w) (taskCh w ++ [buf w]) (outCh w)
     (zOut w) (cfgWorkers w) (cfgWorkerBufferSize w).

(** [w.outCh <- o] *)
Definition sendOut (o : mtwOutput) (w : mtWriter) : mtWriter :=
  mk (buf w) (workers w) (err w) (cancelled w) (taskCh w) (outCh w ++ [o])
     (zOut w) (cfgWorkers w) (cfgWorkerBufferSize w).

(** The loop [for len(p) > 0] of [Write]. *)
Fixpoint writeLoop (fuel : nat) (p : list Z) (n : Z) (w : mtWriter)
         (evs : list event) : run (Z * option error * mtWriter * list event) :=
  match fuel with
  | O => OutOfFuel
  | S fuel' =>
      match p with
      | [] => Done (n, None, w, evs)
      | _ :: _ =>
          let k := cfgWorkerBufferSize w - Z.of_nat (length (buf w)) in
          if Z.of_nat (length p) <=? k
          then Done (n + Z.of_nat (length p), None, set_buf (buf w ++ p) w, evs)
          else
            let w := spawn w in
            if k <? 0 then Panic "slice bounds out of range"
            else
              let w := set_buf (buf w ++ take (Z.to_nat k) p) w in
              match nextEvent evs with
              | (EvErr e, evs1) => Done (n, Some e, latch e w, evs1)
              | (EvGo, evs1) =>
                  let w := sendTask w in
                  match nextEvent evs1 with
                  | (EvErr e, evs2) => Done (n, Some e, latch e w, evs2)
                  | (EvGo, evs2) =>
                      let w := sendOut (mkOutput true false) w in
                      let w := set_buf [] w in
                      writeLoop fuel' (drop (Z.to_nat k) p) (n + k) w evs2
                  end
              end
      end
  end.

(** [func (w *mtWriter) Write(p []byte) (n int, err error)] *)
Definition Write (p : list Z) (w : mtWriter) (evs : list event)
  : run (Z * option error * mtWriter * list event) :=
  match err w with
  | Some e => Done (0, Some e, w, evs)
  | None =>
      match nextEvent evs with
      | (EvErr e, evs1) => Done (0, Some e, latch e w, evs1)
      | (EvGo, evs1) => writeLoop (S (S (length p))) p 0 w evs1
      end
  end.

(** [func (w *mtWriter) Flush() error] *)
Definition Flush (w : mtWriter) (evs : list event)
  : option error * mtWriter * list event :=
  match err w with
  | Some e => (Some e, w, evs)
  | None =>
      match nextEvent evs with
      | (EvErr e, evs1) => (Some e, latch e w, evs1)
      | (EvGo, evs1) =>
          let w := spawn w in
          let sent :=
            if (0 <? length (buf w))%nat then
              match nextEvent evs1 with
              | (EvErr e, evs2) => (Some e, latch e w, evs2)
              | (EvGo, evs2) => (None, set_buf [] (sendTask w), evs2)
              end
            else (None, w, evs1) in
          let hasData := (0 <? length (buf w))%nat in
          match sent with
          | (Some e, w1, evs2) => (Some e, w1, evs2)
          | (None, w1, evs2) =>
              match nextEvent evs2 with
              | (EvErr e, evs3) => (Some e, latch e w1, evs3)
              | (EvGo, evs3) =>
                  let w2 := sendOut (mkOutput hasData true) w1 in
                  match nextEvent evs3 with
                  | (EvErr e, evs4) => (Some e, latch e w2, evs4)
                  | (EvGo, evs4) => (None, w2, evs4)
                  end
              end
          end
      end
  end.

(** [w.err = e] and the deferred [w.cancel()] of [Close]. *)
Definition closeWith (e : error) (w : mtWriter) : mtWriter := latch e w.

(** [func (w *mtWriter) Close() error] *)
Definition Close (w : mtWriter) (evs : list event)
  : option error * mtWriter * list event :=
  match err w with
  | Some e => (Some e, w, evs)
  | None =>
      match Flush w evs with
      | (Some e, w1, evs1) => (Some e, closeWith e w1, evs1)
      | (None, w1, evs1) =>
          match nextEvent evs1 with
          | (EvErr e, evs2) => (Some e, closeWith e w1, evs2)
          | (EvGo, evs2) =>
              let w2 := mk (buf w1) (workers w1) (err w1) (cancelled w1) (taskCh w1)
                           (outCh w1) (zOut w1 ++ [0]) (cfgWorkers w1)
                           (cfgWorkerBufferSize w1) in
              (None, closeWith errClosed w2, evs2)
          end
      end
  end.

End MtWriter.

(** ** The parallel LZMA2 reader (lzma, reader2): [mtReader] *)
Module MtReader.

(** A reader a task hands over: a buffer of decompressed bytes that ends
    with [io.EOF], or an [errReader] (no bytes, its error). *)
Record taskReader : Type := mkTaskReader { bytes : list Z; final : error }.

(** Its [Read(p)] with [len(p) = k > 0]. *)
Definition taskRead (k : nat) (t : taskReader) : list Z * option error * taskReader :=
  match bytes t with
  | [] => ([], Some (final t), t)
  | _ :: _ => (take k (bytes t), None, mkTaskReader (drop k (bytes t)) (final t))
  end.

(** [mtReader]: the latched error, the reader at hand, the readers still
    to come on [outCh] (the channel is closed behind the last), whether
    [cancel] has been called. *)
Record mtReader : Type := mk {
  err : option error;
  r : option taskReader;
  outCh : list taskReader;
  cancelled : bool
}.

(** The loop [for n < len(p)] of [Read]; [acc] is [p[:n]]. *)
Fixpoint readLoop (fuel : nat) (k : nat) (acc : list Z) (m : mtReader)
  : run (list Z * option error * mtReader) :=
  match fuel with
  | O => OutOfFuel
  | S fuel' =>
      if negb (length acc <? k)%nat then Done (acc, None, m)
      else
        match r m with
        | None =>
            match outCh m with
            | [] =>
                if (length acc =? 0)%nat
                then Done ([], Some EOF, mk (Some EOF) None [] true)
                else Done (acc, None, mk (Some EOF) None [] (cancelled m))
            | t :: rest => readLoop fuel' k acc (mk (err m) (Some t) rest (cancelled m))
            end
        | Some t =>
            let '(out, e, t') := taskRead (k - length acc) t in
            let acc := acc ++ out in
            match e with
            | Some EOF => readLoop fuel' k acc (mk (err m) None (outCh m) (cancelled m))
            | Some e' => Done (acc, Some e', mk (Some e') (Some t') (outCh m) (cancelled m))
            | None => readLoop fuel' k acc (mk (err m) (Some t') (outCh m) (cancelled m))
            end
        end
  end.

(** [func (r *mtReader) Read(p []byte) (n int, err error)] *)
Definition Read (k : nat) (m : mtReader) : run (list Z * option error * mtReader) :=
  match err m with
  | Some e => Done ([], Some e, m)
  | None => readLoop (k + 2 * length (outCh m) + 3) k [] m
  end.

(** [func (r *mtReader) Close() error] *)
Definition Close (m : mtReader) : option error * mtReader :=
  match err m with
  | Some errClosed => (Some errClosed, m)
  | _ => (None, mk (Some errClosed) (r m) (outCh m) true)
  end.

End MtReader.

(** ** The LZMA2 chunk sequence reader (package lzma2) *)
Module Lzma2.

(** What lies behind [r.chunkReader.Read] and [r.startChunk] (the chunk
    header reader, the chunk state machine, the dictionary and the LZMA
    decoder are not among the sources): the rest of the reader as a state
    with these two operations. *)
Class ChunkedOps : Type := {
  inner : Type;
  chunkRead : nat -> inner -> list Z * option error * inner;
  startChunk : inner -> option error * inner
}.

Section Sequence.

Context {ch : ChunkedOps}.

Record Reader : Type := mk { err : option error; rest : inner }.

(** The loop [for n < len(p)] of [Read]; [acc] is [p[:n]]. *)
Fixpoint readLoop (fuel : nat) (k : nat) (acc : list Z) (r : Reader)
  : run (list Z * option error * Reader) :=
  match fuel with
  | O => OutOfFuel
  | S fuel' =>
      if negb (length acc <? k)%nat then Done (acc, None, r)
      else
        let '(out, e, i1) := chunkRead (k - length acc) (rest r) in
        let acc := acc ++ out in
        let '(e, i2) := match e with
                        | Some EOF => startChunk i1
                        | _ => (e, i1)
                        end in
        match e with
        | Some e' => Done (acc, Some e', mk (Some e') i2)
        | None =>
            if (length out =? 0)%nat
            then Done (acc, Some (NewError "lzma2: Reader doesn't get data"),
                       mk (err r) i2)
            else readLoop fuel' k acc (mk (err r) i2)
        end
  end.

(** [func (r *Reader) Read(p []byte) (n int, err error)] *)
Definition Read (k : nat) (r : Reader) : run (list Z * option error * Reader) :=
  match err r with
  | Some e => Done ([], Some e, r)
  | None => readLoop (S k) k [] r
  end.

End Sequence.

End Lzma2.

(** ** Stand-ins for running the embedding on concrete inputs

    The range coder and the writer's dictionary are interfaces above.
    [Script] gives each a small executable instance: a decoder that replays
    a prepared list of decisions, an encoder that logs the symbols it is
    given, and a dictionary that keeps its bytes in a list.  With them the
    functions of the reader and of the writer evaluate on examples. *)
Module Script.

Definition pop {A : Type} (f : Z -> A) : M (list Z) A :=
  fun c => match c with
           | [] => (Err EOF, [])
           | t :: c' => (Ok (f t), c')
           end.

(** The decisions are read off the list one by one; the end of the list is
    the end of the input, where the decoder may be at its end. *)
Definition decoder : Reader.DecoderOps := {|
  Reader.coder := list Z;
  Reader.decodeBit := fun _ => pop (fun t => t);
  Reader.litDecode := fun _ _ _ => pop (fun t => t);
  Reader.lenDecode := fun _ => pop (fun t => t);
  Reader.repLenDecode := fun _ => pop (fun t => t);
  Reader.distDecode := fun _ c =>
    match c with
    | [] => ((0, Some EOF), [])
    | t :: c' => ((t, None), c')
    end;
  Reader.possiblyAtEnd := fun c => match c with [] => true | _ => false end;
  Reader.minMatchLen := 2;
  Reader.maxMatchLen := 273;
  Reader.minDistance := 1
|}.

Definition log (x : Z) : M (list Z) unit := fun e => (Ok tt, e ++ [x]).

(** The symbols are appended to a log; the constants are the ones the
    specification gives for distances and lengths. *)
Definition encoder : Writer.EncoderOps := {|
  Writer.enc := list Z;
  Writer.encodeBit := fun _ b => log b;
  Writer.litEncode := fun b _ _ _ => log b;
  Writer.lenEncode := fun n _ => log n;
  Writer.repLenEncode := fun n _ => log n;
  Writer.distEncode := fun d _ => log d;
  Writer.reClose := ret tt;
  Writer.minDistance := 1;
  Writer.maxDistance := 2 ^ 32 - 1;
  Writer.MinLength := 2;
  Writer.MaxLength := 273
|}.

(** A dictionary over a list: [s_data] holds the bytes from offset
    [s_start] on, [s_head] is the offset of the next byte to encode,
    [s_end] the offset behind the last byte written, [s_hash] the offsets
    the hash table proposes. *)
Record sdict : Type := mkSdict {
  s_start : Z;
  s_head : Z;
  s_end : Z;
  s_hash : list Z;
  s_data : list Z
}.

Definition at_offset (d : sdict) (o : Z) : list Z :=
  if o <? s_start d then [] else drop (Z.to_nat (o - s_start d)) (s_data d).

Fixpoint commonPrefix (x y : list Z) (max : nat) : Z :=
  match x, y, max with
  | a :: x', b :: y', S max' => if a =? b then 1 + commonPrefix x' y' max' else 0
  | _, _, _ => 0
  end.

Definition dict : Writer.DictOps := {|
  Writer.wdict := sdict;
  Writer.d_start := s_start;
  Writer.d_end := s_end;
  Writer.Offset := s_head;
  Writer.dictWrite := fun p d =>
    ((Z.of_nat (length p), None),
     mkSdict (s_start d) (s_head d) (s_end d + Z.of_nat (length p)) (s_hash d)
             (s_data d ++ p));
  Writer.Offsets := fun _ d => s_hash d;
  Writer.EqualBytes := fun head o max d =>
    commonPrefix (at_offset d head) (at_offset d o) (Z.to_nat max);
  Writer.PeekHead := fun k d =>
    let bs := take k (at_offset d (s_head d)) in
    (bs ++ replicate (k - length bs) 0, Z.of_nat (length bs), None);
  Writer.Readable := fun d => s_end d - s_head d;
  Writer.Copy := fun n d =>
    ((n, None), mkSdict (s_start d) (s_head d + n) (s_end d) (s_hash d) (s_data d));
  Writer.Byte := fun dist d =>
    if (1 <=? dist) && (s_start d <=? s_head d - dist)
    then default 0 (s_data d !! Z.to_nat (s_head d - dist - s_start d))
    else 0;
  Writer.dictClose := ret tt
|}.

(** A chunk header parser.  Modelled from the spec: [peekChunkHeader] is not
    among the sources; the layout is the one of the chunk header table:
    0x00 ends the stream; 0x01 and 0x02 are uncompressed chunks with a
    two-byte big-endian size minus one; a byte with bit 7 set is a
    compressed chunk whose bits 5 and 6 give the reset mode, followed by
    the uncompressed size minus one (its high five bits in the control
    byte), the compressed size minus one, and a properties byte when the
    mode resets the properties. *)
Definition parseChunkHeader (z : list Z) : res (Reader2.chunkHeader * Z) :=
  match z with
  | [] => Err EOF
  | c :: rest =>
      if c =? 0 then Ok (Reader2.mkHeader 0 0 0, 1)
      else if (c =? 1) || (c =? 2) then
        match rest with
        | hi :: lo :: _ => Ok (Reader2.mkHeader c (hi * 256 + lo + 1) 0, 3)
        | _ => Err ErrUnexpectedEOF
        end
      else if c <? 128 then Err (NewError "lzma: unsupported chunk header byte")
      else
        let ctl := Z.land c 224 in
        match rest with
        | b1 :: b2 :: b3 :: b4 :: rest' =>
            let usize := Z.land c 31 * 65536 + b1 * 256 + b2 + 1 in
            let csize := b3 * 256 + b4 + 1 in
            if 192 <=? ctl then
              match rest' with
              | _ :: _ => Ok (Reader2.mkHeader ctl usize csize, 6)
              | [] => Err ErrUnexpectedEOF
              end
            else Ok (Reader2.mkHeader ctl usize csize, 5)
        | _ => Err ErrUnexpectedEOF
        end
  end.

Definition chunks : Reader2.ChunkOps := {|
  Reader2.peekChunkHeader := parseChunkHeader
|}.

(** A chunk sequence that replays prepared results: the list holds what
    the calls of [chunkReader.Read] return, in order; [startChunk] always
    finds a next chunk. *)
Definition chunked : Lzma2.ChunkedOps := {|
  Lzma2.inner := list (list Z * option error);
  Lzma2.chunkRead := fun _ i =>
    match i with
    | [] => ([], Some EOF, [])
    | (out, e) :: i' => (out, e, i')
    end;
  Lzma2.startChunk := fun i => (None, i)
|}.

End Script.

(** ** The LZMA1 header (lzma_1/reader.go, [params]) *)
Module Header.

(** [const headerLen = 13] *)
Definition headerLen : nat := 13.

(** [const eosSize uint64 = 0xffffffffffffffff] *)
Definition eosSize : Z := 2 ^ 64 - 1.

(** [const minDictSize].  Modelled from the spec: the constant is not among
    the sources; the parameter table gives [DictSize >= 4096]. *)
Definition minDictSize : Z := 4096.

(** [putLE32], [putLE64], [getLE32], [getLE64].  Modelled from the spec:
    the helpers are not among the sources; the header holds the two sizes
    little-endian, the lowest byte first. *)
Fixpoint putLE (n : nat) (x : Z) : list Z :=
  match n with
  | O => []
  | S n' => x mod 256 :: putLE n' (x / 256)
  end.

Fixpoint getLE (n : nat) (bs : list Z) : Z :=
  match n with
  | O => 0
  | S n' =>
      match bs with
      | [] => 0
      | b :: bs' => b + 256 * getLE n' bs'
      end
  end.

(** [type params struct { props Properties; dictSize uint32;
    uncompressedSize uint64 }] *)
Record params : Type := mkParams {
  props : Props.Properties;
  dictSize : Z;
  uncompressedSize : Z
}.

(** [func (h params) Verify() error]; [maxInt] is [math.MaxInt]. *)
Definition Verify (maxInt : Z) (h : params) : option error :=
  if maxInt <? dictSize h
  then Some (NewError "lzma: dictSize exceed max integer")
  else if dictSize h <? minDictSize
  then Some (NewError "lzma: dictSize is too small")
  else Props.Verify (props h).

(** [func (h params) AppendBinary(p []byte) (r []byte, err error)] *)
Definition AppendBinary (p : list Z) (h : params) : list Z :=
  p ++ (Props.byte (props h) :: putLE 4 (dictSize h) ++ putLE 8 (uncompressedSize h)).

(** [func (h *params) UnmarshalBinary(x []byte) error]: the receiver keeps
    the properties read from the first byte also when they are refused. *)
Definition UnmarshalBinary (x : list Z) (h : params) : option error * params :=
  if negb (length x =? headerLen)%nat
  then (Some (NewError "lzma: LZMA header has incorrect length"), h)
  else
    let '(pr, e) := Props.fromByte (default 0 (x !! 0%nat)) in
    match e with
    | Some e' => (Some e', mkParams pr (dictSize h) (uncompressedSize h))
    | None => (None, mkParams pr (getLE 4 (drop 1 x)) (getLE 8 (drop 5 x)))
    end.

End Header.

(** ** The context transition of each kind of operation

    The transitions of the data model, by kind: a literal, a simple match,
    a repetition of a register, a short repetition. *)
Definition kindState (k : opKind) (s : Z) : Z :=
  match k with
  | KLiteral => updateStateLiteral s
  | KSimple => updateStateMatch s
  | KShortRep => updateStateShortRep s
  | KRep _ => updateStateRep s
  end.

(** The bytes of the stream a task of [mtrGenerate] carries: a run of
    chunks, the rest of the stream, or nothing. *)
Definition taskInput (t : Reader2.task) : list Z :=
  match t with
  | Reader2.TaskError _ => []
  | Reader2.TaskParallel z _ => z
  | Reader2.TaskSerial z => z
  end.

(** What a run of the loop of [Write] leaves behind. *)
Definition mtw_post (p : list Z) (n : Z) (w : MtWriter.mtWriter) (evs : list event)
           (n' : Z) (e : option error) (w' : MtWriter.mtWriter) (evs' : list event)
  : Prop :=
  MtWriter.err w' = match e with Some x => Some x | None => MtWriter.err w end /\
  MtWriter.cfgWorkers w' = MtWriter.cfgWorkers w /\
  MtWriter.cfgWorkerBufferSize w' = MtWriter.cfgWorkerBufferSize w /\
  MtWriter.zOut w' = MtWriter.zOut w /\
  MtWriter.workers w <= MtWriter.workers w'
    <= Z.max (MtWriter.workers w) (MtWriter.cfgWorkers w) /\
  Z.of_nat (length (MtWriter.buf w')) <= MtWriter.cfgWorkerBufferSize w /\
  n <= n' <= n + Z.of_nat (length p) /\
  (exists new,
     MtWriter.taskCh w' = MtWriter.taskCh w ++ new /\
     Forall (fun t => Z.of_nat (length t) = MtWriter.cfgWorkerBufferSize w) new /\
     (e = None ->
      n' = n + Z.of_nat (length p) /\
      concat new ++ MtWriter.buf w' = MtWriter.buf w ++ p /\
      MtWriter.outCh w' =
      MtWriter.outCh w ++ replicate (length new) (MtWriter.mkOutput true false))) /\
  (Forall (eq EvGo) evs -> e = None /\ Forall (eq EvGo) evs').

(** The bytes an [mtReader] has still to deliver: those of the reader at
    hand, then those of the readers queued on [outCh], in order. *)
Definition mtr_pending (m : MtReader.mtReader) : list Z :=
  match MtReader.r m with
  | Some t => MtReader.bytes t
  | None => []
  end ++ concat (map MtReader.bytes (MtReader.outCh m)).

(** Every reader of an [mtReader] ends with [io.EOF]: no task failed. *)
Definition mtr_clean (m : MtReader.mtReader) : Prop :=
  (forall t, MtReader.r m = Some t -> MtReader.final t = EOF) /\
  Forall (fun t => MtReader.final t = EOF) (MtReader.outCh m).

(** ** The reader of uncompressed data (lzma_1/reader.go,
    [uncompressedReader])

    The input [z] is taken as the bytes still to come from a reader that
    delivers them without error and then reports [io.EOF]. *)
Module Uncompressed.

Record uncompressedReader : Type := mk {
  dict : Buffer.t;
  z : list Z
}.

(** [func (r *uncompressedReader) fillBuffer() error]:
    [io.CopyN(r.dict, r.z, int64(r.dict.Available()))] moves that many
    bytes, or all there are, and then reports [io.EOF]. *)
Definition fillBuffer (r : uncompressedReader) : option error * uncompressedReader :=
  let n := Z.to_nat (Buffer.Available (dict r)) in
  let r' := mk (Buffer.append (take n (z r)) (dict r)) (drop n (z r)) in
  if (length (z r) <? n)%nat then (Some EOF, r') else (None, r').

(** The loop of [Read]; [acc] is [p[:n]] and [k] is [len(p)]. *)
Fixpoint readLoop (fuel : nat) (k : nat) (acc : list Z) (r : uncompressedReader)
  : run (list Z * option error * uncompressedReader) :=
  match fuel with
  | O => OutOfFuel
  | S fuel' =>
      let '(out, d) := Buffer.Read (k - length acc) (dict r) in
      let acc := acc ++ out in
      let r := mk d (z r) in
      if (length acc =? k)%nat then Done (acc, None, r)
      else
        match fillBuffer r with
        | (Some e, r') =>
            if 0 <? Buffer.Len (dict r') then readLoop fuel' k acc r'
            else Done (acc, Some e, r')
        | (None, r') => readLoop fuel' k acc r'
        end
  end.

(** [func (r *uncompressedReader) Read(p []byte) (n int, err error)]; every
    round that goes on takes at least one byte from the input. *)
Definition Read (k : nat) (r : uncompressedReader)
  : run (list Z * option error * uncompressedReader) :=
  readLoop (S (length (z r))) k [] r.

(** The bytes still to be delivered: those in the buffer that have not
    been read, then the input. *)
Definition pending (r : uncompressedReader) : list Z :=
  drop (Buffer.rd_pos (dict r)) (Buffer.data (dict r)) ++ z r.

End Uncompressed.

(** ** The configuration of the LZMA2 writer (lzma/writer2.go) *)
Module Writer2.

(** [lz.SBConfig]: the fields of the sequence buffer configuration that
    the writer sets. *)
Record SBConfig : Type := mkSB {
  WindowSize : Z;
  ShrinkSize : Z;
  BufferSize : Z
}.

(** [const minBufferSize = 256 << 10] *)
Definition minBufferSize : Z := 256 * 2 ^ 10.

(** [const minShrinkSize = 1 << 16] *)
Definition minShrinkSize : Z := 2 ^ 16.

(** [func fixSBConfig(cfg *lz.SBConfig, windowSize int)]; [int] has 64
    bits. *)
Definition fixSBConfig (cfg : SBConfig) (windowSize : Z) : SBConfig :=
  let cfg := mkSB windowSize (ShrinkSize cfg) (BufferSize cfg) in
  let cfg := mkSB (WindowSize cfg) (WindowSize cfg) (BufferSize cfg) in
  let cfg := mkSB (WindowSize cfg) (ShrinkSize cfg) (wrap64 (2 * WindowSize cfg)) in
  let cfg := if BufferSize cfg <? minBufferSize
             then mkSB (WindowSize cfg) (ShrinkSize cfg) minBufferSize
             else cfg in
  if ShrinkSize cfg <? minShrinkSize
  then mkSB (WindowSize cfg) minShrinkSize (BufferSize cfg)
  else cfg.

(** The configuration of the LZ sequencer, [lz.SeqConfig] (package
    [github.com/ulikunitz/lz]): [lz.Config(params)] for a window size, its
    methods [ApplyDefaults] and [Verify], the sequence buffer configuration
    that [BufferConfig()] points to and a store through that pointer, and
    the construction of the chunk writer ([NewSequencer], then
    [chunkWriter.init]). *)
Class LzOps : Type := {
  seqConfig : Type;
  lzConfig : Z -> res seqConfig;
  lzApplyDefaults : seqConfig -> seqConfig;
  lzVerify : seqConfig -> option error;
  BufferConfig : seqConfig -> SBConfig;
  setBufferConfig : SBConfig -> seqConfig -> seqConfig;
  newChunkWriter : seqConfig -> Props.Properties -> option error
}.

Section Config.

Context {lz : LzOps}.

Record Writer2Config : Type := mkConfig {
  DictSize : Z;
  Properties : Props.Properties;
  ZeroProperties : bool;
  Workers : Z;
  WorkerBufferSize : Z;
  LZ : option seqConfig
}.

(** [func (cfg *Writer2Config) Verify() error]; [cfg.Properties.Verify()]
    is the method of lzma_1/reader.go. *)
Definition Verify (cfg : Writer2Config) : option error :=
  match LZ cfg with
  | None => Some (NewError "lzma: Writer2Config field LZCfg is nil")
  | Some c =>
      match lzVerify c with
      | Some e => Some e
      | None =>
          match Props.Verify (Properties cfg) with
          | Some e => Some e
          | None =>
              if Workers cfg <? 0
              then Some (NewError "lzma: Worker must be larger than 0")
              else if (1 <? Workers cfg) && (WorkerBufferSize cfg <=? 0)
              then Some (NewError "lzma: WorkerBufferSize must be greater than 0")
              else if (1 <? Workers cfg) &&
                      (BufferSize (BufferConfig c) <? WorkerBufferSize cfg)
              then Some (NewError
                     "lzma: sequence buffer size must be less or equal than worker buffer size")
              else None
          end
      end
  end.

Definition set_LZ (c : seqConfig) (cfg : Writer2Config) : Writer2Config :=
  mkConfig (DictSize cfg) (Properties cfg) (ZeroProperties cfg) (Workers cfg)
           (WorkerBufferSize cfg) (Some c).

(** [func (cfg *Writer2Config) ApplyDefaults()]; [gomaxprocs] is the value
    of [runtime.GOMAXPROCS(0)].  It panics when [lz.Config] fails. *)
Definition ApplyDefaults (gomaxprocs : Z) (cfg : Writer2Config) : run Writer2Config :=
  let made :=
    match LZ cfg with
    | None =>
        let ws := if 0 <? DictSize cfg then DictSize cfg else 0 in
        match lzConfig ws with
        | Err e => Panic "lz.Config error"
        | Ok c => Done c
        end
    | Some c =>
        if 0 <? DictSize cfg
        then
          let sb := BufferConfig c in
          Done (setBufferConfig (mkSB (DictSize cfg) (ShrinkSize sb) (BufferSize sb)) c)
        else Done c
    end in
  match made with
  | Panic msg => Panic msg
  | OutOfFuel => OutOfFuel
  | Done c =>
      let c := lzApplyDefaults c in
      let sb := BufferConfig c in
      let c := setBufferConfig (fixSBConfig sb (WindowSize sb)) c in
      let props :=
        if (Props.LC (Properties cfg) =? 0) && (Props.LP (Properties cfg) =? 0) &&
           (Props.PB (Properties cfg) =? 0) && negb (ZeroProperties cfg)
        then Props.mkProperties 3 0 2
        else Properties cfg in
      let workers := if Workers cfg =? 0 then gomaxprocs else Workers cfg in
      if (WorkerBufferSize cfg =? 0) && (1 <? workers)
      then
        let wbs := 2 ^ 20 in
        let sb := BufferConfig c in
        let c := if BufferSize sb <? wbs
                 then setBufferConfig (mkSB (WindowSize sb) (ShrinkSize sb) wbs) c
                 else c in
        Done (mkConfig (DictSize cfg) props (ZeroProperties cfg) workers wbs (Some c))
      else
        Done (mkConfig (DictSize cfg) props (ZeroProperties cfg) workers
                       (WorkerBufferSize cfg) (Some c))
  end.

(** Which writer [NewWriter2Config] builds. *)
Inductive writerKind : Type :=
| SingleWriter (cfg : Writer2Config)   (* a chunkWriter *)
| MultiWriter (cfg : Writer2Config).   (* an mtWriter with its output routine *)

(** [func NewWriter2Config(z io.Writer, cfg Writer2Config)] *)
Definition NewWriter2Config (gomaxprocs : Z) (cfg : Writer2Config)
  : run (res writerKind) :=
  match ApplyDefaults gomaxprocs cfg with
  | Panic msg => Panic msg
  | OutOfFuel => OutOfFuel
  | Done cfg =>
      match LZ cfg with
      | None => Panic "nil pointer dereference"
      | Some c =>
          let sb := BufferConfig c in
          let c := if (1 <? Workers cfg) && (BufferSize sb <? WorkerBufferSize cfg)
                   then setBufferConfig
                          (mkSB (WindowSize sb) (ShrinkSize sb) (WorkerBufferSize cfg)) c
                   else c in
          let cfg := set_LZ c cfg in
          match Verify cfg with
          | Some e => Done (Err e)
          | None =>
              if Workers cfg =? 1 then
                match newChunkWriter c (Properties cfg) with
                | Some e => Done (Err e)
                | None => Done (Ok (SingleWriter cfg))
                end
              else Done (Ok (MultiWriter cfg))
          end
      end
  end.

End Config.

End Writer2.

(** A sequencer configuration that is its sequence buffer configuration;
    [lz.Config] takes 8 MiB for the window size zero. *)
Definition Script_lz : Writer2.LzOps := {|
  Writer2.seqConfig := Writer2.SBConfig;
  Writer2.lzConfig := fun ws =>
    Ok (Writer2.mkSB (if ws =? 0 then 8 * 2 ^ 20 else ws) 0 0);
  Writer2.lzApplyDefaults := fun c => c;
  Writer2.lzVerify := fun _ => None;
  Writer2.BufferConfig := fun c => c;
  Writer2.setBufferConfig := fun sb _ => sb;
  Writer2.newChunkWriter := fun _ _ => None
|}.

(** ** The parameters of an LZMA stream (lzma/parameters.go) *)
Module Params.

Record Parameters : Type := mk {
  LC : Z;
  LP : Z;
  PB : Z;
  DictSize : Z;
  Size : Z;
  SizeInHeader : bool;
  EOS : bool;
  ExtraBufSize : Z
}.

(** What the file takes from the rest of its package: [verifyProperties],
    the constants [MinDictSize] and [MaxDictSize], and the number of bits
    of the platform's [int]. *)
Class ParamOps : Type := {
  verifyProperties : Z -> Z -> Z -> option error;
  MinDictSize : Z;
  MaxDictSize : Z;
  intBits : Z
}.

(** [var Default = Parameters{LC: 3, LP: 0, PB: 2, DictSize: 8 * 1024 * 1024}] *)
Definition Default : Parameters := mk 3 0 2 (8 * 1024 * 1024) 0 false false 0.

Section Ops.

Context {ops : ParamOps}.

(** [int64(int(x))]: [x] cut to the bits of an [int], with its sign. *)
Definition toInt (x : Z) : Z :=
  (x + 2 ^ (intBits - 1)) mod 2 ^ intBits - 2 ^ (intBits - 1).

Definition set_DictSize (d : Z) (p : Parameters) : Parameters :=
  mk (LC p) (LP p) (PB p) d (Size p) (SizeInHeader p) (EOS p) (ExtraBufSize p).

Definition set_ExtraBufSize (x : Z) (p : Parameters) : Parameters :=
  mk (LC p) (LP p) (PB p) (DictSize p) (Size p) (SizeInHeader p) (EOS p) x.

(** [func (p *Parameters) normalizeDictSize()] *)
Definition normalizeDictSize (p : Parameters) : Parameters :=
  let p := if DictSize p =? 0 then set_DictSize (DictSize Default) p else p in
  if DictSize p <? MinDictSize then set_DictSize MinDictSize p else p.

(** [func (p *Parameters) normalizeReaderExtraBufSize()] *)
Definition normalizeReaderExtraBufSize (p : Parameters) : Parameters :=
  if ExtraBufSize p <? 0 then set_ExtraBufSize 0 p else p.

(** [func (p *Parameters) normalizeWriterExtraBufSize()] *)
Definition normalizeWriterExtraBufSize (p : Parameters) : Parameters :=
  if ExtraBufSize p <=? 0 then set_ExtraBufSize 4096 p else p.

(** [func (p *Parameters) normalizeReaderSizes()] *)
Definition normalizeReaderSizes (p : Parameters) : Parameters :=
  normalizeReaderExtraBufSize (normalizeDictSize p).

(** [func (p *Parameters) normalizeWriterSizes()] *)
Definition normalizeWriterSizes (p : Parameters) : Parameters :=
  normalizeWriterExtraBufSize (normalizeDictSize p).

(** [func (p *Parameters) Verify() error], for a pointer that is not nil. *)
Definition Verify (p : Parameters) : option error :=
  match verifyProperties (LC p) (LP p) (PB p) with
  | Some e => Some e
  | None =>
      if negb ((MinDictSize <=? DictSize p) && (DictSize p <=? MaxDictSize))
      then Some (NewError "DictSize out of range")
      else if negb (DictSize p =? toInt (DictSize p))
      then Some (NewError "DictSize too large for int")
      else if Size p <? 0
      then Some (NewError "Size must not be negative")
      else if ExtraBufSize p <? 0
      then Some (NewError "ExtraBufSize must not be negative")
      else
        let bufSize := wrap64 (DictSize p + ExtraBufSize p) in
        if negb (bufSize =? toInt bufSize)
        then Some (NewError "buffer size too large for int")
        else None
  end.

End Ops.

End Params.

(** Parameter operations for statements about concrete values: the
    properties check of lzma_1/reader.go, dictionaries from 4 KiB to
    4 GiB - 1, an [int] of 64 bits. *)
Definition Script_params : Params.ParamOps := {|
  Params.verifyProperties := fun lc lp pb => Props.Verify (Props.mkProperties lc lp pb);
  Params.MinDictSize := 4096;
  Params.MaxDictSize := 2 ^ 32 - 1;
  Params.intBits := 64
|}.

(** ** The LZMA2 filter of an xz block header (lzmafilter.go) *)
Module LzmaFilter.

(** [lzmaFilterID = 0x21], [lzmaFilterLen = 3] *)
Definition lzmaFilterID : Z := 33.

Definition lzmaFilterLen : nat := 3.

(** [lzma.EncodeDictSize] and [lzma.DecodeDictSize] (package lzma, not
    among the sources). *)
Class DictSizeCodec : Type := {
  EncodeDictSize : Z -> Z;
  DecodeDictSize : Z -> res Z
}.

Record lzmaFilter : Type := mk { dictSize : Z }.

Section Codec.

Context {codec : DictSizeCodec}.

(** [func (f lzmaFilter) MarshalBinary() (data []byte, err error)] *)
Definition MarshalBinary (f : lzmaFilter) : list Z * option error :=
  let c := EncodeDictSize (dictSize f) in
  ([lzmaFilterID; 1; c], None).

(** [func (f *lzmaFilter) UnmarshalBinary(data []byte) error] *)
Definition UnmarshalBinary (data : list Z) (f : lzmaFilter) : option error * lzmaFilter :=
  if negb (length data =? lzmaFilterLen)%nat
  then (Some (NewError "xz: data for LZMA2 filter has wrong length"), f)
  else if negb (default 0 (data !! 0%nat) =? lzmaFilterID)
  then (Some (NewError "xz: wrong LZMA2 filter id"), f)
  else if negb (default 0 (data !! 1%nat) =? 1)
  then (Some (NewError "xz: wrong LZMA2 filter size"), f)
  else
    match DecodeDictSize (default 0 (data !! 2%nat)) with
    | Err _ => (Some (NewError "xz: wrong LZMA2 dictionary size property"), f)
    | Ok dc => (None, mk dc)
    end.

End Codec.

End LzmaFilter.

(** ** Runs of chunks

    The vocabulary of the statements about [splitStream]: the chunks a
    run is made of, read off the stream with the header parser. *)

(** The bytes a chunk takes in the stream: its header of [k] bytes and its
    data, uncompressed when bit 7 of the control byte is clear and
    compressed otherwise. *)
Definition chunkBytes (h : Reader2.chunkHeader) (k : Z) : Z :=
  if Z.land (Reader2.control h) (Z.shiftl 1 7) =? 0
  then k + Reader2.size h
  else k + Reader2.compressedSize h.

(** [takeChunks c z]: the headers of the first [c] chunks of the stream
    [z] and the bytes that follow these chunks; nothing when a header
    cannot be read or a chunk is cut short. *)
Fixpoint takeChunks {cops : Reader2.ChunkOps} (c : nat) (z : list Z)
  : option (list Reader2.chunkHeader * list Z) :=
  match c with
  | O => Some ([], z)
  | S c' =>
      match Reader2.peekChunkHeader z with
      | Err _ => None
      | Ok (h, k) =>
          let len := Z.to_nat (chunkBytes h k) in
          if (length z <? len)%nat then None
          else
            match takeChunks c' (drop len z) with
            | Some (hs, z') => Some (h :: hs, z')
            | None => None
            end
      end
  end.

(** The uncompressed size of a run: the sum of the sizes its headers
    declare. *)
Definition runSize (hs : list Reader2.chunkHeader) : Z :=
  foldr (fun h s => Reader2.size h + s) 0 hs.

(** A chunk that begins with a dictionary reset. *)
Definition isReset (h : Reader2.chunkHeader) : Prop :=
  Reader2.control h = Reader2.cUD \/ Reader2.control h = Reader2.cCSPD.

(** ** Rounds of the encoder

    [rounds low w ops w']: the encoder goes from [w] to [w'] in one round
    for each operation of [ops], in order.  A round starts with more than
    [low] readable bytes; [findOp] finds its operation, [writeOp] encodes
    it and [discardOp] moves the head of the dictionary past it, each
    without error. *)
Inductive rounds {eops : Writer.EncoderOps} {dops : Writer.DictOps} (low : Z)
  : Writer.Writer -> list Writer.operation -> Writer.Writer -> Prop :=
| rounds_nil (w : Writer.Writer) : rounds low w [] w
| rounds_cons (w w1 w2 w' : Writer.Writer) (op : Writer.operation)
              (ops : list Writer.operation) :
    low < Writer.Readable (Writer.Dict w) ->
    Writer.findOp w = Done (Ok op) ->
    Writer.writeOp op w = (Ok tt, w1) ->
    Writer.discardOp op w1 = (Ok tt, w2) ->
    rounds low w2 ops w' ->
    rounds low w (op :: ops) w'.
(** ** Theorems: properties byte *)

Lemma fromByte_fst (b : Z) :
  fst (Props.fromByte b) = Props.mkProperties (b mod 9) (b / 9 mod 5) (b / 9 / 5).
Proof. unfold Props.fromByte. now destruct (4 <? _). Qed.

Lemma fromByte_fields (b : Z) :
  is_byte b ->
  let p := fst (Props.fromByte b) in
  b = (Props.PB p * 5 + Props.LP p) * 9 + Props.LC p /\
  0 <= Props.LC p <= 8 /\ 0 <= Props.LP p <= 4 /\ 0 <= Props.PB p.
Proof.
  unfold is_byte, Props.fromByte. intros Hb.
  destruct (4 <? _); cbn [fst Props.PB Props.LP Props.LC].
  all: pose proof (Z.mod_pos_bound b 9 ltac:(lia));
    pose proof (Z.mod_pos_bound (b / 9) 5 ltac:(lia));
    pose proof (Z.div_mod b 9 ltac:(lia));
    pose proof (Z.div_mod (b / 9) 5 ltac:(lia));
    assert (0 <= b / 9) by (apply Z.div_pos; lia);
    assert (0 <= b / 9 / 5) by (apply Z.div_pos; lia);
    repeat split; lia.
Qed.

Lemma fromByte_error_iff (b : Z) :
  is_byte b ->
  (snd (Props.fromByte b) <> None <-> 224 < b).
Proof.
  unfold is_byte, Props.fromByte. intros Hb.
  assert (E : b / 9 / 5 = b / 45) by (rewrite Z.div_div; [reflexivity | lia | lia]).
  cbn [Props.PB]. rewrite E.
  pose proof (Z.div_mod b 45 ltac:(lia)) as D.
  pose proof (Z.mod_pos_bound b 45 ltac:(lia)) as M.
  destruct (Z.ltb_spec 4 (b / 45)) as [H | H]; cbn [snd]; split; intro G;
    try congruence; try lia.
Qed.

(** C5 (as amended): parsing the properties byte fails exactly when the
    byte is greater than 224; for every byte up to 224 the fields LC, LP and
    PB read back are the ones of the encoding [(PB*5 + LP)*9 + LC], each in
    its range. *)
Theorem C5_fromByte_fails_iff_above_224 (b : Z) :
  is_byte b ->
  (snd (Props.fromByte b) <> None <-> 224 < b) /\
  (b <= 224 ->
   let p := fst (Props.fromByte b) in
   snd (Props.fromByte b) = None /\
   b = (Props.PB p * 5 + Props.LP p) * 9 + Props.LC p /\
   0 <= Props.LC p <= 8 /\ 0 <= Props.LP p <= 4 /\ 0 <= Props.PB p <= 4 /\
   Props.byte p = b).
Proof.
  intros Hb. pose proof (fromByte_error_iff b Hb) as Hiff.
  split; [exact Hiff|]. intros Hle p.
  pose proof (fromByte_fields b Hb) as (Henc & Hlc & Hlp & Hpb).
  fold p in Henc, Hlc, Hlp, Hpb.
  assert (Hnone : snd (Props.fromByte b) = None).
  { destruct (snd (Props.fromByte b)) eqn:E; [|reflexivity].
    exfalso. assert (224 < b) by (apply Hiff; congruence). lia. }
  assert (Hpb4 : Props.PB p <= 4).
  { unfold p. rewrite fromByte_fst. cbn [Props.PB]. unfold is_byte in Hb.
    rewrite Z.div_div by lia. change (9 * 5) with 45.
    pose proof (Z.div_mod b 45 ltac:(lia)).
    pose proof (Z.mod_pos_bound b 45 ltac:(lia)). lia. }
  repeat split; try lia; try assumption.
  unfold Props.byte. rewrite <- Henc. apply Z.mod_small. exact Hb.
Qed.

Lemma C5_fromByte_witness :
  is_byte 93 /\ 93 <= 224 /\
  snd (Props.fromByte 93) = None /\ Props.byte (fst (Props.fromByte 93)) = 93.
Proof.
  assert (Hb : is_byte 93) by (unfold is_byte; lia).
  assert (Hle : 93 <= 224) by lia.
  split; [exact Hb|]. split; [exact Hle|].
  destruct (C5_fromByte_fails_iff_above_224 93 Hb) as [_ H].
  destruct (H Hle) as (Hn & _ & _ & _ & _ & Hbyte).
  split; [exact Hn | exact Hbyte].
Defined.

(** C5 (as written) fails at the byte 225: it is not greater than 225, yet
    parsing it fails (225 = (5*5 + 0)*9 + 0 gives PB = 5). *)
Lemma C5_counterexample_byte_225 :
  ~ (forall b, is_byte b -> (snd (Props.fromByte b) <> None <-> 225 < b)).
Proof.
  intros H. specialize (H 225 ltac:(unfold is_byte; lia)).
  destruct H as [H _].
  assert (225 < 225) by (apply H; vm_compute; discriminate). lia.
Qed.

(** ** Theorems: repetition registers *)

Lemma four_regs (l : list Z) :
  length l = 4%nat -> exists a b c d, l = [a; b; c; d].
Proof.
  destruct l as [|a [|b [|c [|d [|e l]]]]]; simpl; intros H; try discriminate.
  now exists a, b, c, d.
Qed.

Lemma shiftRegs_four (x a b c d : Z) : shiftRegs x [a; b; c; d] = [x; a; b; c].
Proof. reflexivity. Qed.

Lemma rotateRegs_four (a b c d : Z) :
  rotateRegs 0 [a; b; c; d] = [a; b; c; d] /\
  rotateRegs 1 [a; b; c; d] = [b; a; c; d] /\
  rotateRegs 2 [a; b; c; d] = [c; a; b; d] /\
  rotateRegs 3 [a; b; c; d] = [d; a; b; c].
Proof. repeat split; reflexivity. Qed.

Section DecoderRegisters.

Context {ops : Reader.DecoderOps}.

(** Case analysis on the next call of the range decoder in the goal or in
    a hypothesis. *)
Ltac next_bit :=
  match goal with
  | H : context [Reader.decodeBit ?c ?s] |- _ =>
      let E := fresh "Ebit" in
      destruct (Reader.decodeBit c s) as [[? | ?] ?] eqn:E
  | |- context [Reader.decodeBit ?c ?s] =>
      let E := fresh "Ebit" in
      destruct (Reader.decodeBit c s) as [[? | ?] ?] eqn:E
  end.

Ltac next_call f :=
  match goal with
  | |- context [f ?a ?s] =>
      let E := fresh "Ecall" in
      destruct (f a s) as [[? | ?] ?] eqn:E
  end.

(** Run the rest of [readSeq] in [H] and read the registers off. *)
Ltac finish_readSeq H :=
  unfold Reader.decodeLiteral, Reader.readRepLen, Reader.decodeDistIntoRep0,
    Reader.updState, Reader.getRep, Reader.setRep, Reader.onRd,
    bind, ret, fail, modify, gets in H;
  cbn -[wrap32 Z.eqb Reader.eosDist] in H;
  repeat (match type of H with
          | context [Reader.decodeBit ?a ?s] =>
              match goal with E : Reader.decodeBit a s = _ |- _ => rewrite E in H end
          | context [?a =? 0] =>
              match goal with E : (a =? 0) = _ |- _ => rewrite E in H end
          | context [Reader.lenDecode ?a ?s] =>
              match goal with E : Reader.lenDecode a s = _ |- _ => rewrite E in H end
          | context [Reader.distDecode ?a ?s] =>
              match goal with E : Reader.distDecode a s = _ |- _ => rewrite E in H end
          | context [Reader.litDecode ?a ?b ?c ?s] =>
              destruct (Reader.litDecode a b c s) as [[? | ?] ?]
          | context [Reader.repLenDecode ?a ?s] =>
              destruct (Reader.repLenDecode a s) as [[? | ?] ?]
          | context [match ?e with Some _ => _ | None => _ end] => destruct e
          | context [if ?b then _ else _] => destruct b
          end; cbn -[wrap32 Z.eqb Reader.eosDist] in H);
  inversion H; subst; reflexivity.

Lemma readSeq_regs (r : Reader.reader) (s s2 ps : Z) (k : opKind) (c : Reader.coder) :
  length (Reader.rep (Reader.rstate r)) = 4%nat ->
  Reader.rstates r = (s, s2, ps) ->
  Reader.spec_opKind s s2 (Reader.rd r) = (Ok k, c) ->
  match k with
  | KLiteral | KShortRep =>
      forall x r', Reader.readSeq r = (x, r') ->
                   Reader.rep (Reader.rstate r') = Reader.rep (Reader.rstate r)
  | KRep g =>
      forall x r', Reader.readSeq r = (x, r') ->
                   Reader.rep (Reader.rstate r') = rotateRegs g (Reader.rep (Reader.rstate r))
  | KSimple =>
      forall n c3 d e c4,
        Reader.lenDecode ps c = (Ok n, c3) ->
        Reader.distDecode n c3 = ((d, e), c4) ->
        forall x r', Reader.readSeq r = (x, r') ->
                     Reader.rep (Reader.rstate r') = shiftRegs d (Reader.rep (Reader.rstate r))
  end.
Proof.
  intros Hlen Hst Hk.
  destruct r as [dict [st rep props] rd lim err]. cbn [Reader.rstate Reader.rep] in *.
  destruct (four_regs _ Hlen) as (r0 & r1 & r2 & r3 & ->). clear Hlen.
  unfold Reader.rstates in Hst. cbn [Reader.rstate Reader.props Reader.st Reader.dict] in Hst.
  unfold Reader.spec_opKind, bind, ret in Hk. cbn [Reader.rd] in Hk.
  unfold Reader.readSeq. cbn [Reader.rstate Reader.props Reader.st Reader.dict].
  rewrite Hst.
  unfold bind, Reader.onRd. cbn [Reader.rd].
  repeat (match type of Hk with
          | context [Reader.decodeBit ?c ?s] =>
              destruct (Reader.decodeBit c s) as [[? | ?] ?] eqn:?
          | context [(?a =? 0)] => destruct (a =? 0) eqn:?
          end; cbn beta iota in * );
    try discriminate; inversion Hk; subst; clear Hk.
  all: intros;
    match goal with H : _ = (_, _) :> res Reader.Seq * Reader.reader |- _ =>
      finish_readSeq H
    end.
Qed.

End DecoderRegisters.

Section EncoderRegisters.

Context {eops : Writer.EncoderOps} {dops : Writer.DictOps}.

(** The search loop of [writeMatch] finds the first register that holds
    the distance, and 4 when none does. *)
Lemma findRep_list_find (a b c d dist : Z) :
  Writer.findRep [a; b; c; d] dist =
  match list_find (fun x => x = dist) [a; b; c; d] with
  | Some (g, _) => g
  | None => 4%nat
  end.
Proof.
  unfold Writer.findRep, Writer.findRepFrom, rep_get. cbn.
  repeat match goal with
         | |- context [?x =? dist] =>
             destruct (Z.eqb_spec x dist);
             [rewrite decide_True by assumption; reflexivity
             |rewrite decide_False by assumption; cbn]
         end.
  reflexivity.
Qed.

Lemma writeMatch_regs (m : Writer.lzmatch) (w w' : Writer.Writer) :
  length (Writer.oc_rep w) = 4%nat ->
  Writer.writeMatch m w = (Ok tt, w') ->
  let dist := wrap32 (Writer.m_distance m - Writer.minDistance) in
  Writer.oc_rep w' =
  updateRegs (Writer.matchKind (Writer.oc_rep w) dist (Writer.m_length m)) dist
             (Writer.oc_rep w).
Proof.
  intros Hlen H dist.
  destruct w as [rep st props D e P]. cbn [Writer.oc_rep] in *.
  destruct (four_regs _ Hlen) as (r0 & r1 & r2 & r3 & ->). clear Hlen.
  unfold Writer.writeMatch in H. fold dist in H. clearbody dist.
  destruct (negb _) in H; [discriminate|].
  cbn [Writer.oc_rep] in H. change (rep_get [r0; r1; r2; r3] 0) with r0 in H.
  rewrite (Z.eqb_sym dist r0) in H.
  unfold Writer.oc_states, states in H.
  unfold bind, gets, ret, modify, Writer.onRe, Writer.getRep, Writer.setRep,
    Writer.updState, Writer.findRep, Writer.findRepFrom, Writer.iverson in H.
  unfold Writer.matchKind. cbn -[Z.eqb].
  destruct (r0 =? dist) eqn:E0; destruct (r1 =? dist) eqn:E1;
    destruct (r2 =? dist) eqn:E2; destruct (r3 =? dist) eqn:E3;
    destruct (Writer.m_length m =? 1) eqn:EL.
  all: repeat match goal with
              | E : (?x =? ?y) = true |- context [decide (?x = ?y)] =>
                  rewrite (decide_True _ _ (proj1 (Z.eqb_eq x y) E)); cbn -[Z.eqb]
              | E : (?x =? ?y) = false |- context [decide (?x = ?y)] =>
                  rewrite (decide_False _ _ (proj1 (Z.eqb_neq x y) E)); cbn -[Z.eqb]
              end.
  all: match type of H with
       | (if ?g then _ else _) = _ => destruct g; [discriminate|]
       end.
  all: cbn -[wrap32 Z.eqb Z.leb Z.land Z.lor Z.shiftl] in H.
  all: repeat (rewrite ?E0, ?E1, ?E2, ?E3, ?EL in H;
               change (1 =? 0) with false in H; change (0 =? 0) with true in H;
               change (1 =? 1) with true in H; change (0 =? 1) with false in H;
               cbn -[wrap32 Z.eqb Z.leb Z.land Z.lor Z.shiftl] in H;
               try match type of H with
               | context [Writer.encodeBit ?c ?b ?s] =>
                   destruct (Writer.encodeBit c b s) as [[[] | ?] ?]
               | context [Writer.lenEncode ?a ?b ?s] =>
                   destruct (Writer.lenEncode a b s) as [[[] | ?] ?]
               | context [Writer.repLenEncode ?a ?b ?s] =>
                   destruct (Writer.repLenEncode a b s) as [[[] | ?] ?]
               | context [Writer.distEncode ?a ?b ?s] =>
                   destruct (Writer.distEncode a b s) as [[[] | ?] ?]
               end;
               cbn -[wrap32 Z.eqb Z.leb Z.land Z.lor Z.shiftl] in H).
  all: try discriminate.
  all: clear EL;
    repeat match goal with
           | E : (_ =? _) = true |- _ => apply Z.eqb_eq in E
           | E : (_ =? _) = false |- _ => clear E
           end;
    subst; inversion H; subst; reflexivity.
Qed.

End EncoderRegisters.

(** The rotation rule on four registers, register by register. *)
Lemma rotateRegs_spec (regs : list Z) (g : nat) :
  length regs = 4%nat -> (g < 4)%nat ->
  length (rotateRegs g regs) = 4%nat /\
  rep_get (rotateRegs g regs) 0 = rep_get regs g /\
  (forall i, (i < g)%nat -> rep_get (rotateRegs g regs) (S i) = rep_get regs i) /\
  (forall i, (g < i)%nat -> rep_get (rotateRegs g regs) i = rep_get regs i).
Proof.
  intros Hlen Hg. destruct (four_regs _ Hlen) as (a & b & c & d & ->).
  destruct g as [|[|[|[|g]]]]; try lia; (split; [reflexivity|]);
    (split; [reflexivity|]); split; intros i Hi;
    destruct i as [|[|[|[|i]]]]; try lia; reflexivity.
Qed.

Lemma shiftRegs_spec (regs : list Z) (d : Z) :
  length regs = 4%nat ->
  shiftRegs d regs = [d; rep_get regs 0; rep_get regs 1; rep_get regs 2].
Proof.
  intros Hlen. destruct (four_regs _ Hlen) as (a & b & c & e & ->). reflexivity.
Qed.

(** C3: after a simple match with new distance [d] the registers are the
    old ones shifted right by one with [rep0 = d]; after a repetition of
    register [g] the first [g+1] registers are rotated so that [rep0] is the
    old [rep g]; a short repetition (and a literal) leaves all four as they
    were.  The decoder's [readSeq] and the encoder's [writeMatch] both
    follow these rules, so from equal registers and the same operation
    they end with equal registers. *)
Theorem C3_rep_registers
  {ops : Reader.DecoderOps} {eops : Writer.EncoderOps} {dops : Writer.DictOps}
  (r : Reader.reader) (s s2 ps : Z) (k : opKind) (c : Reader.coder)
  (m : Writer.lzmatch) (w w' : Writer.Writer) :
  length (Reader.rep (Reader.rstate r)) = 4%nat ->
  Reader.rstates r = (s, s2, ps) ->
  Reader.spec_opKind s s2 (Reader.rd r) = (Ok k, c) ->
  length (Writer.oc_rep w) = 4%nat ->
  Writer.writeMatch m w = (Ok tt, w') ->
  let regs := Reader.rep (Reader.rstate r) in
  let dist := wrap32 (Writer.m_distance m - Writer.minDistance) in
  let ek := Writer.matchKind (Writer.oc_rep w) dist (Writer.m_length m) in
  (* the three rules on four registers *)
  (forall d, updateRegs KSimple d regs =
             [d; rep_get regs 0; rep_get regs 1; rep_get regs 2]) /\
  (forall g d, (g < 4)%nat ->
     rep_get (updateRegs (KRep g) d regs) 0 = rep_get regs g /\
     (forall i, (i < g)%nat ->
        rep_get (updateRegs (KRep g) d regs) (S i) = rep_get regs i) /\
     (forall i, (g < i)%nat ->
        rep_get (updateRegs (KRep g) d regs) i = rep_get regs i)) /\
  (forall d, updateRegs KShortRep d regs = regs) /\
  (* the decoder *)
  (forall x r', Reader.readSeq r = (x, r') ->
     match k with
     | KSimple =>
         forall n c3 d e c4,
           Reader.lenDecode ps c = (Ok n, c3) ->
           Reader.distDecode n c3 = ((d, e), c4) ->
           Reader.rep (Reader.rstate r') = updateRegs KSimple d regs
     | _ => Reader.rep (Reader.rstate r') = updateRegs k 0 regs
     end) /\
  (* the encoder *)
  Writer.oc_rep w' = updateRegs ek dist (Writer.oc_rep w) /\
  (* both together *)
  (Writer.oc_rep w = regs -> k = ek ->
   forall x r', Reader.readSeq r = (x, r') ->
     (k = KSimple -> exists n c3 e c4,
         Reader.lenDecode ps c = (Ok n, c3) /\
         Reader.distDecode n c3 = ((dist, e), c4)) ->
     Reader.rep (Reader.rstate r') = Writer.oc_rep w').
Proof.
  intros Hlen Hst Hk Hwlen Hw regs dist ek.
  pose proof (readSeq_regs r s s2 ps k c Hlen Hst Hk) as Hdec.
  pose proof (writeMatch_regs m w w' Hwlen Hw) as Henc.
  cbv zeta in Henc. fold dist in Henc. fold ek in Henc.
  assert (Hd : forall x r', Reader.readSeq r = (x, r') ->
     match k with
     | KSimple =>
         forall n c3 d e c4,
           Reader.lenDecode ps c = (Ok n, c3) ->
           Reader.distDecode n c3 = ((d, e), c4) ->
           Reader.rep (Reader.rstate r') = updateRegs KSimple d regs
     | _ => Reader.rep (Reader.rstate r') = updateRegs k 0 regs
     end).
  { intros x r' Hr. destruct k; cbn [updateRegs]; eauto. }
  split; [intros d; cbn [updateRegs]; now apply shiftRegs_spec|].
  split; [intros g d Hg; cbn [updateRegs];
          destruct (rotateRegs_spec regs g Hlen Hg) as (_ & H0 & H1 & H2); auto|].
  split; [reflexivity|].
  split; [exact Hd|].
  split; [exact Henc|].
  intros Hregs Hkk x r' Hr Hsimple.
  rewrite Henc, Hregs, <- Hkk.
  specialize (Hd x r' Hr). destruct k; cbn [updateRegs] in *; auto.
  destruct (Hsimple eq_refl) as (n & c3 & e & c4 & Hl & Hdd). eauto.
Qed.

(** A repetition of register 2: the decoder reads the bits 1,1,1,1,0 and
    the length 3, the encoder is given the distance held in register 2. *)
Lemma C3_rep_registers_witness :
  let r := @Reader.mkReader Script.decoder (Buffer.mk [] 0 4096 4096 0)
             (Reader.mkState 0 [5; 6; 7; 8] (Props.mkProperties 3 0 2))
             [1; 1; 1; 1; 0; 3] (-1) None in
  let w := @Writer.mkWriter Script.encoder Script.dict [5; 6; 7; 8] 0
             (Props.mkProperties 3 0 2) (Script.mkSdict 0 0 0 [] []) []
             (Writer.mkParameters 0 false false) in
  let m := Writer.mkMatch 8 5 in
  Reader.rep (Reader.rstate (snd (Reader.readSeq r))) = [7; 5; 6; 8] /\
  Writer.oc_rep (snd (Writer.writeMatch m w)) = [7; 5; 6; 8] /\
  Reader.rep (Reader.rstate (snd (Reader.readSeq r))) =
  Writer.oc_rep (snd (Writer.writeMatch m w)).
Proof.
  intros r w m.
  destruct (@C3_rep_registers Script.decoder Script.encoder Script.dict
              r 0 0 0 (KRep 2) [3] m w (snd (Writer.writeMatch m w))
              eq_refl eq_refl eq_refl eq_refl eq_refl)
    as (_ & _ & _ & Hdec & Henc & Hboth).
  split; [|split].
  - exact (Hdec _ _ (surjective_pairing _)).
  - exact Henc.
  - apply (Hboth eq_refl eq_refl _ _ (surjective_pairing _)).
    intros Hk. discriminate Hk.
Defined.

(** ** Theorems: the range checks of [writeMatch] *)



(** ** Theorems: the candidate offsets of the encoder *)

(** A loop that appends [f i] for the [i] that pass a test is a filter
    followed by a map. *)
Lemma foldl_cond_app {A B : Type} (f : A -> B) (b : A -> bool) (P : A -> Prop)
      `{!forall x, Decision (P x)} :
  (forall x, b x = true <-> P x) ->
  forall (l : list A) (acc : list B),
    foldl (fun offs i => if b i then offs ++ [f i] else offs) acc l =
    acc ++ (f <$> filter P l).
Proof.
  intros Hb l. induction l as [|x l IH]; intros acc; cbn [foldl].
  - now rewrite app_nil_r.
  - rewrite IH. rewrite filter_cons.
    destruct (b x) eqn:E.
    + rewrite decide_True by (now apply Hb).
      rewrite fmap_cons, <- app_assoc. reflexivity.
    + rewrite decide_False; [reflexivity|].
      intros HP. apply Hb in HP. congruence.
Qed.

Section CandidateOffsets.

Context {eops : Writer.EncoderOps} {dops : Writer.DictOps}.

Lemma nearOffsets_filter (head start : Z) :
  Writer.nearOffsets head start =
  (fun i => head - i) <$> filter (fun i => start <= head - i) (seqZ 1 10).
Proof.
  unfold Writer.nearOffsets. change (11 - 1) with 10.
  rewrite (foldl_cond_app (fun i => head - i) (fun i => start <=? head - i)
                          (fun i => start <= head - i)).
  - reflexivity.
  - intros x. apply Z.leb_le.
Qed.

Lemma repOffsets_filter (rep : list Z) (head start : Z) :
  Writer.repOffsets rep head start =
  (fun g => head - (rep_get rep g + Writer.minDistance)) <$>
  filter (fun g => start <= head - (rep_get rep g + Writer.minDistance))
         [3%nat; 2%nat; 1%nat; 0%nat].
Proof.
  unfold Writer.repOffsets.
  rewrite (foldl_cond_app
             (fun g => head - (rep_get rep g + Writer.minDistance))
             (fun g => start <=? head - (rep_get rep g + Writer.minDistance))
             (fun g => start <= head - (rep_get rep g + Writer.minDistance))).
  - reflexivity.
  - intros x. apply Z.leb_le.
Qed.

End CandidateOffsets.

(** C7 (as amended): the candidate list is, in this order, a run of
    in-window offsets at small distances that holds every in-window offset
    at distance 1 to 8, then the hash-chain candidates (only when four bytes
    are at the head), then the in-window offsets of the four register
    distances from [rep3] down to [rep0]; nothing is removed, so an offset
    proposed twice is listed twice. *)
Theorem C7_potentialOffsets_parts
  {eops : Writer.EncoderOps} {dops : Writer.DictOps}
  (p : list Z) (w : Writer.Writer) :
  let head := Writer.Offset (Writer.Dict w) in
  let start := Writer.d_start (Writer.Dict w) in
  let regOff := fun g => head - (rep_get (Writer.oc_rep w) g + Writer.minDistance) in
  exists near : list Z,
    Writer.potentialOffsets p w =
      near
      ++ (if (length p =? 4)%nat then Writer.Offsets p (Writer.Dict w) else [])
      ++ (regOff <$> filter (fun g => start <= regOff g)
                            [3%nat; 2%nat; 1%nat; 0%nat]) /\
    (forall i, 1 <= i <= 8 -> start <= head - i -> head - i ∈ near) /\
    (forall o, o ∈ near -> start <= o < head).
Proof.
  intros head start regOff.
  exists (Writer.nearOffsets head start). split; [|split].
  - unfold Writer.potentialOffsets. fold head start.
    rewrite repOffsets_filter. fold regOff.
    destruct (length p =? 4)%nat; [now rewrite <- app_assoc|].
    now rewrite app_nil_l.
  - intros i Hi Hw. rewrite nearOffsets_filter.
    apply list_elem_of_fmap. exists i. split; [reflexivity|].
    apply list_elem_of_filter. split; [exact Hw|].
    apply elem_of_seqZ. lia.
  - intros o Ho. rewrite nearOffsets_filter in Ho.
    apply list_elem_of_fmap in Ho. destruct Ho as (i & -> & Hi).
    apply list_elem_of_filter in Hi. destruct Hi as [Hw Hs].
    apply elem_of_seqZ in Hs. lia.
Qed.

(** Head at offset 5 of a window that starts at 0, one byte left at the
    head, all registers zero: the distances 1 to 5 and the register
    distance 1 four times. *)
Lemma C7_potentialOffsets_witness :
  let w := @Writer.mkWriter Script.encoder Script.dict [0; 0; 0; 0] 0
             (Props.mkProperties 3 0 2)
             (Script.mkSdict 0 5 6 [] [1; 2; 3; 4; 5; 6]) []
             (Writer.mkParameters 0 false false) in
  Writer.potentialOffsets [6] w = [4; 3; 2; 1; 0; 4; 4; 4; 4] /\
  exists near : list Z,
    Writer.potentialOffsets [6] w = near ++ [] ++ [4; 4; 4; 4] /\
    5 - 3 ∈ near.
Proof.
  intros w.
  destruct (@C7_potentialOffsets_parts Script.encoder Script.dict [6] w)
    as (near & Heq & Hin & _).
  split; [reflexivity|].
  exists near. split; [exact Heq|].
  apply Hin; cbn; lia.
Defined.

(** C7 (as written) fails: the list is not freed of duplicates.  In the
    situation above the offset 4 is listed five times. *)
Lemma C7_counterexample_duplicates :
  ~ (forall (eops : Writer.EncoderOps) (dops : Writer.DictOps)
            (p : list Z) (w : Writer.Writer),
       NoDup (Writer.potentialOffsets p w)).
Proof.
  intros H.
  specialize (H Script.encoder Script.dict [6]
                (@Writer.mkWriter Script.encoder Script.dict [0; 0; 0; 0] 0
                   (Props.mkProperties 3 0 2)
                   (Script.mkSdict 0 5 6 [] [1; 2; 3; 4; 5; 6]) []
                   (Writer.mkParameters 0 false false))).
  change (NoDup ([4; 3; 2; 1; 0; 4; 4; 4; 4] : list Z)) in H.
  apply NoDup_cons in H. destruct H as [Hnot _].
  apply Hnot. apply list_elem_of_In. cbn. tauto.
Qed.

(** ** Theorems: [Write] beyond the declared size *)

(** C4 (what the code does): with the size in the header, a [Write] whose
    bytes would bring the total beyond [Size] panics on the slice
    expression [p[:Size-end]], whose bound is negative; it neither
    truncates nor returns the error it has prepared. *)
Theorem C4_Write_beyond_Size_panics
  {eops : Writer.EncoderOps} {dops : Writer.DictOps}
  (fuel : nat) (p : list Z) (w : Writer.Writer) :
  Writer.SizeInHeader (Writer.params w) = true ->
  0 <= Writer.d_end (Writer.Dict w) ->
  Writer.d_end (Writer.Dict w) + Z.of_nat (length p) < 2 ^ 63 ->
  Writer.Size (Writer.params w) < Writer.d_end (Writer.Dict w) + Z.of_nat (length p) ->
  Writer.Write fuel p w = Panic "slice bounds out of range".
Proof.
  intros Hsz H0 Hov Hex. unfold Writer.Write.
  rewrite wrap64_small by lia.
  destruct (Z.ltb_spec (Writer.d_end (Writer.Dict w) + Z.of_nat (length p)) 0); [lia|].
  rewrite Hsz. cbn [andb].
  destruct (Z.ltb_spec (Writer.Size (Writer.params w))
                       (Writer.d_end (Writer.Dict w) + Z.of_nat (length p))); [|lia].
  unfold Writer.sliceTo.
  destruct (Z.ltb_spec (Writer.Size (Writer.params w) -
                        (Writer.d_end (Writer.Dict w) + Z.of_nat (length p))) 0); [|lia].
  reflexivity.
Qed.

(** Declared size 3, nothing written yet, five bytes offered. *)
Lemma C4_Write_beyond_Size_witness :
  Writer.Write 100 [1; 2; 3; 4; 5]
    (@Writer.mkWriter Script.encoder Script.dict [0; 0; 0; 0] 0
       (Props.mkProperties 3 0 2) (Script.mkSdict 0 0 0 [] []) []
       (Writer.mkParameters 3 true false))
  = Panic "slice bounds out of range".
Proof.
  apply C4_Write_beyond_Size_panics; cbn; try reflexivity; lia.
Defined.

(** ** Theorems: the dictionary buffer *)

Lemma Buffer_Read_spec (k : nat) (b : Buffer.t) :
  Buffer.wf b ->
  let '(out, b') := Buffer.Read k b in
  out = take k (drop (Buffer.rd_pos b) (Buffer.data b)) /\
  length out = Nat.min k (length (Buffer.data b) - Buffer.rd_pos b) /\
  Buffer.data b' = Buffer.data b /\
  Buffer.rd_pos b' = (Buffer.rd_pos b + length out)%nat /\
  Buffer.bufferSize b' = Buffer.bufferSize b /\
  Buffer.windowSize b' = Buffer.windowSize b /\
  Buffer.off b' = Buffer.off b /\
  Buffer.wf b'.
Proof.
  intros Hwf. unfold Buffer.Read, Buffer.wf in *. cbn.
  assert (Hl : length (take k (drop (Buffer.rd_pos b) (Buffer.data b))) =
               Nat.min k (length (Buffer.data b) - Buffer.rd_pos b)).
  { rewrite length_take, length_drop. reflexivity. }
  repeat split; try reflexivity; try assumption. rewrite Hl. lia.
Qed.

Lemma copyMatch_app (m o : nat) (d : list Z) :
  exists new, Buffer.copyMatch m o d = d ++ new /\ length new = m.
Proof.
  revert d. induction m as [|m IH]; intros d; cbn [Buffer.copyMatch].
  - exists []. now rewrite app_nil_r.
  - destruct (IH (d ++ [default 0 (d !! (length d - o)%nat)])) as (new & -> & Hl).
    eexists (_ :: new). rewrite <- app_assoc. split; [reflexivity|].
    cbn. now rewrite Hl.
Qed.

Lemma Buffer_WriteByte_ok (c : Z) (b b' : Buffer.t) :
  Buffer.WriteByte c b = (None, b') ->
  b' = Buffer.append [c] b /\ 1 <= Buffer.Available b.
Proof.
  unfold Buffer.WriteByte.
  destruct (Z.ltb_spec (Buffer.Available b) 1) as [Hlt | Hge]; intros E;
    inversion E; subst. split; [reflexivity | lia].
Qed.

Lemma Buffer_WriteByte_room (c : Z) (b : Buffer.t) :
  1 <= Buffer.Available b -> Buffer.WriteByte c b = (None, Buffer.append [c] b).
Proof.
  intros H. unfold Buffer.WriteByte.
  destruct (Z.ltb_spec (Buffer.Available b) 1) as [Hlt | Hge]; [lia | reflexivity].
Qed.

Lemma Buffer_WriteMatch_err (m o : Z) (b b' : Buffer.t) (e : error) :
  Buffer.WriteMatch m o b = (Some e, b') -> b' = b.
Proof.
  unfold Buffer.WriteMatch. destruct (negb _); [intros E; now inversion E|].
  destruct (_ || _); intros E; now inversion E.
Qed.

Lemma Buffer_WriteMatch_ok (m o : Z) (b b' : Buffer.t) :
  Buffer.WriteMatch m o b = (None, b') ->
  0 <= m <= Buffer.Available b /\
  exists new, length new = Z.to_nat m /\ b' = Buffer.append new b.
Proof.
  unfold Buffer.WriteMatch. destruct (negb _); [discriminate|].
  destruct (Z.ltb_spec m 0) as [Hm | Hm]; [discriminate|].
  destruct (Z.ltb_spec (Buffer.Available b) m) as [Ha | Ha]; [discriminate|].
  cbn [orb]. intros E. inversion E; subst. split; [lia|].
  destruct (copyMatch_app (Z.to_nat m) (Z.to_nat o) (Buffer.data b)) as (new & Ecm & Hl).
  exists new. split; [exact Hl|]. unfold Buffer.append. now rewrite Ecm.
Qed.

Lemma Buffer_append_facts (new : list Z) (b : Buffer.t) :
  Buffer.wf b ->
  Buffer.wf (Buffer.append new b) /\
  Buffer.Len (Buffer.append new b) = Buffer.Len b + Z.of_nat (length new) /\
  Buffer.Available (Buffer.append new b) = Buffer.Available b - Z.of_nat (length new) /\
  Buffer.Pos (Buffer.append new b) = Buffer.Pos b + Z.of_nat (length new).
Proof.
  unfold Buffer.wf, Buffer.Available, Buffer.Len, Buffer.Pos, Buffer.append.
  cbn [Buffer.data Buffer.rd_pos Buffer.bufferSize Buffer.off].
  intros Hwf. rewrite !length_app. repeat split; lia.
Qed.

(** ** Theorems: what [readSeq] leaves alone *)

Section ReaderFrame.

Context {ops : Reader.DecoderOps}.

Lemma frame_refl (r : Reader.reader) : Reader.frame r r.
Proof. now repeat split. Qed.

Lemma frame_trans (r1 r2 r3 : Reader.reader) :
  Reader.frame r1 r2 -> Reader.frame r2 r3 -> Reader.frame r1 r3.
Proof.
  unfold Reader.frame. intros (A1 & A2 & A3) (B1 & B2 & B3).
  repeat split; congruence.
Qed.

Lemma keeps_ret {A : Type} (a : A) : Reader.keeps (ret a).
Proof. intros r x r' H. inversion H. apply frame_refl. Qed.

Lemma keeps_fail {A : Type} (e : error) : Reader.keeps (@fail _ A e).
Proof. intros r x r' H. inversion H. apply frame_refl. Qed.

Lemma keeps_bind {A B : Type} (m : M Reader.reader A) (k : A -> M Reader.reader B) :
  Reader.keeps m -> (forall a, Reader.keeps (k a)) -> Reader.keeps (bind m k).
Proof.
  intros Hm Hk r x r' H. unfold bind in H.
  destruct (m r) as [[a | e] r1] eqn:E.
  - eapply frame_trans; [eapply Hm; eauto | eapply Hk; eauto].
  - inversion H; subst. eapply Hm; eauto.
Qed.

Lemma keeps_onRd {A : Type} (m : M Reader.coder A) : Reader.keeps (Reader.onRd m).
Proof.
  intros r x r' H. unfold Reader.onRd in H.
  destruct (m (Reader.rd r)) as [y c]. inversion H. now repeat split.
Qed.

Lemma keeps_getRep (i : nat) : Reader.keeps (Reader.getRep i).
Proof. intros r x r' H. inversion H. apply frame_refl. Qed.

Lemma keeps_setRep (i : nat) (v : Z) : Reader.keeps (Reader.setRep i v).
Proof. intros r x r' H. inversion H. now repeat split. Qed.

Lemma keeps_updState (f : Z -> Z) : Reader.keeps (Reader.updState f).
Proof. intros r x r' H. inversion H. now repeat split. Qed.

Lemma keeps_decodeDistIntoRep0 (n : Z) : Reader.keeps (Reader.decodeDistIntoRep0 n).
Proof.
  intros r x r' H. unfold Reader.decodeDistIntoRep0 in H.
  destruct (Reader.distDecode n (Reader.rd r)) as [[d [e|]] c];
    inversion H; now repeat split.
Qed.

Ltac keeps_step :=
  first [ apply keeps_ret | apply keeps_fail | apply keeps_onRd
        | apply keeps_getRep | apply keeps_setRep | apply keeps_updState
        | apply keeps_decodeDistIntoRep0
        | apply keeps_bind; [|intros ?]
        | match goal with |- Reader.keeps (if ?b then _ else _) => destruct b end ].

Lemma keeps_decodeLiteral : Reader.keeps Reader.decodeLiteral.
Proof.
  intros r x r' H. unfold Reader.decodeLiteral in H. revert H.
  apply keeps_bind; [apply keeps_onRd | intros; apply keeps_ret].
Qed.

Lemma keeps_readRepLen (ps dist : Z) : Reader.keeps (Reader.readRepLen ps dist).
Proof. unfold Reader.readRepLen. repeat keeps_step. Qed.

(** [readSeq] touches the registers, the context state and the range
    decoder only. *)
Lemma readSeq_frame : Reader.keeps Reader.readSeq.
Proof.
  intros r x r' H. unfold Reader.readSeq in H.
  destruct (states _ _ _) as [[s s2] ps]. revert r x r' H.
  match goal with
  | |- forall r x r', ?m r = (x, r') -> _ => change (Reader.keeps m)
  end.
  repeat first [apply keeps_decodeLiteral | apply keeps_readRepLen | keeps_step].
Qed.

End ReaderFrame.

(** ** Theorems: [fillBuffer] *)

Section FillBuffer.

Context {ops : Reader.DecoderOps}.

Lemma append_append (n1 n2 : list Z) (b : Buffer.t) :
  Buffer.append n2 (Buffer.append n1 b) = Buffer.append (n1 ++ n2) b.
Proof. unfold Buffer.append. cbn. now rewrite app_assoc. Qed.

Lemma append_nil (b : Buffer.t) : Buffer.append [] b = b.
Proof. destruct b. unfold Buffer.append. cbn. now rewrite app_nil_r. Qed.

Lemma fillLoop_S (n : nat) (r : Reader.reader) :
  Reader.fillLoop (S n) r =
  if Buffer.Available (Reader.dict r) <? Reader.maxMatchLen then Done (None, r)
  else
    match Reader.readSeq r with
    | (Err e, r1) =>
        Done (Some (Reader.fillError e r1),
              Reader.set_err (Some (Reader.fillError e r1)) r1)
    | (Ok seq, r1) =>
        match Reader.writeSeq seq r1 with
        | Done (None, r2) =>
            if Reader.uncompressedLimit r2 =? Buffer.Pos (Reader.dict r2)
            then Done (Reader.atLimit r2)
            else Reader.fillLoop n r2
        | Done (Some e, r2) => Done (Some e, r2)
        | Panic msg => Panic msg
        | OutOfFuel => OutOfFuel
        end
    end.
Proof. reflexivity. Qed.

Lemma writeSeq_ok (seq : Reader.Seq) (r1 r2 : Reader.reader) :
  Buffer.wf (Reader.dict r1) ->
  Reader.writeSeq seq r1 = Done (None, r2) ->
  exists new, (1 <= length new)%nat /\
    Z.of_nat (length new) <= Buffer.Available (Reader.dict r1) /\
    r2 = Reader.set_dict (Buffer.append new (Reader.dict r1)) r1.
Proof.
  intros Hwf. unfold Reader.writeSeq.
  destruct (Z.eqb_spec (Reader.MatchLen seq) 0) as [Hz | Hnz].
  - destruct (Buffer.WriteByte _ _) as [[e|] d] eqn:E; [discriminate|].
    apply Buffer_WriteByte_ok in E. destruct E as [-> Hroom].
    intros H. inversion H. exists [wrap8 (Reader.Aux seq)]. cbn. repeat split; lia.
  - destruct (Buffer.WriteMatch _ _ _) as [[e|] d] eqn:E; [discriminate|].
    apply Buffer_WriteMatch_ok in E. destruct E as [Hm (new & Hl & ->)].
    intros H. inversion H. exists new. repeat split; lia.
Qed.

Lemma writeSeq_err (seq : Reader.Seq) (r1 r2 : Reader.reader) (e : error) :
  Reader.writeSeq seq r1 = Done (Some e, r2) ->
  r2 = Reader.set_err (Some e) r1 /\ e <> EOF /\ e <> ErrEncoding.
Proof.
  unfold Reader.writeSeq. destruct (Reader.MatchLen seq =? 0).
  - destruct (Buffer.WriteByte _ _) as [[e'|] d]; discriminate.
  - unfold Buffer.WriteMatch. destruct (negb _).
    + intros H. inversion H. destruct r1. repeat split; discriminate.
    + destruct (_ || _); intros H; inversion H.
      destruct r1. repeat split; discriminate.
Qed.

Lemma fillError_EOF (e : error) (r : Reader.reader) :
  Reader.fillError e r = EOF ->
  Reader.possiblyAtEnd (Reader.rd r) = true /\
  ((e = errEOS /\ (Reader.uncompressedLimit r < 0 \/
                   Reader.uncompressedLimit r = Buffer.Pos (Reader.dict r))) \/
   (e = EOF /\ Reader.uncompressedLimit r = Buffer.Pos (Reader.dict r))).
Proof.
  unfold Reader.fillError. destruct e; try discriminate.
  - destruct (Reader.possiblyAtEnd _); cbn [negb orb]; [|discriminate].
    destruct (Z.eqb_spec (Reader.uncompressedLimit r) (Buffer.Pos (Reader.dict r)));
      cbn [negb]; [|discriminate]. intros _. split; [reflexivity|]. right. now split.
  - destruct (Reader.possiblyAtEnd _); cbn [andb]; [|discriminate].
    destruct (Z.ltb_spec (Reader.uncompressedLimit r) 0); cbn [orb].
    + intros _. split; [reflexivity|]. left. split; [reflexivity|]. now left.
    + destruct (Z.eqb_spec (Reader.uncompressedLimit r) (Buffer.Pos (Reader.dict r)));
        [|discriminate]. intros _. split; [reflexivity|]. left. split; [reflexivity|]. now right.
Qed.

Lemma atLimit_facts (r2 : Reader.reader) (e : option error) (r' : Reader.reader) :
  Reader.atLimit r2 = (e, r') ->
  Reader.dict r' = Reader.dict r2 /\
  Reader.uncompressedLimit r' = Reader.uncompressedLimit r2 /\
  Reader.err r' = e /\ (e = Some EOF \/ e = Some ErrEncoding).
Proof.
  unfold Reader.atLimit. destruct (Reader.possiblyAtEnd (Reader.rd r2)).
  - intros H. inversion H. repeat split. now left.
  - destruct (Reader.readSeq r2) as [x r3] eqn:E.
    destruct (readSeq_frame _ _ _ E) as (Hd & Hl & _).
    intros H. inversion H. cbn. repeat split; try assumption.
    destruct (negb _ || negb _); [now right | now left].
Qed.

Lemma fillLoop_facts (fuel : nat) :
  forall (r : Reader.reader) (e : option error) (r' : Reader.reader),
    Buffer.wf (Reader.dict r) ->
    Reader.fillLoop fuel r = Done (e, r') ->
    (exists new, Reader.dict r' = Buffer.append new (Reader.dict r)) /\
    Reader.uncompressedLimit r' = Reader.uncompressedLimit r /\
    match e with
    | Some x => Reader.err r' = Some x
    | None => Reader.err r' = Reader.err r /\
              Buffer.Available (Reader.dict r') < Reader.maxMatchLen
    end /\
    (0 <= Reader.uncompressedLimit r -> e = Some EOF ->
     Buffer.Pos (Reader.dict r') = Reader.uncompressedLimit r) /\
    (Buffer.Pos (Reader.dict r) <> Reader.uncompressedLimit r ->
     Buffer.Pos (Reader.dict r') = Reader.uncompressedLimit r ->
     e = Some EOF \/ e = Some ErrEncoding) /\
    (Reader.uncompressedLimit r < 0 -> 0 <= Buffer.Pos (Reader.dict r) ->
     e = Some EOF ->
     exists r1 r2, Reader.readSeq r1 = (Err errEOS, r2) /\
                   Reader.possiblyAtEnd (Reader.rd r2) = true /\
                   r' = Reader.set_err (Some EOF) r2).
Proof.
  induction fuel as [|n IH]; intros r e r' Hwf H; [discriminate|].
  rewrite fillLoop_S in H.
  destruct (Z.ltb_spec (Buffer.Available (Reader.dict r)) Reader.maxMatchLen) as [Hfull | Hroom].
  { inversion H; subst. split; [exists []; now rewrite append_nil|].
    split; [reflexivity|]. split; [now split|].
    split; [discriminate|]. split; [congruence|]. discriminate. }
  destruct (Reader.readSeq r) as [[seq | e1] r1] eqn:Eseq.
  2:{ destruct (readSeq_frame _ _ _ Eseq) as (Hd & Hl & He).
      inversion H; subst. cbn [Reader.set_err Reader.dict Reader.uncompressedLimit Reader.err].
      split; [exists []; now rewrite append_nil, Hd|].
      split; [exact Hl|]. split; [reflexivity|].
      split; [|split].
      - intros Hlim E. inversion E as [E']. apply fillError_EOF in E'.
        destruct E' as (_ & [(_ & [Hneg | Heq]) | (_ & Heq)]); try lia; congruence.
      - intros Hne Heq. exfalso. apply Hne. congruence.
      - intros Hneg Hpos E. inversion E as [E']. rewrite E'. apply fillError_EOF in E'.
        destruct E' as (Hend & [(-> & _) | (_ & Heq)]).
        + exists r, r1. repeat split; assumption.
        + exfalso. rewrite Hl, Hd in Heq. lia. }
  destruct (readSeq_frame _ _ _ Eseq) as (Hd & Hl & He).
  assert (Hwf1 : Buffer.wf (Reader.dict r1)) by (now rewrite Hd).
  destruct (Reader.writeSeq seq r1) as [[[e2|] r2] | msg | ] eqn:Ew; try discriminate.
  { apply writeSeq_err in Ew. destruct Ew as (-> & Hne1 & Hne2).
    inversion H; subst. cbn [Reader.set_err Reader.dict Reader.uncompressedLimit Reader.err].
    split; [exists []; now rewrite append_nil, Hd|].
    split; [exact Hl|]. split; [reflexivity|].
    split; [intros _ E; congruence|].
    split; [intros Hne Heq; exfalso; apply Hne; congruence|].
    intros _ _ E. congruence. }
  destruct (writeSeq_ok _ _ _ Hwf1 Ew) as (new & Hn1 & Hn2 & ->).
  cbn [Reader.set_dict Reader.dict Reader.uncompressedLimit] in H.
  destruct (Buffer_append_facts new (Reader.dict r1) Hwf1) as (Hwf2 & HLen & HAv & HPos).
  set (r2 := Reader.set_dict (Buffer.append new (Reader.dict r1)) r1) in *.
  destruct (Z.eqb_spec (Reader.uncompressedLimit r1)
                       (Buffer.Pos (Buffer.append new (Reader.dict r1)))) as [Hat | Hnot].
  { inversion H as [Hal]. destruct (Reader.atLimit r2) as [e3 r3] eqn:Eat.
    inversion Hal; subst e3 r3.
    destruct (atLimit_facts _ _ _ Eat) as (Hd3 & Hl3 & He3 & Hcases).
    cbn [r2 Reader.set_dict Reader.dict Reader.uncompressedLimit] in Hd3, Hl3.
    split; [exists new; now rewrite Hd3, Hd|].
    split; [congruence|].
    split; [destruct Hcases as [-> | ->]; exact He3|].
    split; [intros _ _; rewrite Hd3; congruence|].
    split; [intros _ _; exact Hcases|].
    intros Hneg Hpos _. exfalso. rewrite Hd in *. lia. }
  assert (Hwf2' : Buffer.wf (Reader.dict r2)) by exact Hwf2.
  destruct (IH r2 e r' Hwf2' H) as (Hg & Hlim & Hlatch & Hexact & Hstop & Heos).
  cbn [r2 Reader.set_dict Reader.dict Reader.uncompressedLimit Reader.err] in *.
  split; [destruct Hg as (new2 & ->); exists (new ++ new2);
          now rewrite append_append, Hd|].
  split; [congruence|].
  split; [destruct e; [exact Hlatch | destruct Hlatch; split; congruence]|].
  split; [intros H0 E; rewrite <- Hl; apply Hexact; [lia | exact E]|].
  split; [intros _ Heq; apply Hstop; [congruence | congruence]|].
  intros Hneg Hpos E. apply Heos; [lia | rewrite Hd in *; lia | exact E].
Qed.

(** The loop ends within the fuel [fillBuffer] gives it: every round that
    goes on has written at least one byte. *)
Lemma fillLoop_total (fuel : nat) :
  forall r : Reader.reader,
    Buffer.wf (Reader.dict r) ->
    1 <= Reader.maxMatchLen ->
    (Z.to_nat (Buffer.Available (Reader.dict r)) < fuel)%nat ->
    exists e r', Reader.fillLoop fuel r = Done (e, r').
Proof.
  induction fuel as [|n IH]; intros r Hwf Hmax Hfuel; [lia|].
  rewrite fillLoop_S.
  destruct (Z.ltb_spec (Buffer.Available (Reader.dict r)) Reader.maxMatchLen) as [Hfull | Hroom];
    [eauto|].
  destruct (Reader.readSeq r) as [[seq | e1] r1] eqn:Eseq; [|eauto].
  destruct (readSeq_frame _ _ _ Eseq) as (Hd & Hl & He).
  assert (Hwf1 : Buffer.wf (Reader.dict r1)) by (now rewrite Hd).
  destruct (Reader.writeSeq seq r1) as [[[e2|] r2] | msg | ] eqn:Ew; [eauto | | |].
  - destruct (writeSeq_ok _ _ _ Hwf1 Ew) as (new & Hn1 & Hn2 & ->).
    cbn [Reader.set_dict Reader.dict Reader.uncompressedLimit].
    destruct (_ =? _); [destruct (Reader.atLimit _); eauto|].
    destruct (Buffer_append_facts new (Reader.dict r1) Hwf1) as (Hwf2 & _ & HAv & _).
    apply IH; cbn [Reader.set_dict Reader.dict]; try assumption.
    rewrite HAv, Hd. lia.
  - exfalso. unfold Reader.writeSeq in Ew. destruct (_ =? 0).
    + rewrite Buffer_WriteByte_room in Ew by (rewrite Hd; lia). discriminate.
    + destruct (Buffer.WriteMatch _ _ _) as [[?|] ?]; discriminate.
  - exfalso. unfold Reader.writeSeq in Ew. destruct (_ =? 0).
    + destruct (Buffer.WriteByte _ _) as [[?|] ?]; discriminate.
    + destruct (Buffer.WriteMatch _ _ _) as [[?|] ?]; discriminate.
Qed.

Lemma fillBuffer_total (r : Reader.reader) :
  Buffer.wf (Reader.dict r) -> 1 <= Reader.maxMatchLen ->
  exists e r', Reader.fillBuffer r = Done (e, r').
Proof.
  intros Hwf Hmax. unfold Reader.fillBuffer.
  destruct (Reader.err r); [eauto|]. apply fillLoop_total; try assumption. lia.
Qed.

(** What one call of [fillBuffer] does to the reader. *)
Lemma fillBuffer_facts (r : Reader.reader) (e : option error) (r' : Reader.reader) :
  Buffer.wf (Reader.dict r) ->
  Reader.fillBuffer r = Done (e, r') ->
  (exists new, Reader.dict r' = Buffer.append new (Reader.dict r)) /\
  Reader.uncompressedLimit r' = Reader.uncompressedLimit r /\
  match e with
  | Some x => Reader.err r' = Some x
  | None => Reader.err r' = None /\
            Buffer.Available (Reader.dict r') < Reader.maxMatchLen
  end.
Proof.
  intros Hwf. unfold Reader.fillBuffer. destruct (Reader.err r) as [x|] eqn:Ex.
  - intros H. inversion H; subst. split; [exists []; now rewrite append_nil|].
    split; [reflexivity | exact Ex].
  - intros H. destruct (fillLoop_facts _ _ _ _ Hwf H) as (Hg & Hl & Hlatch & _).
    split; [exact Hg|]. split; [exact Hl|].
    destruct e; [exact Hlatch|]. destruct Hlatch. split; congruence.
Qed.

End FillBuffer.

(** ** Theorems: [Read] *)

Section ReaderRead.

Context {ops : Reader.DecoderOps}.

Lemma handedOut_Read (k : nat) (b : Buffer.t) :
  Buffer.wf b ->
  Buffer.handedOut (snd (Buffer.Read k b)) = Buffer.handedOut b ++ fst (Buffer.Read k b).
Proof.
  intros Hwf. unfold Buffer.handedOut, Buffer.Read. cbn [fst snd Buffer.rd_pos Buffer.data].
  rewrite <- take_take_drop. f_equal.
  rewrite length_take, length_drop.
  destruct (Nat.le_ge_cases k (length (Buffer.data b) - Buffer.rd_pos b)) as [Hle | Hge].
  - now rewrite Nat.min_l by exact Hle.
  - rewrite Nat.min_r by exact Hge.
    rewrite !take_ge; try reflexivity; rewrite length_drop; lia.
Qed.

Lemma handedOut_append (new : list Z) (b : Buffer.t) :
  Buffer.wf b -> Buffer.handedOut (Buffer.append new b) = Buffer.handedOut b.
Proof.
  intros Hwf. unfold Buffer.handedOut, Buffer.append. cbn [Buffer.rd_pos Buffer.data].
  now rewrite take_app_le by exact Hwf.
Qed.

Lemma readLoop_facts (fuel : nat) :
  forall (k : nat) (acc : list Z) (r : Reader.reader)
         (out : list Z) (e : option error) (r' : Reader.reader),
    Buffer.wf (Reader.dict r) ->
    (length acc <= k)%nat ->
    Reader.readLoop fuel k acc r = Done (out, e, r') ->
    exists delivered new,
      out = acc ++ delivered /\
      Buffer.handedOut (Reader.dict r') = Buffer.handedOut (Reader.dict r) ++ delivered /\
      Buffer.data (Reader.dict r') = Buffer.data (Reader.dict r) ++ new /\
      Buffer.wf (Reader.dict r') /\
      (length out <= k)%nat /\
      match e with
      | Some x => Reader.err r' = Some x /\ Buffer.Len (Reader.dict r') = 0
      | None => length out = k
      end.
Proof.
  induction fuel as [|n IH]; intros k acc r out e r' Hwf Hacc H; [discriminate|].
  cbn [Reader.readLoop] in H.
  pose proof (Buffer_Read_spec (k - length acc) (Reader.dict r) Hwf) as Hrd.
  pose proof (handedOut_Read (k - length acc) (Reader.dict r) Hwf) as Hho.
  destruct (Buffer.Read (k - length acc) (Reader.dict r)) as [out1 d] eqn:Erd.
  cbn [fst snd] in Hho.
  destruct Hrd as (Hout1 & Hlen1 & Hdata & Hpos & Hbs & Hws & Hoff & Hwfd).
  assert (Hacc' : (length (acc ++ out1) <= k)%nat) by (rewrite length_app; lia).
  destruct (Nat.eqb_spec (length (acc ++ out1)) k) as [Hfull | Hmore].
  { inversion H; subst out e r'. exists out1, [].
    cbn [Reader.set_dict Reader.dict]. rewrite app_nil_r.
    repeat split; try assumption; try reflexivity. }
  set (r1 := Reader.set_dict d r) in *.
  assert (Hwf1 : Buffer.wf (Reader.dict r1)) by exact Hwfd.
  destruct (Reader.fillBuffer r1) as [[[x|] r2] | msg | ] eqn:Efill; try discriminate.
  - destruct (fillBuffer_facts _ _ _ Hwf1 Efill) as ((new1 & Hd2) & _ & Herr).
    cbn [r1 Reader.set_dict Reader.dict] in Hd2.
    destruct (Buffer_append_facts new1 d Hwfd) as (Hwf2 & _ & _ & _).
    destruct (Z.ltb_spec 0 (Buffer.Len (Reader.dict r2))) as [Hpos2 | Hzero].
    + assert (Hwf2' : Buffer.wf (Reader.dict r2)) by (now rewrite Hd2).
      destruct (IH k (acc ++ out1) r2 out e r' Hwf2' Hacc' H)
        as (del2 & new2 & Hout & Hho2 & Hdat2 & Hwf' & Hle & Hend).
      exists (out1 ++ del2), (new1 ++ new2).
      split; [now rewrite Hout, app_assoc|].
      split; [rewrite Hho2, Hd2, handedOut_append, Hho by assumption;
              now rewrite app_assoc|].
      split; [rewrite Hdat2, Hd2; unfold Buffer.append; cbn [Buffer.data];
              now rewrite Hdata, app_assoc|].
      repeat split; assumption.
    + inversion H; subst out e r'. exists out1, new1.
      split; [reflexivity|].
      split; [now rewrite Hd2, handedOut_append, Hho by assumption|].
      split; [rewrite Hd2; unfold Buffer.append; cbn [Buffer.data]; now rewrite Hdata|].
      split; [now rewrite Hd2|]. split; [exact Hacc'|].
      split; [exact Herr|]. unfold Buffer.Len in *. lia.
  - destruct (fillBuffer_facts _ _ _ Hwf1 Efill) as ((new1 & Hd2) & _ & Herr).
    cbn [r1 Reader.set_dict Reader.dict] in Hd2.
    destruct (Buffer_append_facts new1 d Hwfd) as (Hwf2 & _ & _ & _).
    assert (Hwf2' : Buffer.wf (Reader.dict r2)) by (now rewrite Hd2).
    destruct (IH k (acc ++ out1) r2 out e r' Hwf2' Hacc' H)
      as (del2 & new2 & Hout & Hho2 & Hdat2 & Hwf' & Hle & Hend).
    exists (out1 ++ del2), (new1 ++ new2).
    split; [now rewrite Hout, app_assoc|].
    split; [rewrite Hho2, Hd2, handedOut_append, Hho by assumption;
            now rewrite app_assoc|].
    split; [rewrite Hdat2, Hd2; unfold Buffer.append; cbn [Buffer.data];
            now rewrite Hdata, app_assoc|].
    repeat split; assumption.
Qed.

(** [Read] returns: each round after the first hands out at least one
    byte, so the rounds are bounded by the length of [p]. *)
Lemma readLoop_total (fuel : nat) :
  forall (k : nat) (acc : list Z) (r : Reader.reader),
    Buffer.wf (Reader.dict r) ->
    1 <= Reader.maxMatchLen <= Buffer.bufferSize (Reader.dict r) ->
    (length acc <= k)%nat ->
    (k - length acc + (if (0 <? Buffer.Len (Reader.dict r))%Z then 0 else 1) < fuel)%nat ->
    exists out e r', Reader.readLoop fuel k acc r = Done (out, e, r').
Proof.
  induction fuel as [|n IH]; intros k acc r Hwf Hmax Hacc Hfuel; [lia|].
  cbn [Reader.readLoop].
  pose proof (Buffer_Read_spec (k - length acc) (Reader.dict r) Hwf) as Hrd.
  destruct (Buffer.Read (k - length acc) (Reader.dict r)) as [out1 d] eqn:Erd.
  destruct Hrd as (Hout1 & Hlen1 & Hdata & Hpos & Hbs & Hws & Hoff & Hwfd).
  destruct (Nat.eqb_spec (length (acc ++ out1)) k) as [Hfull | Hmore]; [eauto|].
  rewrite length_app in Hmore.
  set (r1 := Reader.set_dict d r) in *.
  assert (Hwf1 : Buffer.wf (Reader.dict r1)) by exact Hwfd.
  assert (Hmax1 : 1 <= Reader.maxMatchLen) by lia.
  destruct (fillBuffer_total r1 Hwf1 Hmax1) as (e & r2 & Efill). rewrite Efill.
  destruct (fillBuffer_facts _ _ _ Hwf1 Efill) as ((new1 & Hd2) & _ & Herr).
  cbn [r1 Reader.set_dict Reader.dict] in Hd2.
  destruct (Buffer_append_facts new1 d Hwfd) as (Hwf2 & _ & _ & _).
  assert (Hwf2' : Buffer.wf (Reader.dict r2)) by (now rewrite Hd2).
  assert (Hbs2 : Buffer.bufferSize (Reader.dict r2) = Buffer.bufferSize (Reader.dict r))
    by (rewrite Hd2; unfold Buffer.append; cbn; exact Hbs).
  assert (Hstep : 0 < Buffer.Len (Reader.dict r2) ->
                  exists out e' r', Reader.readLoop n k (acc ++ out1) r2 = Done (out, e', r')).
  { intros Hpos2. apply IH; try assumption.
    - rewrite Hbs2. exact Hmax.
    - rewrite length_app. lia.
    - rewrite length_app.
      destruct (Z.ltb_spec 0 (Buffer.Len (Reader.dict r2))) as [_ | Hc]; [|lia].
      destruct (Z.ltb_spec 0 (Buffer.Len (Reader.dict r))) as [Hp | Hz];
        unfold Buffer.Len in *; lia. }
  destruct e as [x|].
  - destruct (Z.ltb_spec 0 (Buffer.Len (Reader.dict r2))) as [Hpos2 | Hzero]; [|eauto].
    now apply Hstep.
  - apply Hstep. destruct Herr as [_ Hav]. unfold Buffer.Available in Hav. lia.
Qed.

End ReaderRead.

(** C10: [Read] hands out the decoded bytes in order and without a gap:
    the bytes it returns are exactly the next bytes of the decoded stream
    after those returned before.  It returns an error only when every byte
    decoded so far has been handed out (the buffer is empty), and that
    error is the latched one; a call that ends with bytes still in the
    buffer returns no error and has filled [p].  So bytes decoded before a
    failing decode step are delivered first, and none is lost.  With a
    buffer that holds a longest match, [Read] always returns. *)
Theorem C10_Read_delivers_before_error
  {ops : Reader.DecoderOps} (k : nat) (r : Reader.reader) :
  Buffer.wf (Reader.dict r) ->
  1 <= Reader.maxMatchLen <= Buffer.bufferSize (Reader.dict r) ->
  exists (out : list Z) (e : option error) (r' : Reader.reader),
    Reader.Read k r = Done (out, e, r') /\
    (exists new, Buffer.data (Reader.dict r') = Buffer.data (Reader.dict r) ++ new) /\
    Buffer.handedOut (Reader.dict r') = Buffer.handedOut (Reader.dict r) ++ out /\
    (length out <= k)%nat /\
    (forall x, e = Some x ->
       Reader.err r' = Some x /\
       Buffer.Len (Reader.dict r') = 0 /\
       Buffer.handedOut (Reader.dict r') = Buffer.data (Reader.dict r')) /\
    (0 < Buffer.Len (Reader.dict r') -> e = None) /\
    (e = None -> length out = k).
Proof.
  intros Hwf Hmax.
  destruct (readLoop_total (S (S k)) k [] r Hwf Hmax) as (out & e & r' & HR).
  { cbn. lia. }
  { cbn [length]. destruct (0 <? _); lia. }
  exists out, e, r'. split; [exact HR|].
  destruct (readLoop_facts (S (S k)) k [] r out e r' Hwf (Nat.le_0_l k) HR)
    as (del & new & Hout & Hho & Hdat & Hwf' & Hle & Hend).
  cbn [app] in Hout. subst del.
  split; [now exists new|]. split; [exact Hho|]. split; [exact Hle|].
  split; [|split].
  - intros x ->. destruct Hend as [Herr Hlen]. repeat split; try assumption.
    unfold Buffer.handedOut. apply take_ge.
    unfold Buffer.Len, Buffer.wf in *. lia.
  - intros Hpos. destruct e as [x|]; [|reflexivity]. destruct Hend. lia.
  - intros ->. exact Hend.
Qed.

(** Two bytes are decoded, then the input ends: a read of four bytes
    returns the two bytes together with the error, and the buffer is
    empty. *)
Lemma C10_Read_witness :
  let r := @Reader.mkReader Script.decoder (Buffer.mk [] 0 4096 4096 0)
             (Reader.mkState 0 [0; 0; 0; 0] (Props.mkProperties 3 0 2))
             [0; 97; 0; 98] (-1) None in
  exists r',
    Reader.Read 4 r = Done ([97; 98], Some ErrUnexpectedEOF, r') /\
    Buffer.Len (Reader.dict r') = 0.
Proof.
  intros r.
  destruct (@C10_Read_delivers_before_error Script.decoder 4 r)
    as (out & e & r' & HR & _ & _ & _ & Herr & _).
  - unfold Buffer.wf. cbn. lia.
  - cbn. lia.
  - vm_compute in HR. inversion HR; subst out e.
    eexists. split; [vm_compute; reflexivity|].
    destruct (Herr _ eq_refl) as (_ & Hlen & _). subst r'. exact Hlen.
Defined.

(** C2 (what the code does at the failing input): a stream that declares
    two bytes and whose second operation is a match of length two at
    offset one.  After the literal the position is 1, after the match it is
    3; the test [uncompressedLimit == Pos] never holds, the decoder goes on
    until the input ends, and [Read] has handed out three bytes. *)
Theorem C2_match_overshoots_declared_size :
  let r := @Reader.mkReader Script.decoder (Buffer.mk [] 0 4096 4096 0)
             (Reader.mkState 0 [0; 0; 0; 0] (Props.mkProperties 3 0 2))
             [0; 97; 1; 0; 0; 0] 2 None in
  exists r',
    Reader.Read 10 r = Done ([97; 97; 97], Some ErrUnexpectedEOF, r') /\
    Reader.uncompressedLimit r' = 2 /\
    Buffer.Pos (Reader.dict r') = 3.
Proof.
  intros r. eexists. split; [vm_compute; reflexivity|]. split; reflexivity.
Qed.

(** ** Theorems: splitting an LZMA2 stream into runs *)

Section SplitStream.

Context {cops : Reader2.ChunkOps}.

Lemma copyN_conserves (k : Z) (w z : list Z) (e : option error) (w' z' : list Z) :
  Reader2.copyN k w z = (e, w', z') ->
  w' ++ z' = w ++ z /\
  match e with
  | Some x => x = EOF
  | None => (length z' + Z.to_nat k = length z)%nat
  end.
Proof.
  unfold Reader2.copyN.
  destruct (Nat.ltb_spec (length z) (Z.to_nat k)) as [Hlt | Hge]; intros H; inversion H; subst.
  - split; [now rewrite app_nil_r | reflexivity].
  - split; [now rewrite <- app_assoc, take_drop|].
    rewrite length_drop. lia.
Qed.

Lemma splitLoop_facts (fuel : nat) :
  forall (w z : list Z) (B n n' : Z) (ok : bool) (err : option error) (w' z' : list Z),
    n <= B ->
    Reader2.splitLoop fuel w z B n = Done (n', ok, err, w', z') ->
    w' ++ z' = w ++ z /\
    match ok, err with
    | true, None =>
        0 < n' <= B /\
        exists h k, Reader2.peekChunkHeader z' = Ok (h, k) /\
                    (Reader2.control h = Reader2.cUD \/ Reader2.control h = Reader2.cCSPD)
    | true, Some e =>
        e = EOF /\ n' <= B /\
        exists h k, Reader2.peekChunkHeader z' = Ok (h, k) /\
                    Reader2.control h = Reader2.cEOS
    | false, Some e =>
        n' = 0 /\
        (e = EOF ->
         exists m h k, Reader2.peekChunkHeader z' = Ok (h, k) /\
                       m <= B /\ B < m + Reader2.size h)
    | false, None => False
    end.
Proof.
  induction fuel as [|f IH]; intros w z B n n' ok err w' z' Hn H; [discriminate|].
  cbn [Reader2.splitLoop] in H.
  destruct (Reader2.peekChunkHeader z) as [[h k] | e] eqn:Epeek.
  2:{ inversion H; subst. split; [reflexivity|]. split; [reflexivity|].
      destruct (error_eqb e EOF) eqn:Ee; [discriminate|].
      intros ->. cbn in Ee. discriminate. }
  destruct (((Reader2.control h =? Reader2.cUD) || (Reader2.control h =? Reader2.cCSPD))
            && (0 <? n)) eqn:Ereset.
  { inversion H; subst. split; [reflexivity|].
    apply andb_prop in Ereset. destruct Ereset as [Hc Hpos].
    apply Z.ltb_lt in Hpos. split; [lia|]. exists h, k. split; [exact Epeek|].
    apply orb_prop in Hc. destruct Hc as [Hc | Hc]; apply Z.eqb_eq in Hc; auto. }
  destruct (Z.eqb_spec (Reader2.control h) Reader2.cEOS) as [Heos | Hneos].
  { inversion H; subst. split; [reflexivity|]. split; [reflexivity|].
    split; [exact Hn|]. exists h, k. now split. }
  destruct (Z.ltb_spec B (n + Reader2.size h)) as [Hover | Hfits].
  { inversion H; subst. split; [reflexivity|]. split; [reflexivity|].
    intros _. exists n, h, k. repeat split; assumption. }
  destruct (Reader2.copyN _ w z) as [[[e|] w1] z1] eqn:Ecopy.
  - apply copyN_conserves in Ecopy. destruct Ecopy as [Hcons ->].
    inversion H; subst. split; [exact Hcons|]. split; [reflexivity|].
    cbn. discriminate.
  - apply copyN_conserves in Ecopy. destruct Ecopy as [Hcons _].
    destruct (IH _ _ _ _ _ _ _ _ _ Hfits H) as [Hcons' Hcases].
    split; [congruence | exact Hcases].
Qed.

(** With a parser whose headers are at least one byte long and whose sizes
    are not negative, [splitStream] returns. *)
Lemma splitLoop_total (fuel : nat) :
  (forall z h k, Reader2.peekChunkHeader z = Ok (h, k) ->
                 1 <= k /\ 0 <= Reader2.size h /\ 0 <= Reader2.compressedSize h) ->
  forall (w z : list Z) (B n : Z),
    (length z < fuel)%nat ->
    exists res, Reader2.splitLoop fuel w z B n = Done res.
Proof.
  intros Hpeek. induction fuel as [|f IH]; intros w z B n Hfuel; [lia|].
  cbn [Reader2.splitLoop].
  destruct (Reader2.peekChunkHeader z) as [[h k] | e] eqn:Epeek; [|eauto].
  destruct (Hpeek _ _ _ Epeek) as (Hk & Hs & Hc).
  destruct (_ && _); [eauto|].
  destruct (_ =? Reader2.cEOS); [eauto|].
  destruct (_ <? _); [eauto|].
  destruct (Reader2.copyN _ w z) as [[[e|] w1] z1] eqn:Ecopy; [eauto|].
  apply copyN_conserves in Ecopy. destruct Ecopy as [_ Hlen].
  apply IH. destruct (Z.land _ _ =? 0); lia.
Qed.

End SplitStream.

Section SplitRuns.

Context {cops : Reader2.ChunkOps}.

Lemma runSize_snoc (hs : list Reader2.chunkHeader) (h : Reader2.chunkHeader) :
  runSize (hs ++ [h]) = runSize hs + Reader2.size h.
Proof.
  unfold runSize. induction hs as [|a hs IH]; cbn [app foldr]; [lia|].
  rewrite IH. lia.
Qed.

Lemma takeChunks_snoc (c : nat) :
  forall (z0 z : list Z) (hs : list Reader2.chunkHeader)
         (h : Reader2.chunkHeader) (k : Z),
    takeChunks c z0 = Some (hs, z) ->
    Reader2.peekChunkHeader z = Ok (h, k) ->
    (Z.to_nat (chunkBytes h k) <= length z)%nat ->
    takeChunks (S c) z0 = Some (hs ++ [h], drop (Z.to_nat (chunkBytes h k)) z).
Proof.
  induction c as [|c IH]; intros z0 z hs h k Hc Hpeek Hfit.
  - cbn [takeChunks] in Hc. inversion Hc; subst. cbn [takeChunks].
    rewrite Hpeek. destruct (Nat.ltb_spec (length z) (Z.to_nat (chunkBytes h k)));
      [lia | reflexivity].
  - change (takeChunks (S c) z0) with
      (match Reader2.peekChunkHeader z0 with
       | Err _ => None
       | Ok (h0, k0) =>
           if (length z0 <? Z.to_nat (chunkBytes h0 k0))%nat then None
           else match takeChunks c (drop (Z.to_nat (chunkBytes h0 k0)) z0) with
                | Some (hs0, z') => Some (h0 :: hs0, z')
                | None => None
                end
       end) in Hc.
    change (takeChunks (S (S c)) z0) with
      (match Reader2.peekChunkHeader z0 with
       | Err _ => None
       | Ok (h0, k0) =>
           if (length z0 <? Z.to_nat (chunkBytes h0 k0))%nat then None
           else match takeChunks (S c) (drop (Z.to_nat (chunkBytes h0 k0)) z0) with
                | Some (hs0, z') => Some (h0 :: hs0, z')
                | None => None
                end
       end).
    destruct (Reader2.peekChunkHeader z0) as [[h0 k0] | e0]; [|discriminate].
    destruct (length z0 <? Z.to_nat (chunkBytes h0 k0))%nat; [discriminate|].
    destruct (takeChunks c (drop (Z.to_nat (chunkBytes h0 k0)) z0))
      as [[hs0 z1]|] eqn:Erec; [|discriminate].
    inversion Hc; subst hs z1.
    rewrite (IH _ _ _ _ _ Erec Hpeek Hfit). reflexivity.
Qed.

(** No chunk of the run [hs] is one at which [splitStream] with the bound
    [B] would have stopped: none is the end of the stream, none begins
    with a reset once the chunks before it hold data, none brings the
    size above [B]. *)
Lemma inside_snoc (B : Z) (hs : list Reader2.chunkHeader) (h : Reader2.chunkHeader) :
  (forall i x, hs !! i = Some x ->
     Reader2.control x <> Reader2.cEOS /\
     (isReset x -> runSize (take i hs) <= 0) /\
     runSize (take i hs) + Reader2.size x <= B) ->
  Reader2.control h <> Reader2.cEOS ->
  (isReset h -> runSize hs <= 0) ->
  runSize hs + Reader2.size h <= B ->
  forall i x, (hs ++ [h]) !! i = Some x ->
    Reader2.control x <> Reader2.cEOS /\
    (isReset x -> runSize (take i (hs ++ [h])) <= 0) /\
    runSize (take i (hs ++ [h])) + Reader2.size x <= B.
Proof.
  intros Hin Heos Hres Hfit i x Hi.
  destruct (Nat.lt_ge_cases i (length hs)) as [Hlt | Hge].
  - rewrite lookup_app_l in Hi by exact Hlt.
    rewrite take_app_le by lia. exact (Hin i x Hi).
  - rewrite lookup_app_r in Hi by exact Hge.
    destruct (i - length hs)%nat as [|j] eqn:Ej; [|destruct j; discriminate].
    cbn in Hi. inversion Hi; subst x.
    assert (i = length hs) by lia. subst i.
    rewrite take_app_length. now split.
Qed.

Lemma splitLoop_run (fuel : nat) :
  forall (z0 : list Z) (hs0 : list Reader2.chunkHeader) (w z : list Z)
         (B n n' : Z) (ok : bool) (err : option error) (w' z' : list Z),
    takeChunks (length hs0) z0 = Some (hs0, z) ->
    w ++ z = z0 ->
    n = runSize hs0 ->
    n <= B ->
    (forall i x, hs0 !! i = Some x ->
       Reader2.control x <> Reader2.cEOS /\
       (isReset x -> runSize (take i hs0) <= 0) /\
       runSize (take i hs0) + Reader2.size x <= B) ->
    Reader2.splitLoop fuel w z B n = Done (n', ok, err, w', z') ->
    exists (hs : list Reader2.chunkHeader) (rest : list Z),
      takeChunks (length hs) z0 = Some (hs, rest) /\
      w' ++ z' = z0 /\
      runSize hs <= B /\
      (forall i x, hs !! i = Some x ->
         Reader2.control x <> Reader2.cEOS /\
         (isReset x -> runSize (take i hs) <= 0) /\
         runSize (take i hs) + Reader2.size x <= B) /\
      match ok, err with
      | true, None =>
          rest = z' /\ n' = runSize hs /\ 0 < n' /\
          exists h k, Reader2.peekChunkHeader z' = Ok (h, k) /\ isReset h
      | true, Some e =>
          e = EOF /\ rest = z' /\ n' = runSize hs /\
          exists h k, Reader2.peekChunkHeader z' = Ok (h, k) /\
                      Reader2.control h = Reader2.cEOS
      | false, Some e =>
          n' = 0 /\
          (e = EOF ->
           rest = z' /\
           exists h k, Reader2.peekChunkHeader z' = Ok (h, k) /\
                       Reader2.control h <> Reader2.cEOS /\
                       (isReset h -> runSize hs <= 0) /\
                       B < runSize hs + Reader2.size h) /\
          (e <> EOF ->
           (rest = z' /\ exists e0, Reader2.peekChunkHeader rest = Err e0) \/
           (z' = [] /\ e = ErrUnexpectedEOF /\
            exists h k, Reader2.peekChunkHeader rest = Ok (h, k) /\
                        (length rest < Z.to_nat (chunkBytes h k))%nat))
      | false, None => False
      end.
Proof.
  induction fuel as [|f IH];
    intros z0 hs0 w z B n n' ok err w' z' Hrun Hcat Hn HnB Hin H; [discriminate|].
  cbn [Reader2.splitLoop] in H.
  destruct (Reader2.peekChunkHeader z) as [[h k] | e] eqn:Epeek.
  2:{ inversion H; subst n' ok err w' z'. exists hs0, z.
      split; [exact Hrun|]. split; [exact Hcat|]. split; [lia|]. split; [exact Hin|].
      split; [reflexivity|]. split.
      - destruct (error_eqb e EOF) eqn:Ee; [discriminate|].
        intros ->. cbn in Ee. discriminate.
      - intros _. left. split; [reflexivity|]. now exists e. }
  destruct (((Reader2.control h =? Reader2.cUD) || (Reader2.control h =? Reader2.cCSPD))
            && (0 <? n)) eqn:Ereset.
  { inversion H; subst n' ok err w' z'. exists hs0, z.
    split; [exact Hrun|]. split; [exact Hcat|]. split; [lia|]. split; [exact Hin|].
    apply andb_prop in Ereset. destruct Ereset as [Hc Hpos].
    apply Z.ltb_lt in Hpos. split; [reflexivity|]. split; [exact Hn|].
    split; [exact Hpos|]. exists h, k. split; [exact Epeek|].
    unfold isReset. apply orb_prop in Hc.
    destruct Hc as [Hc | Hc]; apply Z.eqb_eq in Hc; auto. }
  assert (Hres : isReset h -> runSize hs0 <= 0).
  { intros [Hc | Hc]; rewrite Hc in Ereset;
      rewrite ?Z.eqb_refl, ?orb_true_r in Ereset; cbn [orb andb] in Ereset;
      apply Z.ltb_ge in Ereset; lia. }
  destruct (Z.eqb_spec (Reader2.control h) Reader2.cEOS) as [Heos | Hneos].
  { inversion H; subst n' ok err w' z'. exists hs0, z.
    split; [exact Hrun|]. split; [exact Hcat|]. split; [lia|]. split; [exact Hin|].
    split; [reflexivity|]. split; [reflexivity|]. split; [exact Hn|].
    exists h, k. now split. }
  destruct (Z.ltb_spec B (n + Reader2.size h)) as [Hover | Hfits].
  { inversion H; subst n' ok err w' z'. exists hs0, z.
    split; [exact Hrun|]. split; [exact Hcat|]. split; [lia|]. split; [exact Hin|].
    split; [reflexivity|]. split; [|intros Hc; contradiction].
    intros _. split; [reflexivity|]. exists h, k.
    split; [exact Epeek|]. split; [exact Hneos|]. split; [exact Hres|]. lia. }
  change (if Z.land (Reader2.control h) (Z.shiftl 1 7) =? 0
          then k + Reader2.size h else k + Reader2.compressedSize h)
    with (chunkBytes h k) in H.
  unfold Reader2.copyN in H.
  destruct (Nat.ltb_spec (length z) (Z.to_nat (chunkBytes h k))) as [Hcut | Hfit].
  - cbn [error_eqb] in H. inversion H; subst n' ok err w' z'. exists hs0, z.
    split; [exact Hrun|]. split; [now rewrite app_nil_r|]. split; [lia|].
    split; [exact Hin|].
    split; [reflexivity|]. split; [discriminate|].
    intros _. right. split; [reflexivity|]. split; [reflexivity|].
    exists h, k. now split.
  - apply (IH z0 (hs0 ++ [h])) in H.
    + exact H.
    + rewrite length_app. cbn [length]. rewrite Nat.add_1_r.
      exact (takeChunks_snoc _ _ _ _ _ _ Hrun Epeek Hfit).
    + rewrite <- app_assoc, take_drop. exact Hcat.
    + rewrite runSize_snoc. lia.
    + lia.
    + apply inside_snoc; [exact Hin | exact Hneos | exact Hres | lia].
Qed.

End SplitRuns.

(** C6 (as amended): [splitStream] reads the chunks of a run one after the
    other, [hs] being their headers and [buf] their bytes.  No chunk of
    the run is one at which it would have stopped: none is the end of the
    stream, none begins with a dictionary reset once the chunks before it
    hold data, none brings the size above [B].  The run ends (a) at the
    first chunk that begins with a dictionary reset once the run holds
    data, or at the end-of-stream chunk: the task is parallel, and its
    output size [n] is the sum of the sizes of the chunks of the run, at
    most [B]; or (b) at the first chunk that would bring that sum above
    [B] before such a boundary is met: then [mtrGenerate] hands the whole
    rest of the stream, from the start of the run, to a chunk reader in
    the foreground.  A header that cannot be read or a chunk that is cut
    short ends it with an error.  In every case the bytes taken and the
    bytes left over are the input, in order. *)
Theorem C6_splitStream_runs
  {cops : Reader2.ChunkOps}
  (z : list Z) (B n : Z) (ok : bool) (err : option error) (buf z' : list Z) :
  0 <= B ->
  Reader2.splitStream [] z B = Done (n, ok, err, buf, z') ->
  exists (hs : list Reader2.chunkHeader) (rest : list Z),
    takeChunks (length hs) z = Some (hs, rest) /\
    buf ++ z' = z /\
    runSize hs <= B /\
    (forall i x, hs !! i = Some x ->
       Reader2.control x <> Reader2.cEOS /\
       (isReset x -> runSize (take i hs) <= 0) /\
       runSize (take i hs) + Reader2.size x <= B) /\
    match ok, err with
    | true, None =>
        rest = z' /\ n = runSize hs /\ 0 < n /\
        exists h k, Reader2.peekChunkHeader z' = Ok (h, k) /\ isReset h
    | true, Some e =>
        e = EOF /\ rest = z' /\ n = runSize hs /\
        exists h k, Reader2.peekChunkHeader z' = Ok (h, k) /\
                    Reader2.control h = Reader2.cEOS
    | false, Some e =>
        n = 0 /\
        (e = EOF ->
         rest = z' /\
         exists h k, Reader2.peekChunkHeader z' = Ok (h, k) /\
                     Reader2.control h <> Reader2.cEOS /\
                     (isReset h -> runSize hs <= 0) /\
                     B < runSize hs + Reader2.size h) /\
        (e <> EOF ->
         (rest = z' /\ exists e0, Reader2.peekChunkHeader rest = Err e0) \/
         (z' = [] /\ e = ErrUnexpectedEOF /\
          exists h k, Reader2.peekChunkHeader rest = Ok (h, k) /\
                      (length rest < Z.to_nat (chunkBytes h k))%nat))
    | false, None => False
    end /\
    (forall fuel cfg ws tsks ws',
       Reader2.WorkerBufferSize cfg = B ->
       Reader2.mtrLoop (S fuel) z cfg ws = Done (tsks, ws') ->
       head tsks = Some (match ok, err with
                         | true, _ => Reader2.TaskParallel buf n
                         | false, Some EOF => Reader2.TaskSerial z
                         | false, Some e => Reader2.TaskError e
                         | false, None => Reader2.TaskSerial z
                         end)).
Proof.
  intros HB H.
  assert (Hnone : forall i x, (@nil Reader2.chunkHeader) !! i = Some x ->
            Reader2.control x <> Reader2.cEOS /\
            (isReset x -> runSize (take i []) <= 0) /\
            runSize (take i []) + Reader2.size x <= B)
    by (intros i x Hi; destruct i; discriminate Hi).
  destruct (splitLoop_run _ z [] [] z B 0 n ok err buf z' eq_refl eq_refl eq_refl
              HB Hnone H)
    as (hs & rest & Hrun & Hcat & Hsize & Hin & Hcases).
  exists hs, rest.
  split; [exact Hrun|]. split; [exact Hcat|]. split; [exact Hsize|].
  split; [exact Hin|]. split; [exact Hcases|].
  intros fuel cfg ws tsks ws' HW Hm. cbn [Reader2.mtrLoop] in Hm.
  rewrite HW, H in Hm.
  destruct ok, err as [e|]; try contradiction.
  - destruct Hcases as (-> & _). inversion Hm. reflexivity.
  - destruct (Reader2.mtrLoop fuel z' cfg _) as [[t w2] | |]; inversion Hm.
    reflexivity.
  - destruct e; inversion Hm; subst; rewrite ?Hcat; reflexivity.
Qed.

(** Two uncompressed chunks of one byte, each with a dictionary reset,
    and the end of the stream; worker buffers of 100 bytes.  The first
    run is the first chunk, and its size is the size of that chunk. *)
Lemma C6_splitStream_runs_witness :
  Reader2.splitStream (cops := Script.chunks) [] [1; 0; 0; 65; 1; 0; 0; 66; 0] 100
    = Done (1, true, None, [1; 0; 0; 65], [1; 0; 0; 66; 0]) /\
  Reader2.mtrGenerate (cops := Script.chunks) [1; 0; 0; 65; 1; 0; 0; 66; 0]
                      (Reader2.mkConfig 4096 2 100)
    = Done ([Reader2.TaskParallel [1; 0; 0; 65] 1;
             Reader2.TaskParallel [1; 0; 0; 66] 1], 2) /\
  exists hs,
    takeChunks (cops := Script.chunks) (length hs) [1; 0; 0; 65; 1; 0; 0; 66; 0]
      = Some (hs, [1; 0; 0; 66; 0]) /\
    runSize hs = 1.
Proof.
  assert (H : Reader2.splitStream (cops := Script.chunks) []
                [1; 0; 0; 65; 1; 0; 0; 66; 0] 100
              = Done (1, true, None, [1; 0; 0; 65], [1; 0; 0; 66; 0]))
    by reflexivity.
  split; [exact H|]. split; [reflexivity|].
  destruct (@C6_splitStream_runs Script.chunks _ 100 _ _ _ _ _ ltac:(lia) H)
    as (hs & rest & Hrun & _ & _ & _ & (Hrest & Hn & _) & _).
  exists hs. subst rest. split; [exact Hrun | symmetry; exact Hn].
Defined.

(** C6 (as written) fails: the run above ends, as a parallel task, at a
    total size of 1, far below the worker buffer size of 100. *)
Lemma C6_counterexample_run_below_B :
  ~ (forall (cops : Reader2.ChunkOps) (z : list Z) (B n : Z)
            (buf z' : list Z),
       0 <= B ->
       Reader2.splitStream [] z B = Done (n, true, None, buf, z') ->
       B <= n).
Proof.
  intros H.
  specialize (H Script.chunks [1; 0; 0; 65; 1; 0; 0; 66; 0] 100 1
                [1; 0; 0; 65] [1; 0; 0; 66; 0] ltac:(lia) eq_refl).
  lia.
Qed.

(** ** Theorems: latched errors *)

Lemma mtw_writeLoop_latches (fuel : nat) :
  forall (p : list Z) (n : Z) (w : MtWriter.mtWriter) (evs : list event)
         (n' : Z) (e : error) (w' : MtWriter.mtWriter) (evs' : list event),
    MtWriter.writeLoop fuel p n w evs = Done (n', Some e, w', evs') ->
    MtWriter.err w' = Some e /\ MtWriter.cancelled w' = true.
Proof.
  induction fuel as [|f IH]; intros p n w evs n' e w' evs' H; [discriminate|].
  cbn [MtWriter.writeLoop] in H. destruct p as [|b p]; [discriminate|].
  destruct (_ <=? _); [discriminate|].
  destruct (_ <? 0); [discriminate|].
  destruct (nextEvent evs) as [[e1|] evs1].
  { inversion H; subst. now split. }
  destruct (nextEvent evs1) as [[e2|] evs2].
  { inversion H; subst. now split. }
  eapply IH. exact H.
Qed.

Lemma mtw_Flush_latches (w : MtWriter.mtWriter) (evs : list event)
      (e : error) (w' : MtWriter.mtWriter) (evs' : list event) :
  MtWriter.Flush w evs = (Some e, w', evs') -> MtWriter.err w' = Some e.
Proof.
  unfold MtWriter.Flush. destruct (MtWriter.err w) as [e0|] eqn:E0.
  { intros H. inversion H; subst. exact E0. }
  destruct (nextEvent evs) as [[e1|] evs1]; [intros H; now inversion H|].
  destruct (0 <? length _)%nat.
  - destruct (nextEvent evs1) as [[e2|] evs2]; [intros H; now inversion H|].
    destruct (nextEvent evs2) as [[e3|] evs3]; [intros H; now inversion H|].
    destruct (nextEvent evs3) as [[e4|] evs4]; intros H; now inversion H.
  - destruct (nextEvent evs1) as [[e3|] evs3]; [intros H; now inversion H|].
    destruct (nextEvent evs3) as [[e4|] evs4]; intros H; now inversion H.
Qed.

Lemma mtr_readLoop_latches (fuel : nat) :
  forall (k : nat) (acc : list Z) (m : MtReader.mtReader)
         (out : list Z) (e : error) (m' : MtReader.mtReader),
    MtReader.readLoop fuel k acc m = Done (out, Some e, m') ->
    MtReader.err m' = Some e.
Proof.
  induction fuel as [|f IH]; intros k acc m out e m' H; [discriminate|].
  cbn [MtReader.readLoop] in H. destruct (negb _); [discriminate|].
  destruct (MtReader.r m) as [t|].
  - destruct (MtReader.taskRead _ t) as [[o [e1|]] t'].
    + destruct e1; try (inversion H; subst; reflexivity). eapply IH; exact H.
    + eapply IH; exact H.
  - destruct (MtReader.outCh m) as [|t rest].
    + destruct (_ =? 0)%nat; inversion H; subst. reflexivity.
    + eapply IH; exact H.
Qed.

Lemma lzma2_readLoop_latches {ch : Lzma2.ChunkedOps} (fuel : nat) :
  forall (k : nat) (acc : list Z) (r : Lzma2.Reader)
         (out : list Z) (e : error) (r' : Lzma2.Reader),
    Lzma2.readLoop fuel k acc r = Done (out, Some e, r') ->
    e <> NewError "lzma2: Reader doesn't get data" ->
    Lzma2.err r' = Some e.
Proof.
  induction fuel as [|f IH]; intros k acc r out e r' H Hne; [discriminate|].
  cbn [Lzma2.readLoop] in H. destruct (negb _); [discriminate|].
  destruct (Lzma2.chunkRead _ _) as [[o e1] i1].
  destruct (match e1 with Some EOF => Lzma2.startChunk i1 | _ => (e1, i1) end)
    as [[e2|] i2].
  - inversion H; subst. reflexivity.
  - destruct (_ =? 0)%nat.
    + inversion H; subst. contradiction.
    + eapply IH; eassumption.
Qed.

(** C9 (as amended): the parallel writer (Write, Flush, Close), the
    parallel reader's Read and the chunk sequence reader's Read return the
    latched error at once and leave everything as it was; an error that
    Write, Flush or Close of the writer or Read of the parallel reader
    returns is latched, and so is an error that the chunk sequence reader
    gets from its chunk reader or from starting the next chunk.  Close of
    the parallel reader is the exception by design: it does not return a
    latched error but replaces it by errClosed and returns nil. *)
Theorem C9_latched_errors {ch : Lzma2.ChunkedOps} :
  (* once latched: the same error, nothing changes *)
  (forall (w : MtWriter.mtWriter) (e : error) (p : list Z) (evs : list event),
     MtWriter.err w = Some e ->
     MtWriter.Write p w evs = Done (0, Some e, w, evs) /\
     MtWriter.Flush w evs = (Some e, w, evs) /\
     MtWriter.Close w evs = (Some e, w, evs)) /\
  (forall (m : MtReader.mtReader) (e : error) (k : nat),
     MtReader.err m = Some e -> MtReader.Read k m = Done ([], Some e, m)) /\
  (forall (r : Lzma2.Reader) (e : error) (k : nat),
     Lzma2.err r = Some e -> Lzma2.Read k r = Done ([], Some e, r)) /\
  (* a returned error is latched *)
  (forall (w w' : MtWriter.mtWriter) (e : error) (p : list Z) (n : Z)
          (evs evs' : list event),
     (MtWriter.Write p w evs = Done (n, Some e, w', evs') \/
      MtWriter.Flush w evs = (Some e, w', evs') \/
      MtWriter.Close w evs = (Some e, w', evs')) ->
     MtWriter.err w' = Some e) /\
  (forall (m m' : MtReader.mtReader) (e : error) (k : nat) (out : list Z),
     MtReader.Read k m = Done (out, Some e, m') -> MtReader.err m' = Some e) /\
  (forall (r r' : Lzma2.Reader) (e : error) (k : nat) (out : list Z),
     Lzma2.Read k r = Done (out, Some e, r') ->
     e <> NewError "lzma2: Reader doesn't get data" ->
     Lzma2.err r' = Some e) /\
  (* Close of the parallel reader *)
  (forall (m : MtReader.mtReader),
     MtReader.err m <> Some errClosed ->
     fst (MtReader.Close m) = None /\
     MtReader.err (snd (MtReader.Close m)) = Some errClosed /\
     MtReader.cancelled (snd (MtReader.Close m)) = true).
Proof.
  split; [|split; [|split; [|split; [|split; [|split]]]]].
  - intros w e p evs He. unfold MtWriter.Write, MtWriter.Flush, MtWriter.Close.
    rewrite He. repeat split.
  - intros m e k He. unfold MtReader.Read. now rewrite He.
  - intros r e k He. unfold Lzma2.Read. now rewrite He.
  - intros w w' e p n evs evs' [H | [H | H]].
    + unfold MtWriter.Write in H. destruct (MtWriter.err w) as [e0|] eqn:E0.
      { inversion H; subst. exact E0. }
      destruct (nextEvent evs) as [[e1|] evs1]; [now inversion H|].
      now apply mtw_writeLoop_latches in H.
    + now apply mtw_Flush_latches in H.
    + unfold MtWriter.Close in H. destruct (MtWriter.err w) as [e0|] eqn:E0.
      { inversion H; subst. exact E0. }
      destruct (MtWriter.Flush w evs) as [[[e1|] w1] evs1].
      { now inversion H. }
      destruct (nextEvent evs1) as [[e2|] evs2]; now inversion H.
  - intros m m' e k out H. unfold MtReader.Read in H.
    destruct (MtReader.err m) as [e0|] eqn:E0.
    { inversion H; subst. exact E0. }
    now apply mtr_readLoop_latches in H.
  - intros r r' e k out H Hne. unfold Lzma2.Read in H.
    destruct (Lzma2.err r) as [e0|] eqn:E0.
    { inversion H; subst. exact E0. }
    now apply lzma2_readLoop_latches in H.
  - intros m Hne. unfold MtReader.Close.
    destruct (MtReader.err m) as [[]|]; try contradiction; repeat split.
Qed.

(** A worker's error reader fails the first Read; the second Read gives the
    same error and changes nothing. *)
Lemma C9_latched_errors_witness :
  let m := MtReader.mk None None
             [MtReader.mkTaskReader [] ErrUnexpectedEOF] false in
  exists m',
    MtReader.Read 4 m = Done ([], Some ErrUnexpectedEOF, m') /\
    MtReader.err m' = Some ErrUnexpectedEOF /\
    MtReader.Read 4 m' = Done ([], Some ErrUnexpectedEOF, m').
Proof.
  intros m.
  destruct (@C9_latched_errors Script.chunked) as (_ & Hsame & _ & _ & Hlatch & _).
  eexists. split; [vm_compute; reflexivity|].
  assert (E : MtReader.err (MtReader.mk (Some ErrUnexpectedEOF)
                 (Some (MtReader.mkTaskReader [] ErrUnexpectedEOF)) [] false)
              = Some ErrUnexpectedEOF).
  { apply (Hlatch m _ ErrUnexpectedEOF 4%nat []). vm_compute. reflexivity. }
  split; [exact E|]. apply Hsame. exact E.
Defined.

(** C9 (as written) fails for Close of the parallel reader: after a Read
    has returned and latched ErrUnexpectedEOF, Close returns nil, and the
    Read after it returns errClosed. *)
Lemma C9_counterexample_mtReader_Close :
  ~ (forall (k : nat) (m m' : MtReader.mtReader) (out : list Z) (e : error),
       MtReader.Read k m = Done (out, Some e, m') ->
       fst (MtReader.Close m') = Some e /\
       MtReader.Read k (snd (MtReader.Close m')) = Done ([], Some e, snd (MtReader.Close m'))).
Proof.
  intros H.
  specialize (H 4%nat
                (MtReader.mk None None [MtReader.mkTaskReader [] ErrUnexpectedEOF] false)
                _ _ _ eq_refl).
  destruct H as [H _]. cbn in H. discriminate H.
Qed.

(** ** Further properties: the properties byte and the LZMA1 header *)

Lemma Props_Verify_ok (p : Props.Properties) :
  Props.Verify p = None <->
  0 <= Props.LC p <= 8 /\ 0 <= Props.LP p <= 4 /\ 0 <= Props.PB p <= 4.
Proof.
  unfold Props.Verify.
  destruct (Z.leb_spec 0 (Props.LC p)); destruct (Z.leb_spec (Props.LC p) 8);
    destruct (Z.leb_spec 0 (Props.LP p)); destruct (Z.leb_spec (Props.LP p) 4);
    destruct (Z.leb_spec 0 (Props.PB p)); destruct (Z.leb_spec (Props.PB p) 4);
    cbn [andb negb]; split; intros G; try discriminate; try lia; reflexivity.
Qed.

Lemma fromByte_byte (p : Props.Properties) :
  Props.Verify p = None ->
  0 <= Props.byte p <= 224 /\ Props.fromByte (Props.byte p) = (p, None).
Proof.
  intros Hv. apply Props_Verify_ok in Hv. destruct Hv as (Hlc & Hlp & Hpb).
  destruct p as [lc lp pb]. cbn [Props.LC Props.LP Props.PB] in *.
  assert (Hb : Props.byte (Props.mkProperties lc lp pb) = (pb * 5 + lp) * 9 + lc).
  { unfold Props.byte. cbn [Props.LC Props.LP Props.PB]. apply Z.mod_small. lia. }
  split; [rewrite Hb; lia|].
  rewrite Hb. unfold Props.fromByte.
  assert (E1 : ((pb * 5 + lp) * 9 + lc) mod 9 = lc).
  { rewrite Z.add_comm, Z.mod_add by lia. apply Z.mod_small. lia. }
  assert (E2 : ((pb * 5 + lp) * 9 + lc) / 9 = pb * 5 + lp).
  { rewrite Z.add_comm, Z.div_add by lia. rewrite Z.div_small by lia. lia. }
  assert (E3 : (pb * 5 + lp) mod 5 = lp).
  { rewrite Z.add_comm, Z.mod_add by lia. apply Z.mod_small. lia. }
  assert (E4 : (pb * 5 + lp) / 5 = pb).
  { rewrite Z.add_comm, Z.div_add by lia. rewrite Z.div_small by lia. lia. }
  cbv zeta. rewrite E1, E2, E3, E4. cbn [Props.PB].
  destruct (Z.ltb_spec 4 pb); [lia | reflexivity].
Qed.

(** X1: the properties byte round trip.  For properties that [Verify]
    accepts, [byte] yields a byte of at most 224 and [fromByte] reads the
    same properties back without error; and whatever [fromByte] accepts,
    [Verify] accepts too. *)
Theorem props_byte_fromByte_roundtrip (p : Props.Properties) :
  Props.Verify p = None ->
  0 <= Props.byte p <= 224 /\
  Props.fromByte (Props.byte p) = (p, None) /\
  (forall b, is_byte b -> snd (Props.fromByte b) = None ->
             Props.Verify (fst (Props.fromByte b)) = None).
Proof.
  intros Hv. destruct (fromByte_byte p Hv) as [Hrange Hback].
  split; [exact Hrange|]. split; [exact Hback|].
  intros b Hbyte Hok.
  assert (Hle : b <= 224).
  { destruct (Z.le_gt_cases b 224) as [L | G]; [exact L|].
    exfalso. apply (proj2 (fromByte_error_iff b Hbyte)); [lia | exact Hok]. }
  pose proof (fromByte_fields b Hbyte) as (_ & H1 & H2 & H3).
  apply Props_Verify_ok. repeat split; try lia.
  rewrite fromByte_fst. cbn [Props.PB]. unfold is_byte in Hbyte.
  rewrite Z.div_div by lia. change (9 * 5) with 45.
  pose proof (Z.div_mod b 45 ltac:(lia)).
  pose proof (Z.mod_pos_bound b 45 ltac:(lia)). lia.
Qed.

Lemma props_byte_fromByte_roundtrip_witness :
  Props.fromByte (Props.byte (Props.mkProperties 3 0 2))
    = (Props.mkProperties 3 0 2, None) /\
  Props.byte (Props.mkProperties 3 0 2) = 93.
Proof.
  destruct (props_byte_fromByte_roundtrip (Props.mkProperties 3 0 2) eq_refl)
    as (_ & H & _).
  split; [exact H | reflexivity].
Defined.

Lemma getLE_putLE (n : nat) :
  forall x, 0 <= x < 256 ^ Z.of_nat n -> Header.getLE n (Header.putLE n x) = x.
Proof.
  induction n as [|n IH]; intros x Hx.
  - cbn in *. lia.
  - cbn [Header.putLE Header.getLE].
    rewrite Nat2Z.inj_succ, Z.pow_succ_r in Hx by lia.
    rewrite IH.
    + pose proof (Z.div_mod x 256 ltac:(lia)). lia.
    + split; [apply Z.div_pos; lia | apply Z.div_lt_upper_bound; lia].
Qed.

Lemma putLE_length (n : nat) (x : Z) : length (Header.putLE n x) = n.
Proof. revert x. induction n as [|n IH]; intros x; cbn; [reflexivity | now rewrite IH]. Qed.

Lemma getLE_app (n : nat) :
  forall bs rest, length bs = n -> Header.getLE n (bs ++ rest) = Header.getLE n bs.
Proof.
  induction n as [|n IH]; intros bs rest Hl; [reflexivity|].
  destruct bs as [|b bs]; [discriminate|]. cbn [app Header.getLE].
  rewrite IH; [reflexivity|]. cbn in Hl. lia.
Qed.

Lemma unmarshal_header_bytes (b : Z) (d u : list Z) (h0 : Header.params) :
  length d = 4%nat -> length u = 8%nat ->
  Header.UnmarshalBinary (b :: d ++ u) h0 =
  match Props.fromByte b with
  | (pr, Some e) =>
      (Some e, Header.mkParams pr (Header.dictSize h0) (Header.uncompressedSize h0))
  | (pr, None) => (None, Header.mkParams pr (Header.getLE 4 d) (Header.getLE 8 u))
  end.
Proof.
  intros Hd Hu.
  destruct d as [|d0 [|d1 [|d2 [|d3 [|? ?]]]]]; try discriminate.
  destruct u as [|u0 [|u1 [|u2 [|u3 [|u4 [|u5 [|u6 [|u7 [|? ?]]]]]]]]]; try discriminate.
  unfold Header.UnmarshalBinary. cbn -[Props.fromByte Z.mul Z.add].
  destruct (Props.fromByte b) as [pr [e|]]; reflexivity.
Qed.

(** X2: the header round trip.  A header is 13 bytes longer than what it
    is appended to; for properties that [Verify] accepts, a dictionary
    size that fits 32 bits and a size that fits 64 bits, [UnmarshalBinary]
    reads back from the bytes of [AppendBinary] exactly the header
    written, whatever the receiver held; input of any other length than 13
    is refused and leaves the receiver as it was. *)
Theorem header_append_unmarshal_roundtrip (h h0 : Header.params) :
  Props.Verify (Header.props h) = None ->
  0 <= Header.dictSize h < 2 ^ 32 ->
  0 <= Header.uncompressedSize h < 2 ^ 64 ->
  (forall p, length (Header.AppendBinary p h) = (length p + 13)%nat) /\
  Header.UnmarshalBinary (Header.AppendBinary [] h) h0 = (None, h) /\
  (forall x, length x <> 13%nat ->
     Header.UnmarshalBinary x h0 =
     (Some (NewError "lzma: LZMA header has incorrect length"), h0)).
Proof.
  intros Hv Hd Hs.
  destruct (fromByte_byte _ Hv) as (_ & Hrt).
  split; [|split].
  - intros p. unfold Header.AppendBinary.
    rewrite length_app. cbn [length]. rewrite length_app, !putLE_length. lia.
  - unfold Header.AppendBinary. cbn [app].
    rewrite unmarshal_header_bytes by apply putLE_length.
    rewrite Hrt.
    rewrite (getLE_putLE 4) by (change (256 ^ Z.of_nat 4) with (2 ^ 32); exact Hd).
    rewrite (getLE_putLE 8) by (change (256 ^ Z.of_nat 8) with (2 ^ 64); exact Hs).
    destruct h. reflexivity.
  - intros x Hx. unfold Header.UnmarshalBinary.
    destruct (Nat.eqb_spec (length x) Header.headerLen) as [E | E]; [contradiction|].
    reflexivity.
Qed.

Lemma header_append_unmarshal_witness :
  let h := Header.mkParams (Props.mkProperties 3 0 2) 8388608 Header.eosSize in
  Header.AppendBinary [] h =
    [93; 0; 0; 128; 0; 255; 255; 255; 255; 255; 255; 255; 255] /\
  Header.UnmarshalBinary (Header.AppendBinary [] h)
    (Header.mkParams (Props.mkProperties 0 0 0) 0 0) = (None, h).
Proof.
  intros h. split; [reflexivity|].
  assert (Hd : 0 <= Header.dictSize h < 2 ^ 32) by (cbn; lia).
  assert (Hs : 0 <= Header.uncompressedSize h < 2 ^ 64)
    by (unfold h, Header.eosSize; cbn [Header.uncompressedSize]; lia).
  destruct (header_append_unmarshal_roundtrip h
              (Header.mkParams (Props.mkProperties 0 0 0) 0 0) eq_refl Hd Hs)
    as (_ & H & _).
  exact H.
Defined.

(** ** Further properties: [fillBuffer] and [start] *)

(** X3: with a known size, [fillBuffer] reports a clean end ([io.EOF])
    only when the position is exactly the declared limit; and when a call
    brings the position to the limit, it ends the decoding there with
    [io.EOF] or [ErrEncoding], latched, so that every later call returns
    the same without decoding anything. *)
Theorem fillBuffer_known_size
  {ops : Reader.DecoderOps} (r r' : Reader.reader) (e : option error) :
  Buffer.wf (Reader.dict r) ->
  Reader.err r = None ->
  0 <= Reader.uncompressedLimit r ->
  Reader.fillBuffer r = Done (e, r') ->
  (e = Some EOF -> Buffer.Pos (Reader.dict r') = Reader.uncompressedLimit r) /\
  (Buffer.Pos (Reader.dict r) <> Reader.uncompressedLimit r ->
   Buffer.Pos (Reader.dict r') = Reader.uncompressedLimit r ->
   (e = Some EOF \/ e = Some ErrEncoding) /\
   Reader.fillBuffer r' = Done (e, r')).
Proof.
  intros Hwf Herr Hlim H. unfold Reader.fillBuffer in H. rewrite Herr in H.
  destruct (fillLoop_facts _ _ _ _ Hwf H) as (_ & _ & Hlatch & Hexact & Hstop & _).
  split; [intros E; now apply Hexact|].
  intros Hne Heq. destruct (Hstop Hne Heq) as [-> | ->];
    (split; [auto|]); unfold Reader.fillBuffer; now rewrite Hlatch.
Qed.

(** A stream that declares two bytes and holds two literals. *)
Lemma fillBuffer_known_size_witness :
  let r := @Reader.mkReader Script.decoder (Buffer.mk [] 0 4096 4096 0)
             (Reader.mkState 0 [0; 0; 0; 0] (Props.mkProperties 3 0 2))
             [0; 97; 0; 98] 2 None in
  exists r',
    Reader.fillBuffer r = Done (Some EOF, r') /\
    Buffer.Pos (Reader.dict r') = 2 /\
    Reader.fillBuffer r' = Done (Some EOF, r').
Proof.
  intros r. eexists. split; [vm_compute; reflexivity|].
  match goal with |- Buffer.Pos (Reader.dict ?x) = _ /\ _ => set (r' := x) end.
  assert (Hwf : Buffer.wf (Reader.dict r)) by (unfold Buffer.wf; cbn; lia).
  assert (HF : Reader.fillBuffer r = Done (Some EOF, r')) by (vm_compute; reflexivity).
  destruct (fillBuffer_known_size r r' (Some EOF) Hwf eq_refl
              ltac:(unfold r, Buffer.Pos, Buffer.Available, Buffer.Len; cbn; lia) HF) as [Hexact Hstop].
  split; [exact (Hexact eq_refl)|].
  apply Hstop; [unfold r, Buffer.Pos, Buffer.Available, Buffer.Len; cbn; lia | exact (Hexact eq_refl)].
Defined.

(** X4: with an unknown size, [fillBuffer] reports a clean end only after
    [readSeq] has met the EOS marker with the range decoder possibly at
    its end; an input that ends at the start of a call gives
    [io.ErrUnexpectedEOF]. *)
Theorem fillBuffer_unknown_size
  {ops : Reader.DecoderOps} (r r' : Reader.reader) (e : option error) :
  Buffer.wf (Reader.dict r) ->
  Reader.err r = None ->
  Reader.uncompressedLimit r < 0 ->
  0 <= Buffer.Pos (Reader.dict r) ->
  Reader.fillBuffer r = Done (e, r') ->
  (e = Some EOF ->
   exists r1 r2, Reader.readSeq r1 = (Err errEOS, r2) /\
                 Reader.possiblyAtEnd (Reader.rd r2) = true /\
                 r' = Reader.set_err (Some EOF) r2) /\
  (forall r1, Reader.maxMatchLen <= Buffer.Available (Reader.dict r) ->
              Reader.readSeq r = (Err EOF, r1) ->
              e = Some ErrUnexpectedEOF).
Proof.
  intros Hwf Herr Hlim Hpos H. unfold Reader.fillBuffer in H. rewrite Herr in H.
  split.
  - destruct (fillLoop_facts _ _ _ _ Hwf H) as (_ & _ & _ & _ & _ & Heos).
    intros E. now apply Heos.
  - intros r1 Hroom Hseq. rewrite fillLoop_S in H.
    destruct (Z.ltb_spec (Buffer.Available (Reader.dict r)) Reader.maxMatchLen); [lia|].
    rewrite Hseq in H. inversion H; subst.
    destruct (readSeq_frame _ _ _ Hseq) as (Hd & Hl & _).
    unfold Reader.fillError. rewrite Hl, Hd.
    destruct (Z.eqb_spec (Reader.uncompressedLimit r) (Buffer.Pos (Reader.dict r))); [lia|].
    cbn [negb]. now rewrite orb_true_r.
Qed.

(** One literal, then the input ends without a marker. *)
Lemma fillBuffer_unknown_size_witness :
  let r := @Reader.mkReader Script.decoder (Buffer.mk [97] 0 4096 4096 0)
             (Reader.mkState 0 [0; 0; 0; 0] (Props.mkProperties 3 0 2))
             [] (-1) None in
  exists r', Reader.fillBuffer r = Done (Some ErrUnexpectedEOF, r').
Proof.
  intros r.
  assert (Hwf : Buffer.wf (Reader.dict r)) by (unfold Buffer.wf; cbn; lia).
  destruct (Reader.fillBuffer r) as [[e r'] | |] eqn:HF; try (vm_compute in HF; discriminate).
  destruct (fillBuffer_unknown_size r r' e Hwf eq_refl
              ltac:(unfold r, Buffer.Pos, Buffer.Available, Buffer.Len; cbn; lia) ltac:(unfold r, Buffer.Pos, Buffer.Available, Buffer.Len; cbn; lia) HF) as [_ Hend].
  exists r'.
  rewrite (Hend (snd (Reader.readSeq r))); [reflexivity | unfold r, Buffer.Pos, Buffer.Available, Buffer.Len; cbn; lia | reflexivity].
Defined.

(** X5: [fillBuffer] always returns and never panics (a literal is only
    written when space for a longest match is free); it only appends to
    the dictionary; it returns no error only when less than a longest
    match of space is left, and it latches every error it returns. *)
Theorem fillBuffer_returns_and_appends
  {ops : Reader.DecoderOps} (r : Reader.reader) :
  Buffer.wf (Reader.dict r) ->
  1 <= Reader.maxMatchLen ->
  exists (e : option error) (r' : Reader.reader) (new : list Z),
    Reader.fillBuffer r = Done (e, r') /\
    Reader.dict r' = Buffer.append new (Reader.dict r) /\
    Reader.uncompressedLimit r' = Reader.uncompressedLimit r /\
    (e = None -> Reader.err r' = None /\
                 Buffer.Available (Reader.dict r') < Reader.maxMatchLen) /\
    (forall x, e = Some x -> Reader.err r' = Some x).
Proof.
  intros Hwf Hmax.
  destruct (fillBuffer_total r Hwf Hmax) as (e & r' & HF).
  destruct (fillBuffer_facts _ _ _ Hwf HF) as ((new & Hd) & Hl & Hlatch).
  exists e, r', new. split; [exact HF|]. split; [exact Hd|]. split; [exact Hl|].
  split; [intros ->; exact Hlatch | intros x ->; exact Hlatch].
Qed.

Lemma fillBuffer_returns_and_appends_witness :
  let r := @Reader.mkReader Script.decoder (Buffer.mk [] 0 4096 4096 0)
             (Reader.mkState 0 [0; 0; 0; 0] (Props.mkProperties 3 0 2))
             [0; 97; 1; 0; 5; 0] (-1) None in
  exists e r',
    Reader.fillBuffer r = Done (e, r') /\
    Buffer.data (Reader.dict r') = [97; 97; 97; 97; 97; 97; 97; 97].
Proof.
  intros r.
  destruct (@fillBuffer_returns_and_appends Script.decoder r)
    as (e & r' & new & HF & Hd & _).
  - unfold Buffer.wf. cbn. lia.
  - cbn. lia.
  - exists e, r'. split; [exact HF|].
    vm_compute in HF. inversion HF. reflexivity.
Defined.

(** X6: [start] sets the limit to -1 for the size 0xFFFFFFFFFFFFFFFF
    (unknown) and to position plus size otherwise; when that sum does not
    fit a signed 64-bit integer it fails with the overflow error; when
    the sum fits, the outcome is the one of initialising the range
    decoder, and on success the latched error is cleared and the new range
    decoder is in place. *)
Theorem start_sets_limit
  {ops : Reader.DecoderOps} (size : Z) (c : res Reader.coder) (r : Reader.reader) :
  0 <= Buffer.Pos (Reader.dict r) < 2 ^ 63 ->
  0 <= size < 2 ^ 64 ->
  let res := Reader.start size c r in
  let fits := size = 2 ^ 64 - 1 \/ Buffer.Pos (Reader.dict r) + size < 2 ^ 63 in
  (size = 2 ^ 64 - 1 -> Reader.uncompressedLimit (snd res) = -1) /\
  (size <> 2 ^ 64 - 1 -> Buffer.Pos (Reader.dict r) + size < 2 ^ 63 ->
   Reader.uncompressedLimit (snd res) = Buffer.Pos (Reader.dict r) + size) /\
  (size <> 2 ^ 64 - 1 -> 2 ^ 63 <= Buffer.Pos (Reader.dict r) + size ->
   fst res = Some (NewError "lzma: overflow")) /\
  (fits ->
   match c with
   | Err e => fst res = Some e
   | Ok c' => fst res = None /\ Reader.err (snd res) = None /\
              Reader.rd (snd res) = c' /\ Reader.dict (snd res) = Reader.dict r
   end).
Proof.
  intros Hpos Hsize res fits. subst res fits. unfold Reader.start.
  set (P := Buffer.Pos (Reader.dict r)) in *.
  destruct (Z.eqb_spec size (2 ^ 64 - 1)) as [Heos | Hknown]; cbn [negb andb].
  - split; [intros _; destruct c; reflexivity|].
    split; [intros Hne; contradiction|]. split; [intros Hne; contradiction|].
    intros _. destruct c; cbn; repeat split.
  - split; [intros Hc; contradiction|].
    destruct (Z.lt_ge_cases (P + size) (2 ^ 63)) as [Hs | Hb].
    + assert (Hm : (P + size) mod 2 ^ 64 = P + size) by (apply Z.mod_small; lia).
      rewrite Hm, (wrap64_small (P + size)) by lia.
      destruct (Z.ltb_spec (P + size) 0) as [? | _]; [lia|].
      destruct (Z.ltb_spec (P + size) size) as [? | _]; [lia|]. cbn [orb].
      split; [intros _ _; destruct c; reflexivity|].
      split; [intros _ Hge; lia|].
      intros _. destruct c; cbn; repeat split.
    + split; [intros _ Hlt; lia|].
      assert (Hov : (wrap64 ((P + size) mod 2 ^ 64) <? 0)
                    || ((P + size) mod 2 ^ 64 <? size) = true).
      { destruct (Z.lt_ge_cases (P + size) (2 ^ 64)) as [Hm | Hl].
        - rewrite Z.mod_small by lia.
          assert (W : wrap64 (P + size) = P + size - 2 ^ 64).
          { unfold wrap64.
            replace (P + size + 2 ^ 63) with ((P + size - 2 ^ 63) + 1 * 2 ^ 64) by lia.
            rewrite Z.mod_add by lia. rewrite Z.mod_small by lia. lia. }
          rewrite W. destruct (Z.ltb_spec (P + size - 2 ^ 64) 0); [reflexivity | lia].
        - assert (E : (P + size) mod 2 ^ 64 = P + size - 2 ^ 64).
          { replace (P + size) with ((P + size - 2 ^ 64) + 1 * 2 ^ 64) at 1 by lia.
            rewrite Z.mod_add by lia. apply Z.mod_small. lia. }
          rewrite E. destruct (Z.ltb_spec (P + size - 2 ^ 64) size); [|lia].
          apply orb_true_r. }
      rewrite Hov.
      split; [intros _ _; reflexivity|].
      intros [Heq | Hlt]; [contradiction | lia].
Qed.

Lemma start_sets_limit_witness :
  let r := @Reader.mkReader Script.decoder (Buffer.mk [1; 2; 3] 0 4096 4096 0)
             (Reader.mkState 0 [0; 0; 0; 0] (Props.mkProperties 3 0 2))
             [] (-1) (Some EOF) in
  Reader.uncompressedLimit (snd (@Reader.start Script.decoder 100 (Ok [7]) r)) = 103 /\
  fst (@Reader.start Script.decoder 100 (Ok [7]) r) = None /\
  Reader.err (snd (@Reader.start Script.decoder 100 (Ok [7]) r)) = None.
Proof.
  intros r.
  assert (Hp : 0 <= Buffer.Pos (Reader.dict r) < 2 ^ 63) by (unfold r, Buffer.Pos, Buffer.Available, Buffer.Len; cbn; lia).
  assert (Hs : 0 <= 100 < 2 ^ 64) by lia.
  destruct (@start_sets_limit Script.decoder 100 (Ok ([7] : list Z)) r Hp Hs)
    as (_ & Hlim & _ & Hok).
  split; [apply Hlim; unfold r, Buffer.Pos, Buffer.Available, Buffer.Len; cbn; lia|].
  destruct Hok as (H1 & H2 & _); [right; unfold r, Buffer.Pos, Buffer.Available, Buffer.Len; cbn; lia|].
  split; assumption.
Defined.

(** ** Further properties: the encoder's match search and the context state *)

Section BestMatch.

Context {eops : Writer.EncoderOps} {dops : Writer.DictOps}.

Lemma bestMatch_fold (eb : Z -> Z) (l : list Z) :
  forall off0 len0 off len,
    foldl (fun '(off, len) o => if len <? eb o then (o, eb o) else (off, len))
          (off0, len0) l = (off, len) ->
    len0 <= len /\
    (forall o, o ∈ l -> eb o <= len) /\
    ((off, len) = (off0, len0) \/ (off ∈ l /\ eb off = len /\ len0 < len)).
Proof.
  induction l as [|a l IH]; intros off0 len0 off len H; cbn [foldl] in H.
  - inversion H; subst. split; [lia|]. split; [|now left].
    intros o Ho. inversion Ho.
  - destruct (Z.ltb_spec len0 (eb a)) as [Hlt | Hge].
    + destruct (IH _ _ _ _ H) as (Hle & Hall & Hsel).
      split; [lia|]. split.
      * intros o Ho. apply elem_of_cons in Ho. destruct Ho as [-> | Ho]; [lia | auto].
      * right. destruct Hsel as [E | (Hin & Heb & Hl)].
        -- inversion E; subst. split; [left|]. split; [reflexivity | lia].
        -- split; [now right|]. split; [exact Heb | lia].
    + destruct (IH _ _ _ _ H) as (Hle & Hall & Hsel).
      split; [lia|]. split.
      * intros o Ho. apply elem_of_cons in Ho. destruct Ho as [-> | Ho]; [lia | auto].
      * destruct Hsel as [E | (Hin & Heb & Hl)]; [now left|].
        right. split; [now right|]. now split.
Qed.

End BestMatch.

(** X7: a match that [bestMatch] returns is a longest one: its offset is
    one of the candidates, it is not negative, the dictionary agrees with
    the head there on exactly the length of the match, which is at least
    one, and no candidate agrees on more; a match of length one is only
    returned at the distance of [rep0]. *)
Theorem bestMatch_longest
  {eops : Writer.EncoderOps} {dops : Writer.DictOps}
  (offsets : list Z) (w : Writer.Writer) (m : Writer.lzmatch) :
  Writer.bestMatch offsets w = Ok m ->
  let head := Writer.Offset (Writer.Dict w) in
  let eb := fun o => Writer.EqualBytes head o Writer.MaxLength (Writer.Dict w) in
  1 <= Writer.m_length m /\
  (exists o, o ∈ offsets /\ 0 <= o /\
             Writer.m_distance m = head - o /\ eb o = Writer.m_length m) /\
  (forall o, o ∈ offsets -> eb o <= Writer.m_length m) /\
  (Writer.m_length m = 1 ->
   Writer.m_distance m = rep_get (Writer.oc_rep w) 0 + Writer.minDistance).
Proof.
  intros H head eb. unfold Writer.bestMatch in H. fold head in H.
  destruct (foldl _ (-1, 0) (reverse offsets)) as [off len] eqn:Efold.
  pose proof (bestMatch_fold eb (reverse offsets) (-1) 0 off len Efold)
    as (Hle & Hall & Hsel).
  destruct (Z.ltb_spec off 0) as [Hneg | Hpos]; [discriminate|].
  destruct Hsel as [E | (Hin & Heb & Hl)]; [inversion E; lia|].
  destruct ((len =? 1) && negb (off =? head - (rep_get (Writer.oc_rep w) 0 + Writer.minDistance)))
    eqn:Eone; [discriminate|].
  inversion H; subst m. cbn [Writer.m_length Writer.m_distance].
  split; [lia|]. split.
  - exists off. rewrite elem_of_reverse in Hin. repeat split; assumption.
  - split.
    + intros o Ho. apply Hall. now rewrite elem_of_reverse.
    + intros Hone. rewrite Hone in Eone. cbn [Z.eqb Pos.eqb andb] in Eone.
      apply negb_false_iff in Eone. apply Z.eqb_eq in Eone. lia.
Qed.

(** Three candidate offsets in a dictionary of eight bytes with the head
    at 5: the match found has distance 4 and length 3. *)
Lemma bestMatch_longest_witness :
  let w := @Writer.mkWriter Script.encoder Script.dict [0; 0; 0; 0] 0
             (Props.mkProperties 3 0 2)
             (Script.mkSdict 0 5 8 [] [9; 1; 2; 7; 7; 1; 2; 7]) []
             (Writer.mkParameters 0 false false) in
  Writer.bestMatch [4; 3; 1] w = Ok (Writer.mkMatch 4 3) /\
  (forall o, o ∈ [4; 3; 1] ->
     @Writer.EqualBytes Script.dict 5 o (@Writer.MaxLength Script.encoder)
       (Writer.Dict w) <= 3).
Proof.
  intros w.
  assert (H : Writer.bestMatch [4; 3; 1] w = Ok (Writer.mkMatch 4 3)) by reflexivity.
  split; [exact H|].
  destruct (@bestMatch_longest Script.encoder Script.dict _ _ _ H)
    as (_ & _ & Hall & _). exact Hall.
Defined.

(** Run [readSeq] along the decisions recorded in the context. *)
Ltac run_readSeq H :=
  unfold Reader.decodeLiteral, Reader.readRepLen, Reader.decodeDistIntoRep0,
    Reader.updState, Reader.getRep, Reader.setRep, Reader.onRd,
    bind, ret, fail, modify, gets in H;
  cbn -[wrap32 Z.eqb Reader.eosDist updateStateLiteral updateStateMatch
        updateStateRep updateStateShortRep] in H;
  repeat (match type of H with
          | context [Reader.decodeBit ?a ?s] =>
              match goal with E : Reader.decodeBit a s = _ |- _ => rewrite E in H end
          | context [?a =? 0] =>
              match goal with E : (a =? 0) = _ |- _ => rewrite E in H end
          | context [Reader.lenDecode ?a ?s] =>
              destruct (Reader.lenDecode a s) as [[? | ?] ?]
          | context [Reader.distDecode ?a ?s] =>
              destruct (Reader.distDecode a s) as [[? [? | ]] ?]
          | context [Reader.litDecode ?a ?b ?c ?s] =>
              destruct (Reader.litDecode a b c s) as [[? | ?] ?]
          | context [Reader.repLenDecode ?a ?s] =>
              destruct (Reader.repLenDecode a s) as [[? | ?] ?]
          | context [if ?b then _ else _] => destruct b
          end;
          cbn -[wrap32 Z.eqb Reader.eosDist updateStateLiteral updateStateMatch
                updateStateRep updateStateShortRep] in H).

Lemma readSeq_state {ops : Reader.DecoderOps}
      (r : Reader.reader) (s s2 ps : Z) (k : opKind) (c : Reader.coder) :
  Reader.rstates r = (s, s2, ps) ->
  Reader.spec_opKind s s2 (Reader.rd r) = (Ok k, c) ->
  forall seq r', Reader.readSeq r = (Ok seq, r') ->
    Reader.st (Reader.rstate r') = kindState k (Reader.st (Reader.rstate r)).
Proof.
  intros Hst Hk.
  destruct r as [dict [st rep props] rd lim err]. cbn [Reader.rstate Reader.st] in *.
  unfold Reader.rstates in Hst. cbn [Reader.rstate Reader.props Reader.st Reader.dict] in Hst.
  unfold Reader.spec_opKind, bind, ret in Hk. cbn [Reader.rd] in Hk.
  unfold Reader.readSeq. cbn [Reader.rstate Reader.props Reader.st Reader.dict].
  rewrite Hst.
  unfold bind, Reader.onRd. cbn [Reader.rd].
  repeat (match type of Hk with
          | context [Reader.decodeBit ?c ?s] =>
              destruct (Reader.decodeBit c s) as [[? | ?] ?] eqn:?
          | context [(?a =? 0)] => destruct (a =? 0) eqn:?
          end; cbn beta iota in * );
    try discriminate; inversion Hk; subst; clear Hk.
  all: intros seq r' H; run_readSeq H; try discriminate;
    inversion H; subst; reflexivity.
Qed.

Lemma writeMatch_state {eops : Writer.EncoderOps} {dops : Writer.DictOps}
      (m : Writer.lzmatch) (w w' : Writer.Writer) :
  length (Writer.oc_rep w) = 4%nat ->
  Writer.writeMatch m w = (Ok tt, w') ->
  let dist := wrap32 (Writer.m_distance m - Writer.minDistance) in
  Writer.oc_state w' =
  kindState (Writer.matchKind (Writer.oc_rep w) dist (Writer.m_length m))
            (Writer.oc_state w).
Proof.
  intros Hlen H dist.
  destruct w as [rep st props D e P]. cbn [Writer.oc_rep Writer.oc_state] in *.
  destruct (four_regs _ Hlen) as (r0 & r1 & r2 & r3 & ->). clear Hlen.
  unfold Writer.writeMatch in H. fold dist in H. clearbody dist.
  destruct (negb _) in H; [discriminate|].
  cbn [Writer.oc_rep] in H. change (rep_get [r0; r1; r2; r3] 0) with r0 in H.
  rewrite (Z.eqb_sym dist r0) in H.
  unfold Writer.oc_states, states in H.
  unfold bind, gets, ret, modify, Writer.onRe, Writer.getRep, Writer.setRep,
    Writer.updState, Writer.findRep, Writer.findRepFrom, Writer.iverson in H.
  unfold Writer.matchKind. cbn -[Z.eqb updateStateMatch updateStateRep updateStateShortRep].
  destruct (r0 =? dist) eqn:E0; destruct (r1 =? dist) eqn:E1;
    destruct (r2 =? dist) eqn:E2; destruct (r3 =? dist) eqn:E3;
    destruct (Writer.m_length m =? 1) eqn:EL.
  all: repeat match goal with
              | E : (?x =? ?y) = true |- context [decide (?x = ?y)] =>
                  rewrite (decide_True _ _ (proj1 (Z.eqb_eq x y) E));
                  cbn -[Z.eqb updateStateMatch updateStateRep updateStateShortRep]
              | E : (?x =? ?y) = false |- context [decide (?x = ?y)] =>
                  rewrite (decide_False _ _ (proj1 (Z.eqb_neq x y) E));
                  cbn -[Z.eqb updateStateMatch updateStateRep updateStateShortRep]
              end.
  all: match type of H with
       | (if ?g then _ else _) = _ => destruct g; [discriminate|]
       end.
  all: cbn -[wrap32 Z.eqb Z.leb Z.land Z.lor Z.shiftl
             updateStateMatch updateStateRep updateStateShortRep] in H.
  all: repeat (rewrite ?E0, ?E1, ?E2, ?E3, ?EL in H;
               change (1 =? 0) with false in H; change (0 =? 0) with true in H;
               change (1 =? 1) with true in H; change (0 =? 1) with false in H;
               cbn -[wrap32 Z.eqb Z.leb Z.land Z.lor Z.shiftl
                     updateStateMatch updateStateRep updateStateShortRep] in H;
               try match type of H with
               | context [Writer.encodeBit ?c ?b ?s] =>
                   destruct (Writer.encodeBit c b s) as [[[] | ?] ?]
               | context [Writer.lenEncode ?a ?b ?s] =>
                   destruct (Writer.lenEncode a b s) as [[[] | ?] ?]
               | context [Writer.repLenEncode ?a ?b ?s] =>
                   destruct (Writer.repLenEncode a b s) as [[[] | ?] ?]
               | context [Writer.distEncode ?a ?b ?s] =>
                   destruct (Writer.distEncode a b s) as [[[] | ?] ?]
               end;
               cbn -[wrap32 Z.eqb Z.leb Z.land Z.lor Z.shiftl
                     updateStateMatch updateStateRep updateStateShortRep] in H).
  all: try discriminate.
  all: inversion H; subst; reflexivity.
Qed.

Lemma writeLiteral_state {eops : Writer.EncoderOps} {dops : Writer.DictOps}
      (b : Z) (w w' : Writer.Writer) :
  Writer.writeLiteral b w = (Ok tt, w') ->
  Writer.oc_state w' = updateStateLiteral (Writer.oc_state w) /\
  Writer.oc_rep w' = Writer.oc_rep w /\
  Writer.Dict w' = Writer.Dict w.
Proof.
  intros H. destruct w as [rep st props D e P].
  unfold Writer.writeLiteral, Writer.oc_states, states in H.
  unfold bind, gets, ret, modify, Writer.onRe, Writer.updState in H.
  cbn -[updateStateLiteral Z.land Z.lor Z.shiftl wrap32] in H.
  destruct (Writer.encodeBit _ _ _) as [[[] | ?] ?]; [|discriminate].
  cbn -[updateStateLiteral Z.land Z.lor Z.shiftl wrap32] in H.
  destruct (Writer.litEncode _ _ _ _ _) as [[[] | ?] ?]; [|discriminate].
  cbn -[updateStateLiteral] in H.
  inversion H; subst. cbn. auto.
Qed.

(** X8: the context state follows the kind of operation on both sides.
    When [readSeq] returns an operation, the decoder's state has made the
    transition of the kind that the stream's bits announce; when [writeOp]
    succeeds, the encoder's state has made the transition of the kind of
    the operation written (a literal, or the kind of the match); so a
    decoder and an encoder that start in the same state and handle an
    operation of the same kind end in the same state. *)
Theorem context_state_in_step
  {ops : Reader.DecoderOps} {eops : Writer.EncoderOps} {dops : Writer.DictOps}
  (r : Reader.reader) (s s2 ps : Z) (k : opKind) (c : Reader.coder)
  (op : Writer.operation) (w w' : Writer.Writer) :
  Reader.rstates r = (s, s2, ps) ->
  Reader.spec_opKind s s2 (Reader.rd r) = (Ok k, c) ->
  length (Writer.oc_rep w) = 4%nat ->
  Writer.writeOp op w = (Ok tt, w') ->
  let ek := match op with
            | Writer.opLit _ => KLiteral
            | Writer.opMatch m =>
                Writer.matchKind (Writer.oc_rep w)
                  (wrap32 (Writer.m_distance m - Writer.minDistance))
                  (Writer.m_length m)
            end in
  (forall seq r', Reader.readSeq r = (Ok seq, r') ->
     Reader.st (Reader.rstate r') = kindState k (Reader.st (Reader.rstate r))) /\
  Writer.oc_state w' = kindState ek (Writer.oc_state w) /\
  (Writer.oc_state w = Reader.st (Reader.rstate r) -> k = ek ->
   forall seq r', Reader.readSeq r = (Ok seq, r') ->
     Reader.st (Reader.rstate r') = Writer.oc_state w').
Proof.
  intros Hst Hk Hlen Hw ek.
  assert (Hdec : forall seq r', Reader.readSeq r = (Ok seq, r') ->
            Reader.st (Reader.rstate r') = kindState k (Reader.st (Reader.rstate r)))
    by (intros seq r' H; exact (readSeq_state r s s2 ps k c Hst Hk seq r' H)).
  assert (Henc : Writer.oc_state w' = kindState ek (Writer.oc_state w)).
  { subst ek. destruct op as [m | b]; cbn [Writer.writeOp] in Hw.
    - exact (writeMatch_state m w w' Hlen Hw).
    - destruct (writeLiteral_state b w w' Hw) as (H & _). exact H. }
  split; [exact Hdec|]. split; [exact Henc|].
  intros Hsame Hkind seq r' H.
  rewrite (Hdec seq r' H), Henc, Hsame, Hkind. reflexivity.
Qed.

(** A repetition of register 2 from state 0: both sides end in state 8. *)
Lemma context_state_in_step_witness :
  let r := @Reader.mkReader Script.decoder (Buffer.mk [] 0 4096 4096 0)
             (Reader.mkState 0 [5; 6; 7; 8] (Props.mkProperties 3 0 2))
             [1; 1; 1; 1; 0; 3] (-1) None in
  let w := @Writer.mkWriter Script.encoder Script.dict [5; 6; 7; 8] 0
             (Props.mkProperties 3 0 2) (Script.mkSdict 0 0 0 [] []) []
             (Writer.mkParameters 0 false false) in
  let op := Writer.opMatch (Writer.mkMatch 8 5) in
  Reader.st (Reader.rstate (snd (Reader.readSeq r))) = 8 /\
  Writer.oc_state (snd (Writer.writeOp op w)) = 8.
Proof.
  intros r w op.
  destruct (@context_state_in_step Script.decoder Script.encoder Script.dict
              r 0 0 0 (KRep 2) [3] op w (snd (Writer.writeOp op w))
              eq_refl eq_refl eq_refl eq_refl)
    as (Hdec & Henc & _).
  split.
  - refine (Hdec _ (snd (Reader.readSeq r)) _). reflexivity.
  - exact Henc.
Defined.

(** ** Further properties: the tasks of the parallel reader *)

Section Generate.

Context {cops : Reader2.ChunkOps}.

Lemma mtrLoop_tasks (cfg : Reader2.Reader2Config) (fuel : nat) :
  0 <= Reader2.WorkerBufferSize cfg ->
  forall (z : list Z) (ws : Z) (tsks : list Reader2.task) (ws' : Z),
    Reader2.mtrLoop fuel z cfg ws = Done (tsks, ws') ->
    (exists front last rest,
       tsks = front ++ [last] /\
       Forall (fun t => exists buf n, t = Reader2.TaskParallel buf n /\
                                      0 < n <= Reader2.WorkerBufferSize cfg) front /\
       concat (map taskInput front) ++ taskInput last ++ rest = z /\
       match last with
       | Reader2.TaskSerial _ => rest = []
       | Reader2.TaskParallel _ n =>
           n <= Reader2.WorkerBufferSize cfg /\
           exists h k, Reader2.peekChunkHeader rest = Ok (h, k) /\
                       Reader2.control h = Reader2.cEOS
       | Reader2.TaskError e => e <> EOF
       end) /\
    ws <= ws' <= Z.max ws (Reader2.Workers cfg) /\
    ws' - ws <= Z.of_nat (length tsks).
Proof.
  intros HB. induction fuel as [|f IH]; intros z ws tsks ws' H; [discriminate|].
  cbn [Reader2.mtrLoop] in H.
  destruct (Reader2.splitStream [] z (Reader2.WorkerBufferSize cfg))
    as [[[[[size parallel] err] buf] z'] | |] eqn:Esplit; try discriminate.
  destruct (splitLoop_facts _ _ _ _ _ _ _ _ _ _ HB Esplit) as [Hcons Hcases].
  cbn [app] in Hcons.
  assert (Hws : ws <= (if ws <? Reader2.Workers cfg then ws + 1 else ws)
                   <= Z.max ws (Reader2.Workers cfg)).
  { destruct (Z.ltb_spec ws (Reader2.Workers cfg)); lia. }
  assert (Hserial : forall e0, parallel = false ->
            Done ([Reader2.TaskSerial (buf ++ z')], ws) = Done (tsks, ws') ->
            (exists front last rest,
               tsks = front ++ [last] /\
               Forall (fun t => exists buf n, t = Reader2.TaskParallel buf n /\
                                  0 < n <= Reader2.WorkerBufferSize cfg) front /\
               concat (map taskInput front) ++ taskInput last ++ rest = z /\
               match last with
               | Reader2.TaskSerial _ => rest = []
               | Reader2.TaskParallel _ n =>
                   n <= Reader2.WorkerBufferSize cfg /\
                   exists h k, Reader2.peekChunkHeader rest = Ok (h, k) /\
                               Reader2.control h = Reader2.cEOS
               | Reader2.TaskError e => e <> e0
               end) /\
            ws <= ws' <= Z.max ws (Reader2.Workers cfg) /\
            ws' - ws <= Z.of_nat (length tsks)).
  { intros e0 _ Hd. inversion Hd; subst tsks ws'. split.
    - exists [], (Reader2.TaskSerial (buf ++ z')), []. split; [reflexivity|].
      split; [constructor|]. split; [|reflexivity].
      cbn. rewrite app_nil_r. exact Hcons.
    - cbn. lia. }
  assert (Herror : forall e, e <> EOF ->
            Done ([Reader2.TaskError e], ws) = Done (tsks, ws') ->
            (exists front last rest,
               tsks = front ++ [last] /\
               Forall (fun t => exists buf n, t = Reader2.TaskParallel buf n /\
                                  0 < n <= Reader2.WorkerBufferSize cfg) front /\
               concat (map taskInput front) ++ taskInput last ++ rest = z /\
               match last with
               | Reader2.TaskSerial _ => rest = []
               | Reader2.TaskParallel _ n =>
                   n <= Reader2.WorkerBufferSize cfg /\
                   exists h k, Reader2.peekChunkHeader rest = Ok (h, k) /\
                               Reader2.control h = Reader2.cEOS
               | Reader2.TaskError e => e <> EOF
               end) /\
            ws <= ws' <= Z.max ws (Reader2.Workers cfg) /\
            ws' - ws <= Z.of_nat (length tsks)).
  { intros e He Hd. inversion Hd; subst tsks ws'. split.
    - exists [], (Reader2.TaskError e), z. split; [reflexivity|].
      split; [constructor|]. split; [reflexivity | exact He].
    - cbn. lia. }
  destruct err as [e|].
  - destruct e; try (refine (Herror _ _ H); discriminate).
    (* io.EOF *)
    destruct parallel.
    + destruct Hcases as (_ & Hn & h & k & Hpeek & Hctl).
      inversion H; subst tsks ws'. split.
      * exists [], (Reader2.TaskParallel buf size), z'. split; [reflexivity|].
        split; [constructor|]. split; [exact Hcons|].
        split; [exact Hn|]. exists h, k. now split.
      * clear Hws. destruct (Z.ltb_spec ws (Reader2.Workers cfg)); cbn [length]; lia.
    + apply (Hserial EOF eq_refl) in H. exact H.
  - destruct parallel; [|contradiction].
    destruct Hcases as (Hn & _).
    destruct (Reader2.mtrLoop f z' cfg _) as [[tsks1 ws1] | |] eqn:Erec;
      try discriminate.
    inversion H; subst tsks ws'.
    destruct (IH _ _ _ _ Erec) as ((front & last & rest & -> & Hfront & Hcat & Hlast)
                                   & Hws1 & Hcount).
    split.
    + exists (Reader2.TaskParallel buf size :: front), last, rest.
      split; [reflexivity|]. split.
      * constructor; [|exact Hfront]. exists buf, size. now split.
      * split; [|exact Hlast]. cbn [map concat taskInput].
        rewrite <- app_assoc, Hcat. exact Hcons.
    + clear Hws. rewrite length_app in Hcount. cbn [length] in *.
      rewrite length_app. cbn [length].
      revert Hws1 Hcount.
      destruct (Z.ltb_spec ws (Reader2.Workers cfg)); intros; lia.
Qed.

End Generate.

Section GenerateReturns.

Context {cops : Reader2.ChunkOps}.

(** What is asked of the chunk header parser: on a list of bytes, a header
    is at least one byte long and its sizes are not negative. *)
Hypothesis peek_sane :
  forall z h k, Forall is_byte z -> Reader2.peekChunkHeader z = Ok (h, k) ->
                1 <= k /\ 0 <= Reader2.size h /\ 0 <= Reader2.compressedSize h.

Lemma copyN_drop (k : Z) (w z w' z' : list Z) :
  Reader2.copyN k w z = (None, w', z') ->
  z' = drop (Z.to_nat k) z /\ w' = w ++ take (Z.to_nat k) z /\
  (Z.to_nat k <= length z)%nat.
Proof.
  unfold Reader2.copyN.
  destruct (Nat.ltb_spec (length z) (Z.to_nat k)) as [Hlt | Hge]; intros H;
    inversion H; subst.
  split; [reflexivity|]. split; [reflexivity | lia].
Qed.

Lemma splitLoop_returns (fuel : nat) :
  forall (w z : list Z) (B n : Z),
    Forall is_byte z ->
    (length z < fuel)%nat ->
    exists res, Reader2.splitLoop fuel w z B n = Done res.
Proof.
  induction fuel as [|f IH]; intros w z B n Hz Hfuel; [lia|].
  cbn [Reader2.splitLoop].
  destruct (Reader2.peekChunkHeader z) as [[h k] | e] eqn:Epeek; [|eauto].
  destruct (peek_sane _ _ _ Hz Epeek) as (Hk & Hs & Hc).
  destruct (_ && _); [eauto|].
  destruct (_ =? Reader2.cEOS); [eauto|].
  destruct (_ <? _); [eauto|].
  destruct (Reader2.copyN _ w z) as [[[e|] w1] z1] eqn:Ecopy; [eauto|].
  apply copyN_drop in Ecopy. destruct Ecopy as (-> & -> & Hlen).
  apply IH.
  - now apply Forall_drop.
  - rewrite length_drop. destruct (Z.land _ _ =? 0); lia.
Qed.

Lemma splitLoop_grows (fuel : nat) :
  forall (w z : list Z) (B n n' : Z) (w' z' : list Z),
    Forall is_byte z ->
    Reader2.splitLoop fuel w z B n = Done (n', true, None, w', z') ->
    (0 < n /\ w' = w) \/ (length w < length w')%nat.
Proof.
  induction fuel as [|f IH]; intros w z B n n' w' z' Hz H; [discriminate|].
  cbn [Reader2.splitLoop] in H.
  destruct (Reader2.peekChunkHeader z) as [[h k] | e] eqn:Epeek; [|discriminate].
  destruct (peek_sane _ _ _ Hz Epeek) as (Hk & Hs & Hc).
  destruct (_ && (0 <? n)) eqn:Ereset.
  { inversion H; subst. left. apply andb_prop in Ereset.
    destruct Ereset as [_ Hpos]. apply Z.ltb_lt in Hpos. now split. }
  destruct (_ =? Reader2.cEOS); [discriminate|].
  destruct (B <? _); [discriminate|].
  destruct (Reader2.copyN _ w z) as [[[e|] w1] z1] eqn:Ecopy; [discriminate|].
  match type of Ecopy with
  | Reader2.copyN ?kz _ _ = _ =>
      assert (Hkz : 1 <= kz) by (destruct (Z.land _ _ =? 0); lia);
      remember kz as kk eqn:Ekk
  end.
  clear Ekk.
  apply copyN_drop in Ecopy. destruct Ecopy as (-> & -> & Hlen).
  right.
  assert (Hgrow : (length w < length (w ++ take (Z.to_nat kk) z))%nat).
  { rewrite length_app, length_take. lia. }
  destruct (IH _ _ _ _ _ _ _ (Forall_drop _ _ _ Hz) H) as [[_ ->] | Hl]; lia.
Qed.

Lemma mtrLoop_returns (cfg : Reader2.Reader2Config) (fuel : nat) :
  0 <= Reader2.WorkerBufferSize cfg ->
  forall (z : list Z) (ws : Z),
    Forall is_byte z ->
    (length z < fuel)%nat ->
    exists tsks ws', Reader2.mtrLoop fuel z cfg ws = Done (tsks, ws').
Proof.
  intros HB. induction fuel as [|f IH]; intros z ws Hz Hfuel; [lia|].
  cbn [Reader2.mtrLoop].
  destruct (splitLoop_returns (S (length z)) [] z (Reader2.WorkerBufferSize cfg) 0 Hz)
    as [[[[[size parallel] err] buf] z'] Esplit]; [lia|].
  unfold Reader2.splitStream. rewrite Esplit.
  destruct err as [e|].
  - destruct e; eauto. destruct parallel; eauto.
  - destruct parallel; [|eauto].
    destruct (splitLoop_grows _ _ _ _ _ _ _ _ Hz Esplit) as [[Hn _] | Hg]; [lia|].
    destruct (splitLoop_facts _ _ _ _ _ _ _ _ _ _ HB Esplit) as [Hcons _].
    cbn [app length] in Hcons, Hg.
    assert (Hz' : Forall is_byte z').
    { rewrite <- Hcons in Hz. apply Forall_app in Hz. tauto. }
    assert (Hlen : (length z' < f)%nat).
    { rewrite <- Hcons in Hfuel. rewrite length_app in Hfuel. lia. }
    destruct (IH z' (if ws <? Reader2.Workers cfg then ws + 1 else ws) Hz' Hlen)
      as (tsks & ws' & ->).
    eauto.
Qed.

End GenerateReturns.

(** X9: [mtrGenerate] returns, and its tasks cut the stream in order.
    With a header parser that, on bytes, yields headers of at least one
    byte and sizes that are not negative, and a worker buffer size that is
    not negative, the generator ends with a list of tasks that is not
    empty: all tasks but the last are runs for the workers, each with an
    output size between 1 and the worker buffer size; the inputs of the
    tasks, one after the other, are a front part of the stream; the last
    task is the whole rest of the stream for the foreground reader, or a
    run that ends before the end-of-stream chunk, or an error other than
    [io.EOF].  No more workers are started than the configuration allows,
    nor more than there are tasks. *)
Theorem mtrGenerate_partitions
  {cops : Reader2.ChunkOps} (cfg : Reader2.Reader2Config) (z : list Z) :
  (forall z h k, Forall is_byte z -> Reader2.peekChunkHeader z = Ok (h, k) ->
                 1 <= k /\ 0 <= Reader2.size h /\ 0 <= Reader2.compressedSize h) ->
  Forall is_byte z ->
  0 <= Reader2.WorkerBufferSize cfg ->
  exists tsks ws,
    Reader2.mtrGenerate z cfg = Done (tsks, ws) /\
    (exists front last rest,
       tsks = front ++ [last] /\
       Forall (fun t => exists buf n, t = Reader2.TaskParallel buf n /\
                                      0 < n <= Reader2.WorkerBufferSize cfg) front /\
       concat (map taskInput front) ++ taskInput last ++ rest = z /\
       match last with
       | Reader2.TaskSerial _ => rest = []
       | Reader2.TaskParallel _ n =>
           n <= Reader2.WorkerBufferSize cfg /\
           exists h k, Reader2.peekChunkHeader rest = Ok (h, k) /\
                       Reader2.control h = Reader2.cEOS
       | Reader2.TaskError e => e <> EOF
       end) /\
    0 <= ws <= Z.max 0 (Reader2.Workers cfg) /\
    ws <= Z.of_nat (length tsks).
Proof.
  intros Hpeek Hz HB. unfold Reader2.mtrGenerate.
  destruct (mtrLoop_returns Hpeek cfg (S (length z)) HB z 0 Hz) as (tsks & ws & H);
    [lia|].
  exists tsks, ws. split; [exact H|].
  destruct (mtrLoop_tasks cfg _ HB _ _ _ _ H) as (Hparts & Hws & Hcount).
  split; [exact Hparts|]. split; lia.
Qed.

Lemma Script_parse_sane (z : list Z) (h : Reader2.chunkHeader) (k : Z) :
  Forall is_byte z ->
  Script.parseChunkHeader z = Ok (h, k) ->
  1 <= k /\ 0 <= Reader2.size h /\ 0 <= Reader2.compressedSize h.
Proof.
  intros Hz H. unfold Script.parseChunkHeader in H.
  destruct z as [|c rest]; [discriminate|].
  apply Forall_cons in Hz. destruct Hz as [Hc Hrest]. unfold is_byte in Hc.
  destruct (c =? 0). { inversion H; subst; cbn; lia. }
  destruct ((c =? 1) || (c =? 2)).
  { destruct rest as [|hi [|lo rest']]; try discriminate.
    apply Forall_cons in Hrest. destruct Hrest as [Hhi Hrest].
    apply Forall_cons in Hrest. destruct Hrest as [Hlo _].
    unfold is_byte in *. inversion H; subst; cbn; lia. }
  destruct (c <? 128); [discriminate|].
  destruct rest as [|b1 [|b2 [|b3 [|b4 rest']]]]; try discriminate.
  apply Forall_cons in Hrest. destruct Hrest as [H1 Hrest].
  apply Forall_cons in Hrest. destruct Hrest as [H2 Hrest].
  apply Forall_cons in Hrest. destruct Hrest as [H3 Hrest].
  apply Forall_cons in Hrest. destruct Hrest as [H4 _].
  unfold is_byte in *.
  assert (H31 : 0 <= Z.land c 31) by (apply Z.land_nonneg; lia).
  destruct (192 <=? Z.land c 224).
  - destruct rest'; [discriminate|]. inversion H; subst; cbn; lia.
  - inversion H; subst; cbn; lia.
Qed.

(** Two uncompressed chunks of one byte, each with a dictionary reset, and
    the end of the stream: two runs for the workers. *)
Lemma mtrGenerate_partitions_witness :
  exists tsks ws,
    Reader2.mtrGenerate (cops := Script.chunks) [1; 0; 0; 65; 1; 0; 0; 66; 0]
                        (Reader2.mkConfig 4096 2 100) = Done (tsks, ws) /\
    0 <= ws <= 2.
Proof.
  destruct (@mtrGenerate_partitions Script.chunks (Reader2.mkConfig 4096 2 100)
              [1; 0; 0; 65; 1; 0; 0; 66; 0])
    as (tsks & ws & H & _ & Hws & _).
  - exact Script_parse_sane.
  - repeat constructor; unfold is_byte; lia.
  - cbn. lia.
  - exists tsks, ws. split; [exact H | exact Hws].
Defined.

(** ** Further properties: the configuration of the LZMA2 reader *)

(** X10: which configurations [NewReader2Config] accepts, and what it
    builds.  It fails exactly when the dictionary size is neither zero nor
    at least [minDictSize], or the number of workers or the worker buffer
    size is negative (zero stands for the default).  With at most one
    worker (zero included) it builds the reader without workers, with the
    dictionary size given, or 8 MiB for zero; with more it builds the
    parallel reader, whose configuration passes [Verify], has a worker
    buffer size above zero, and is left as it is by [ApplyDefaults]. *)
Theorem NewReader2Config_accepts (cfg : Reader2.Reader2Config) :
  ((exists e, Reader2.NewReader2Config cfg = Err e) <->
   (Reader2.DictSize cfg <> 0 /\ Reader2.DictSize cfg < Reader2.minDictSize) \/
   Reader2.Workers cfg < 0 \/ Reader2.WorkerBufferSize cfg < 0) /\
  (forall d, Reader2.NewReader2Config cfg = Ok (Reader2.SingleReader d) ->
     (Reader2.Workers cfg = 0 \/ Reader2.Workers cfg = 1) /\
     Reader2.minDictSize <= d /\
     (Reader2.DictSize cfg = 0 -> d = 8 * 2 ^ 20) /\
     (Reader2.DictSize cfg <> 0 -> d = Reader2.DictSize cfg)) /\
  (forall c, Reader2.NewReader2Config cfg = Ok (Reader2.MultiReader c) ->
     1 < Reader2.Workers cfg /\ Reader2.Workers c = Reader2.Workers cfg /\
     Reader2.minDictSize <= Reader2.DictSize c /\
     0 < Reader2.WorkerBufferSize c /\
     Reader2.Verify c = None /\ Reader2.ApplyDefaults c = c).
Proof.
  destruct cfg as [d w b].
  unfold Reader2.NewReader2Config, Reader2.ApplyDefaults, Reader2.Verify,
    Reader2.minDictSize.
  cbn [Reader2.DictSize Reader2.Workers Reader2.WorkerBufferSize].
  destruct (Z.eqb_spec d 0) as [Hd | Hd];
    cbn [Reader2.DictSize Reader2.Workers Reader2.WorkerBufferSize];
    destruct (Z.eqb_spec w 0) as [Hw | Hw];
    cbn [Reader2.DictSize Reader2.Workers Reader2.WorkerBufferSize];
    destruct (Z.eqb_spec b 0) as [Hb | Hb];
    cbn [Reader2.DictSize Reader2.Workers Reader2.WorkerBufferSize].
  all: repeat match goal with
              | |- context [?x <? ?y] => destruct (Z.ltb_spec x y)
              | |- context [?x <=? ?y] => destruct (Z.leb_spec x y)
              end.
  all: cbn [Reader2.DictSize Reader2.Workers Reader2.WorkerBufferSize].
  all: split; [split; [intros [e He]; try discriminate; lia
                      | intros Hbad; try lia; eauto]|].
  all: split; [intros d0 Hnew; try discriminate; inversion Hnew; subst; lia|].
  all: intros c Hnew; try discriminate; inversion Hnew; subst; clear Hnew;
    cbn [Reader2.DictSize Reader2.Workers Reader2.WorkerBufferSize].
  all: repeat match goal with
              | |- context [?x =? ?y] =>
                  destruct (Z.eqb_spec x y) as [Heq | Hne];
                  [cbn [Reader2.DictSize Reader2.Workers Reader2.WorkerBufferSize] in Heq;
                   lia|];
                  clear Hne;
                  cbn [Reader2.DictSize Reader2.Workers Reader2.WorkerBufferSize]
              | |- context [?x <? ?y] => destruct (Z.ltb_spec x y); [lia|]
              | |- context [?x <=? ?y] => destruct (Z.leb_spec x y); [lia|]
              end.
  all: repeat split; try lia; try reflexivity.
Qed.

(** ** Further properties: the parallel writer *)

(** No error arrives from the output routine. *)
Lemma nextEvent_quiet (evs : list event) :
  Forall (eq EvGo) evs ->
  exists evs', nextEvent evs = (EvGo, evs') /\ Forall (eq EvGo) evs'.
Proof.
  intros H. destruct evs as [|ev evs]; cbn.
  - exists []. now split.
  - apply Forall_cons in H. destruct H as [<- H]. exists evs. now split.
Qed.

Lemma mtw_spawn_facts (w : MtWriter.mtWriter) :
  MtWriter.buf (MtWriter.spawn w) = MtWriter.buf w /\
  MtWriter.err (MtWriter.spawn w) = MtWriter.err w /\
  MtWriter.cancelled (MtWriter.spawn w) = MtWriter.cancelled w /\
  MtWriter.taskCh (MtWriter.spawn w) = MtWriter.taskCh w /\
  MtWriter.outCh (MtWriter.spawn w) = MtWriter.outCh w /\
  MtWriter.zOut (MtWriter.spawn w) = MtWriter.zOut w /\
  MtWriter.cfgWorkers (MtWriter.spawn w) = MtWriter.cfgWorkers w /\
  MtWriter.cfgWorkerBufferSize (MtWriter.spawn w) = MtWriter.cfgWorkerBufferSize w /\
  MtWriter.workers w <= MtWriter.workers (MtWriter.spawn w)
    <= Z.max (MtWriter.workers w) (MtWriter.cfgWorkers w).
Proof.
  unfold MtWriter.spawn.
  destruct (Z.ltb_spec (MtWriter.workers w) (MtWriter.cfgWorkers w)); cbn;
    repeat split; lia.
Qed.

Lemma mtw_writeLoop_facts (fuel : nat) :
  forall (p : list Z) (n : Z) (w : MtWriter.mtWriter) (evs : list event),
    0 < MtWriter.cfgWorkerBufferSize w ->
    Z.of_nat (length (MtWriter.buf w)) <= MtWriter.cfgWorkerBufferSize w ->
    (length p + (if (0 <? length (MtWriter.buf w))%nat then 1 else 0) < fuel)%nat ->
    exists n' e w' evs',
      MtWriter.writeLoop fuel p n w evs = Done (n', e, w', evs') /\
      mtw_post p n w evs n' e w' evs'.
Proof.
  induction fuel as [|f IH]; intros p n w evs HB Hbuf Hfuel; [lia|].
  cbn [MtWriter.writeLoop].
  destruct p as [|b p'] eqn:Ep.
  { exists n, None, w, evs. split; [reflexivity|].
    unfold mtw_post. cbn [length]. repeat split; try lia.
    - exists []. rewrite !app_nil_r. split; [reflexivity|].
      split; [constructor|]. intros _. cbn. repeat split; lia.
    - exact H. }
  rewrite <- Ep in *. assert (Hp : (0 < length p)%nat) by (subst p; cbn; lia).
  clear Ep b p'.
  set (k := MtWriter.cfgWorkerBufferSize w - Z.of_nat (length (MtWriter.buf w))).
  assert (Hk0 : 0 <= k) by (unfold k; lia).
  destruct (Z.leb_spec (Z.of_nat (length p)) k) as [Hfit | Hmore].
  { exists (n + Z.of_nat (length p)), None, (MtWriter.set_buf (MtWriter.buf w ++ p) w), evs.
    split; [reflexivity|]. unfold mtw_post. cbn.
    rewrite length_app. repeat split; try lia.
    - exists []. rewrite !app_nil_r. split; [reflexivity|].
      split; [constructor|]. intros _. cbn. repeat split.
    - exact H. }
  destruct (Z.ltb_spec k 0) as [Hneg | _]; [lia|].
  destruct (mtw_spawn_facts w)
    as (Sbuf & Serr & Scan & Stask & Sout & Sz & Scw & Scb & Swork).
  assert (Hk : k = MtWriter.cfgWorkerBufferSize (MtWriter.spawn w)
                   - Z.of_nat (length (MtWriter.buf (MtWriter.spawn w))))
    by (rewrite Scb, Sbuf; reflexivity).
  set (full := MtWriter.buf w ++ take (Z.to_nat k) p).
  assert (Hfull : Z.of_nat (length full) = MtWriter.cfgWorkerBufferSize w).
  { unfold full. rewrite length_app, length_take. unfold k in *. lia. }
  rewrite Sbuf. fold full.
  destruct (nextEvent evs) as [[e1|] evs1] eqn:Ev1.
  { exists n, (Some e1), (MtWriter.latch e1 (MtWriter.set_buf full (MtWriter.spawn w))), evs1.
    split; [reflexivity|]. unfold mtw_post. cbn.
    rewrite Scw, Scb, Sz, Stask. repeat split; try lia.
    - exists []. rewrite app_nil_r. split; [reflexivity|].
      split; [constructor|]. discriminate.
    - destruct (nextEvent_quiet evs H) as (x & Hx & _). congruence.
    - destruct (nextEvent_quiet evs H) as (x & Hx & _). congruence. }
  destruct (nextEvent evs1) as [[e2|] evs2] eqn:Ev2.
  { exists n, (Some e2),
      (MtWriter.latch e2 (MtWriter.sendTask (MtWriter.set_buf full (MtWriter.spawn w)))),
      evs2.
    split; [reflexivity|]. unfold mtw_post. cbn.
    rewrite Scw, Scb, Sz, Stask. repeat split; try lia.
    - exists [full]. split; [reflexivity|].
      split; [repeat constructor; exact Hfull|]. discriminate.
    - destruct (nextEvent_quiet evs H) as (x & Hx & Hq).
      rewrite Ev1 in Hx. inversion Hx; subst x.
      destruct (nextEvent_quiet evs1 Hq) as (y & Hy & _). congruence.
    - destruct (nextEvent_quiet evs H) as (x & Hx & Hq).
      rewrite Ev1 in Hx. inversion Hx; subst x.
      destruct (nextEvent_quiet evs1 Hq) as (y & Hy & _). congruence. }
  set (w2 := MtWriter.set_buf []
               (MtWriter.sendOut (MtWriter.mkOutput true false)
                  (MtWriter.sendTask (MtWriter.set_buf full (MtWriter.spawn w))))).
  destruct (IH (drop (Z.to_nat k) p) (n + k) w2 evs2) as (n' & e & w' & evs' & Hrun & Hpost).
  - unfold w2. cbn. rewrite Scb. exact HB.
  - unfold w2. cbn. rewrite Scb. lia.
  - unfold w2. cbn [MtWriter.set_buf MtWriter.buf length]. cbn [Nat.ltb Nat.leb].
    rewrite length_drop.
    destruct (0 <? length (MtWriter.buf w))%nat eqn:Eb.
    + lia.
    + apply Nat.ltb_ge in Eb. unfold k in *. lia.
  - exists n', e, w', evs'. split; [exact Hrun|].
    unfold mtw_post in *.
    destruct Hpost as (Herr & Hcw & Hcb & Hz & Hwork & Hlen & Hn & (new & Htask & Hnew & Hok) & Hquiet).
    unfold w2 in Herr, Hcw, Hcb, Hz, Hwork, Hlen, Htask, Hnew, Hok.
    cbn in Herr, Hcw, Hcb, Hz, Hwork, Hlen, Htask, Hnew, Hok.
    rewrite ?Scw, ?Scb, ?Sz, ?Stask, ?Serr, ?Sout in Herr.
    rewrite ?Scw, ?Scb, ?Sz, ?Stask, ?Serr, ?Sout in Hcw.
    rewrite ?Scw, ?Scb, ?Sz, ?Stask, ?Serr, ?Sout in Hcb.
    rewrite ?Scw, ?Scb, ?Sz, ?Stask, ?Serr, ?Sout in Hz.
    rewrite ?Scw, ?Scb, ?Sz, ?Stask, ?Serr, ?Sout in Hwork.
    rewrite ?Scw, ?Scb, ?Sz, ?Stask, ?Serr, ?Sout in Hlen.
    rewrite ?Scw, ?Scb, ?Sz, ?Stask, ?Serr, ?Sout in Htask.
    rewrite ?Scw, ?Scb, ?Sz, ?Stask, ?Serr, ?Sout in Hnew.
    rewrite ?Scw, ?Scb, ?Sz, ?Stask, ?Serr, ?Sout in Hok.
    assert (Hdrop : Z.of_nat (length (drop (Z.to_nat k) p)) = Z.of_nat (length p) - k).
    { rewrite length_drop. lia. }
    assert (Hq2 : Forall (eq EvGo) evs -> Forall (eq EvGo) evs2).
    { intros Hq0. destruct (nextEvent_quiet evs Hq0) as (x & Hx & Hq).
      rewrite Ev1 in Hx. inversion Hx; subst x.
      destruct (nextEvent_quiet evs1 Hq) as (y & Hy & Hq1).
      rewrite Ev2 in Hy. inversion Hy; subst y. exact Hq1. }
    split; [exact Herr|]. split; [exact Hcw|]. split; [exact Hcb|].
    split; [exact Hz|]. split; [lia|]. split; [lia|]. split; [lia|].
    split; [|intros Hq0; apply Hquiet, Hq2, Hq0].
    exists (full :: new). split; [rewrite Htask, <- app_assoc; reflexivity|].
    split; [constructor; assumption|].
    intros He. destruct (Hok He) as (Hn' & Hcat & Hout).
    split; [lia|]. split.
    + cbn [concat]. rewrite <- app_assoc, Hcat.
      unfold full. rewrite <- app_assoc, take_drop. reflexivity.
    + rewrite Hout, <- app_assoc. reflexivity.
Qed.

(** X11: what [mtWriter.Write] does with the bytes.  With no latched
    error, a worker buffer size above zero and a buffer within it, [Write]
    returns (it neither panics nor loops), with a count between 0 and
    [len(p)] and a buffer still within the size; every task it hands to
    the workers holds exactly the worker buffer size; an error it returns
    is latched.  When it returns no error, which is so whenever no error
    arrives from the output routine, the count is [len(p)], the tasks
    handed over followed by the buffer are the old buffer followed by [p],
    and one output with a data channel was queued for each task. *)
Theorem mtw_Write_accounts
  (p : list Z) (w : MtWriter.mtWriter) (evs : list event) :
  MtWriter.err w = None ->
  0 < MtWriter.cfgWorkerBufferSize w ->
  Z.of_nat (length (MtWriter.buf w)) <= MtWriter.cfgWorkerBufferSize w ->
  exists n e w' evs',
    MtWriter.Write p w evs = Done (n, e, w', evs') /\
    0 <= n <= Z.of_nat (length p) /\
    Z.of_nat (length (MtWriter.buf w')) <= MtWriter.cfgWorkerBufferSize w /\
    MtWriter.cfgWorkerBufferSize w' = MtWriter.cfgWorkerBufferSize w /\
    MtWriter.zOut w' = MtWriter.zOut w /\
    MtWriter.err w' = e /\
    (exists new,
       MtWriter.taskCh w' = MtWriter.taskCh w ++ new /\
       Forall (fun t => Z.of_nat (length t) = MtWriter.cfgWorkerBufferSize w) new /\
       (e = None ->
        n = Z.of_nat (length p) /\
        concat new ++ MtWriter.buf w' = MtWriter.buf w ++ p /\
        MtWriter.outCh w' =
        MtWriter.outCh w ++ replicate (length new) (MtWriter.mkOutput true false))) /\
    (Forall (eq EvGo) evs -> e = None /\ Forall (eq EvGo) evs').
Proof.
  intros Herr HB Hbuf. unfold MtWriter.Write. rewrite Herr.
  destruct (nextEvent evs) as [[e1|] evs1] eqn:Ev1.
  - exists 0, (Some e1), (MtWriter.latch e1 w), evs1. split; [reflexivity|].
    cbn. split; [lia|]. split; [lia|]. split; [reflexivity|]. split; [reflexivity|].
    split; [reflexivity|]. split.
    + exists []. rewrite app_nil_r. split; [reflexivity|].
      split; [constructor | discriminate].
    + intros Hq. destruct (nextEvent_quiet evs Hq) as (x & Hx & _). congruence.
  - destruct (mtw_writeLoop_facts (S (S (length p))) p 0 w evs1 HB Hbuf)
      as (n & e & w' & evs' & Hrun & Hpost).
    { destruct (0 <? length (MtWriter.buf w))%nat; lia. }
    exists n, e, w', evs'. split; [exact Hrun|].
    destruct Hpost as (Herr' & _ & Hcb & Hz & _ & Hlen & Hn & Hnew & Hquiet).
    split; [lia|]. split; [exact Hlen|]. split; [exact Hcb|]. split; [exact Hz|]. split.
    { rewrite Herr', Herr. destruct e; reflexivity. }
    split; [exact Hnew|].
    intros Hq. apply Hquiet.
    destruct (nextEvent_quiet evs Hq) as (x & Hx & Hq1).
    rewrite Ev1 in Hx. inversion Hx; subst x. exact Hq1.
Qed.

(** Ten bytes into a fresh writer with worker buffers of four bytes. *)
Lemma mtw_Write_accounts_witness :
  exists w' evs',
    MtWriter.Write [1; 2; 3; 4; 5; 6; 7; 8; 9; 10]
      (MtWriter.mk [] 0 None false [] [] [] 2 4) [] = Done (10, None, w', evs') /\
    concat (MtWriter.taskCh w') ++ MtWriter.buf w' = [1; 2; 3; 4; 5; 6; 7; 8; 9; 10].
Proof.
  destruct (mtw_Write_accounts [1; 2; 3; 4; 5; 6; 7; 8; 9; 10]
              (MtWriter.mk [] 0 None false [] [] [] 2 4) [])
    as (n & e & w' & evs' & Hrun & _ & _ & _ & _ & _ & (new & Htask & _ & Hok) & Hquiet).
  - reflexivity.
  - cbn. lia.
  - cbn. lia.
  - assert (Hq : Forall (eq EvGo) (@nil event)) by constructor.
    destruct (Hquiet Hq) as [-> _].
    destruct (Hok eq_refl) as (Hn & Hcat & _).
    cbn in Hn, Hcat, Htask. subst n.
    exists w', evs'. split; [exact Hrun|].
    rewrite Htask. exact Hcat.
Defined.

Lemma mtw_Flush_quiet (w : MtWriter.mtWriter) (evs : list event) :
  MtWriter.err w = None ->
  Forall (eq EvGo) evs ->
  exists w' evs',
    MtWriter.Flush w evs = (None, w', evs') /\
    Forall (eq EvGo) evs' /\
    MtWriter.err w' = None /\
    MtWriter.buf w' = [] /\
    MtWriter.taskCh w' =
    MtWriter.taskCh w ++ (if (0 <? length (MtWriter.buf w))%nat then [MtWriter.buf w] else []) /\
    MtWriter.outCh w' =
    MtWriter.outCh w ++ [MtWriter.mkOutput (0 <? length (MtWriter.buf w))%nat true] /\
    MtWriter.zOut w' = MtWriter.zOut w /\
    MtWriter.cfgWorkerBufferSize w' = MtWriter.cfgWorkerBufferSize w.
Proof.
  intros Herr Hq. unfold MtWriter.Flush. rewrite Herr.
  destruct (nextEvent_quiet evs Hq) as (evs1 & -> & Hq1).
  destruct (mtw_spawn_facts w)
    as (Sbuf & Serr & Scan & Stask & Sout & Sz & Scw & Scb & Swork).
  rewrite Sbuf.
  destruct (0 <? length (MtWriter.buf w))%nat eqn:Eb.
  - destruct (nextEvent_quiet evs1 Hq1) as (evs2 & -> & Hq2).
    destruct (nextEvent_quiet evs2 Hq2) as (evs3 & -> & Hq3).
    destruct (nextEvent_quiet evs3 Hq3) as (evs4 & -> & Hq4).
    eexists _, _. split; [reflexivity|]. cbn.
    rewrite Serr, Stask, Sout, Sz, Scb, Sbuf. repeat split; assumption.
  - destruct (nextEvent_quiet evs1 Hq1) as (evs3 & -> & Hq3).
    destruct (nextEvent_quiet evs3 Hq3) as (evs4 & -> & Hq4).
    eexists _, _. split; [reflexivity|]. cbn.
    rewrite Serr, Stask, Sout, Sz, Scb, Sbuf, app_nil_r.
    apply Nat.ltb_ge in Eb.
    assert (Hnil : MtWriter.buf w = []) by (destruct (MtWriter.buf w); [reflexivity | cbn in Eb; lia]).
    repeat split; assumption.
Qed.

Lemma mtw_Write_quiet (p : list Z) (w : MtWriter.mtWriter) (evs : list event) :
  MtWriter.err w = None ->
  0 < MtWriter.cfgWorkerBufferSize w ->
  Z.of_nat (length (MtWriter.buf w)) <= MtWriter.cfgWorkerBufferSize w ->
  Forall (eq EvGo) evs ->
  exists w' evs',
    MtWriter.Write p w evs = Done (Z.of_nat (length p), None, w', evs') /\
    Forall (eq EvGo) evs' /\
    MtWriter.err w' = None /\
    MtWriter.zOut w' = MtWriter.zOut w /\
    Z.of_nat (length (MtWriter.buf w')) <= MtWriter.cfgWorkerBufferSize w /\
    (exists new,
       MtWriter.taskCh w' = MtWriter.taskCh w ++ new /\
       Forall (fun t => Z.of_nat (length t) = MtWriter.cfgWorkerBufferSize w) new /\
       concat new ++ MtWriter.buf w' = MtWriter.buf w ++ p /\
       MtWriter.outCh w' =
       MtWriter.outCh w ++ replicate (length new) (MtWriter.mkOutput true false)).
Proof.
  intros Herr HB Hbuf Hq. unfold MtWriter.Write. rewrite Herr.
  destruct (nextEvent_quiet evs Hq) as (evs1 & -> & Hq1).
  destruct (mtw_writeLoop_facts (S (S (length p))) p 0 w evs1 HB Hbuf)
    as (n & e & w' & evs' & Hrun & Hpost).
  { destruct (0 <? length (MtWriter.buf w))%nat; lia. }
  destruct Hpost as (Herr' & _ & _ & Hz & _ & Hlen & _ & (new & Htask & Hfull & Hok) & Hquiet).
  destruct (Hquiet Hq1) as [-> Hq'].
  destruct (Hok eq_refl) as (Hn & Hcat & Hout).
  exists w', evs'. rewrite Hrun. replace n with (Z.of_nat (length p)) by lia.
  split; [reflexivity|]. split; [exact Hq'|].
  split; [now rewrite Herr'|]. split; [exact Hz|]. split; [exact Hlen|].
  exists new. repeat split; assumption.
Qed.

(** X12: [Write] and then [Close].  When no error arrives from the output
    routine, [Write] takes all of [p] and [Close] returns no error; the
    tasks handed to the workers by the two calls hold, in order, exactly
    the old buffer followed by [p], each task between one byte and the
    worker buffer size; one output with a data channel was queued per
    task, and the last output carries the flush channel; [Close] has
    written the single zero byte that ends the stream and called [cancel].
    From then on [Write], [Flush] and [Close] return [errClosed] and
    change nothing. *)
Theorem mtw_Write_Close_hands_over
  (p : list Z) (w : MtWriter.mtWriter) (evs : list event) :
  MtWriter.err w = None ->
  0 < MtWriter.cfgWorkerBufferSize w ->
  Z.of_nat (length (MtWriter.buf w)) <= MtWriter.cfgWorkerBufferSize w ->
  Forall (eq EvGo) evs ->
  exists w1 evs1 w2 evs2,
    MtWriter.Write p w evs = Done (Z.of_nat (length p), None, w1, evs1) /\
    MtWriter.Close w1 evs1 = (None, w2, evs2) /\
    (exists new (m : nat) (b : bool),
       MtWriter.taskCh w2 = MtWriter.taskCh w ++ new /\
       concat new = MtWriter.buf w ++ p /\
       Forall (fun t => 0 < Z.of_nat (length t) <= MtWriter.cfgWorkerBufferSize w) new /\
       MtWriter.outCh w2 =
       MtWriter.outCh w ++ replicate m (MtWriter.mkOutput true false)
                        ++ [MtWriter.mkOutput b true] /\
       length new = (m + (if b then 1 else 0))%nat) /\
    MtWriter.buf w2 = [] /\
    MtWriter.zOut w2 = MtWriter.zOut w ++ [0] /\
    MtWriter.err w2 = Some errClosed /\
    MtWriter.cancelled w2 = true /\
    (forall q evs3,
       MtWriter.Write q w2 evs3 = Done (0, Some errClosed, w2, evs3) /\
       MtWriter.Flush w2 evs3 = (Some errClosed, w2, evs3) /\
       MtWriter.Close w2 evs3 = (Some errClosed, w2, evs3)).
Proof.
  intros Herr HB Hbuf Hq.
  destruct (mtw_Write_quiet p w evs Herr HB Hbuf Hq)
    as (w1 & evs1 & Hrun & Hq1 & Herr1 & Hz1 & Hlen1
        & (new & Htask & Hfull & Hcat & Hout)).
  destruct (mtw_Flush_quiet w1 evs1 Herr1 Hq1)
    as (wf & evsf & Hflush & Hqf & Herrf & Hbuff & Htaskf & Houtf & Hzf & Hcbf).
  destruct (nextEvent_quiet evsf Hqf) as (evs2 & Hev & Hq2).
  eexists w1, evs1, _, evs2. split; [exact Hrun|]. split.
  { unfold MtWriter.Close. rewrite Herr1, Hflush, Hev. reflexivity. }
  cbn. split.
  - exists (new ++ (if (0 <? length (MtWriter.buf w1))%nat then [MtWriter.buf w1] else [])),
           (length new), (0 <? length (MtWriter.buf w1))%nat.
    split; [rewrite Htaskf, Htask, <- app_assoc; reflexivity|].
    split.
    { rewrite concat_app, <- Hcat. f_equal.
      destruct (0 <? length (MtWriter.buf w1))%nat eqn:Eb; cbn.
      - now rewrite app_nil_r.
      - apply Nat.ltb_ge in Eb. destruct (MtWriter.buf w1); [reflexivity | cbn in Eb; lia]. }
    split.
    { apply Forall_app. split.
      - eapply Forall_impl; [exact Hfull|]. cbn. intros t Ht. lia.
      - destruct (0 <? length (MtWriter.buf w1))%nat eqn:Eb; [|constructor].
        apply Nat.ltb_lt in Eb. repeat constructor; lia. }
    split.
    { rewrite Houtf, Hout, <- app_assoc. reflexivity. }
    rewrite length_app. destruct (0 <? length (MtWriter.buf w1))%nat; cbn; lia.
  - split; [exact Hbuff|]. split; [now rewrite Hzf, Hz1|].
    split; [reflexivity|]. split; [reflexivity|].
    intros q evs3. unfold MtWriter.Write, MtWriter.Flush, MtWriter.Close. cbn.
    repeat split.
Qed.

(** Ten bytes into a fresh writer with worker buffers of four bytes, then
    [Close]: three tasks, four outputs, the zero byte. *)
Lemma mtw_Write_Close_witness :
  exists w1 evs1 w2 evs2,
    MtWriter.Write [1; 2; 3; 4; 5; 6; 7; 8; 9; 10]
      (MtWriter.mk [] 0 None false [] [] [] 2 4) [] = Done (10, None, w1, evs1) /\
    MtWriter.Close w1 evs1 = (None, w2, evs2) /\
    concat (MtWriter.taskCh w2) = [1; 2; 3; 4; 5; 6; 7; 8; 9; 10] /\
    MtWriter.zOut w2 = [0].
Proof.
  assert (Hq : Forall (eq EvGo) (@nil event)) by constructor.
  destruct (mtw_Write_Close_hands_over [1; 2; 3; 4; 5; 6; 7; 8; 9; 10]
              (MtWriter.mk [] 0 None false [] [] [] 2 4) [])
    as (w1 & evs1 & w2 & evs2 & Hw & Hc & (new & m & b & Htask & Hcat & _) & _ & Hz & _).
  - reflexivity.
  - cbn. lia.
  - cbn. lia.
  - exact Hq.
  - exists w1, evs1, w2, evs2. cbn in Htask, Hcat, Hz.
    split; [exact Hw|]. split; [exact Hc|]. split; [|exact Hz].
    rewrite Htask. exact Hcat.
Defined.

(** ** Further properties: the parallel reader *)

Lemma mtr_readLoop_stream (fuel : nat) :
  forall (k : nat) (acc : list Z) (m : MtReader.mtReader),
    (length acc <= k)%nat ->
    mtr_clean m ->
    ((k - length acc) + 2 * length (MtReader.outCh m)
     + match MtReader.r m with Some _ => 1 | None => 0 end < fuel)%nat ->
    exists e m',
      MtReader.readLoop fuel k acc m
      = Done (acc ++ take (k - length acc) (mtr_pending m), e, m') /\
      mtr_pending m' = drop (k - length acc) (mtr_pending m) /\
      mtr_clean m' /\
      (e = None \/ e = Some EOF) /\
      (e = Some EOF <-> acc = [] /\ (0 < k)%nat /\ mtr_pending m = []) /\
      ((length acc + length (mtr_pending m) < k)%nat -> MtReader.err m' = Some EOF) /\
      ((k <= length acc + length (mtr_pending m))%nat -> MtReader.err m' = MtReader.err m).
Proof.
  induction fuel as [|f IH]; intros k acc m Hacc Hclean Hfuel; [lia|].
  cbn [MtReader.readLoop].
  destruct (Nat.ltb_spec (length acc) k) as [Hlt | Hge]; cbn [negb].
  2:{ exists None, m. replace (k - length acc)%nat with 0%nat by lia.
      rewrite take_0, drop_0, app_nil_r.
      split; [reflexivity|]. split; [reflexivity|]. split; [exact Hclean|].
      split; [now left|]. split; [|split; [lia | reflexivity]].
      split; [discriminate|]. intros (-> & Hk & _). cbn in Hge. lia. }
  destruct m as [err0 r0 out0 can0]. unfold mtr_pending, mtr_clean in *.
  cbn [MtReader.cancelled MtReader.r MtReader.outCh MtReader.err] in *.
  destruct Hclean as [Hr Hout].
  destruct r0 as [t|].
  - (* a reader is at hand *)
    unfold MtReader.taskRead.
    pose proof (Hr t eq_refl) as Hfin.
    destruct t as [bs fin]. cbn [MtReader.bytes MtReader.final] in *. subst fin.
    clear Hr.
    destruct bs as [|b bs']; cbn [MtReader.bytes MtReader.final].
    + (* it is at its end *)
      destruct (IH k (acc ++ []) (MtReader.mk err0 None out0 can0))
        as (e & m' & Hrun & Hpend & Hclean' & He & Heof & Hshort & Hfull).
      * rewrite app_nil_r. exact Hacc.
      * split; [discriminate | exact Hout].
      * rewrite app_nil_r. cbn [MtReader.r MtReader.outCh]. lia.
      * rewrite app_nil_r in *. cbn [MtReader.cancelled MtReader.r MtReader.outCh MtReader.err app] in *.
        exists e, m'. repeat split; try assumption; try tauto.
    + (* it has bytes *)
      remember (b :: bs') as bs eqn:Ebs.
      assert (Hbs : (0 < length bs)%nat) by (subst bs; cbn; lia).
      clear Ebs b bs'.
      set (k' := (k - length acc)%nat) in *.
      destruct (IH k (acc ++ take k' bs)
                  (MtReader.mk err0 (Some (MtReader.mkTaskReader (drop k' bs) EOF)) out0 can0))
        as (e & m' & Hrun & Hpend & Hclean' & He & Heof & Hshort & Hfull).
      * rewrite length_app, length_take. lia.
      * split; [|exact Hout]. intros t Ht. inversion Ht; subst. reflexivity.
      * rewrite length_app, length_take. cbn [MtReader.r MtReader.outCh]. lia.
      * cbn [MtReader.cancelled MtReader.r MtReader.outCh MtReader.err MtReader.bytes] in *.
        rewrite length_app, length_take in *.
        set (rest := concat (map MtReader.bytes out0)) in *.
        assert (Htake : take k' (bs ++ rest)
                        = take k' bs ++ take (k - (length acc + k' `min` length bs))
                                             (drop k' bs ++ rest)).
        { destruct (Nat.le_gt_cases k' (length bs)) as [Hle | Hgt].
          - replace (k - (length acc + k' `min` length bs))%nat with 0%nat by lia.
            rewrite take_0, app_nil_r, take_app_le by lia. reflexivity.
          - rewrite (take_ge bs) by lia. rewrite (drop_ge bs) by lia.
            rewrite take_app_ge by lia. cbn [app]. f_equal. f_equal. lia. }
        assert (Hdrop : drop k' (bs ++ rest)
                        = drop (k - (length acc + k' `min` length bs))
                               (drop k' bs ++ rest)).
        { destruct (Nat.le_gt_cases k' (length bs)) as [Hle | Hgt].
          - replace (k - (length acc + k' `min` length bs))%nat with 0%nat by lia.
            rewrite drop_0, drop_app_le by lia. reflexivity.
          - rewrite (drop_ge bs) by lia. rewrite drop_app_ge by lia.
            cbn [app]. f_equal. lia. }
        exists e, m'. rewrite Hrun, <- app_assoc, Htake, Hdrop.
        split; [reflexivity|]. split; [exact Hpend|]. split; [exact Hclean'|].
        split; [exact He|]. split.
        { split.
          - intros E. apply Heof in E. destruct E as (E & _).
            apply app_eq_nil in E. destruct E as [_ E].
            apply (f_equal length) in E. rewrite length_take in E. cbn in E. lia.
          - intros (_ & _ & E). apply app_eq_nil in E. destruct E as [E _].
            subst bs. cbn in Hbs. lia. }
        rewrite !length_app in *. rewrite length_drop in *. split.
        { intros Hs. apply Hshort. lia. }
        { intros Hs. apply Hfull. lia. }
  - (* no reader at hand *)
    destruct out0 as [|t rest].
    + (* the channel is closed *)
      cbn [map concat app length] in *.
      rewrite take_nil, drop_nil, app_nil_r.
      destruct acc as [|a acc'] eqn:Eacc; cbn [length Nat.eqb].
      * exists (Some EOF), (MtReader.mk (Some EOF) None [] true).
        cbn [MtReader.cancelled MtReader.r MtReader.outCh MtReader.err map concat app].
        split; [reflexivity|]. split; [reflexivity|].
        split; [split; [discriminate | constructor]|].
        split; [now right|]. split; [|split; [reflexivity | cbn in *; lia]].
        split; [intros _; repeat split; cbn in Hlt; lia | reflexivity].
      * exists None, (MtReader.mk (Some EOF) None [] can0).
        cbn [MtReader.cancelled MtReader.r MtReader.outCh MtReader.err map concat app].
        split; [reflexivity|]. split; [reflexivity|].
        split; [split; [discriminate | constructor]|].
        split; [now left|]. split; [|split; [reflexivity | cbn in *; lia]].
        split; [discriminate | intros (E & _); discriminate].
    + (* the next reader arrives *)
      apply Forall_cons in Hout. destruct Hout as [Ht Hrest].
      destruct (IH k acc (MtReader.mk err0 (Some t) rest can0))
        as (e & m' & Hrun & Hpend & Hclean' & He & Heof & Hshort & Hfull).
      * exact Hacc.
      * split; [|exact Hrest]. intros t0 E. inversion E; subst. exact Ht.
      * cbn [MtReader.r MtReader.outCh length] in *. lia.
      * cbn [MtReader.cancelled MtReader.r MtReader.outCh MtReader.err map concat app] in *.
        exists e, m'. repeat split; try assumption; try tauto.
Qed.

(** X13: [mtReader.Read] hands out the decompressed bytes of the tasks in
    the order of the tasks.  When no error is latched and no task failed,
    [Read] with a buffer of [k] bytes returns the first [k] of the bytes
    still to come (all of them when there are fewer) and leaves the rest
    for the next call: it fills the buffer across task boundaries.  It
    returns [io.EOF] only when nothing was left to deliver, and no other
    error; when fewer than [k] bytes were left it latches [io.EOF], so
    every later call returns no bytes and [io.EOF]. *)
Theorem mtr_Read_in_order (k : nat) (m : MtReader.mtReader) :
  MtReader.err m = None ->
  mtr_clean m ->
  exists e m',
    MtReader.Read k m = Done (take k (mtr_pending m), e, m') /\
    mtr_pending m' = drop k (mtr_pending m) /\
    mtr_clean m' /\
    (e = None \/ e = Some EOF) /\
    (e = Some EOF <-> (0 < k)%nat /\ mtr_pending m = []) /\
    ((length (mtr_pending m) < k)%nat ->
     MtReader.err m' = Some EOF /\
     forall k2, MtReader.Read k2 m' = Done ([], Some EOF, m')) /\
    ((k <= length (mtr_pending m))%nat -> MtReader.err m' = None).
Proof.
  intros Herr Hclean. unfold MtReader.Read. rewrite Herr.
  destruct (mtr_readLoop_stream (k + 2 * length (MtReader.outCh m) + 3) k [] m)
    as (e & m' & Hrun & Hpend & Hclean' & He & Heof & Hshort & Hfull).
  - cbn. lia.
  - exact Hclean.
  - cbn [length]. destruct (MtReader.r m); lia.
  - cbn [length app] in *. rewrite Nat.sub_0_r in *.
    exists e, m'. split; [exact Hrun|]. split; [exact Hpend|].
    split; [exact Hclean'|]. split; [exact He|]. split; [|split].
    + rewrite Heof. tauto.
    + intros Hs. pose proof (Hshort Hs) as E. split; [exact E|].
      intros k2. unfold MtReader.Read. rewrite E. reflexivity.
    + intros Hs. rewrite (Hfull Hs). exact Herr.
Qed.

(** Three tasks with the bytes 1 2 3, none, and 4 5; a buffer of four. *)
Lemma mtr_Read_in_order_witness :
  exists e m',
    MtReader.Read 4
      (MtReader.mk None None
         [MtReader.mkTaskReader [1; 2; 3] EOF; MtReader.mkTaskReader [] EOF;
          MtReader.mkTaskReader [4; 5] EOF] false)
    = Done ([1; 2; 3; 4], e, m') /\
    mtr_pending m' = [5].
Proof.
  destruct (mtr_Read_in_order 4
              (MtReader.mk None None
                 [MtReader.mkTaskReader [1; 2; 3] EOF; MtReader.mkTaskReader [] EOF;
                  MtReader.mkTaskReader [4; 5] EOF] false))
    as (e & m' & Hrun & Hpend & _).
  - reflexivity.
  - split; [discriminate|]. repeat constructor.
  - exists e, m'. split; [exact Hrun | exact Hpend].
Defined.

(** ** Further properties: the LZMA2 chunk sequence reader *)

Lemma lzma2_readLoop_fills {ch : Lzma2.ChunkedOps} (fuel : nat) :
  forall (k : nat) (acc : list Z) (r : Lzma2.Reader),
    (k - length acc < fuel)%nat ->
    exists out e r',
      Lzma2.readLoop fuel k acc r = Done (out, e, r') /\
      (exists more, out = acc ++ more) /\
      (e = None -> (k <= length out)%nat /\ Lzma2.err r' = Lzma2.err r).
Proof.
  induction fuel as [|f IH]; intros k acc r Hfuel; [lia|].
  cbn [Lzma2.readLoop].
  destruct (Nat.ltb_spec (length acc) k) as [Hlt | Hge]; cbn [negb].
  2:{ exists acc, None, r. split; [reflexivity|]. split.
      - exists []. now rewrite app_nil_r.
      - intros _. now split. }
  destruct (Lzma2.chunkRead _ (Lzma2.rest r)) as [[out e] i1].
  assert (Hstep : forall e2 i2,
            exists out' e' r',
              match e2 with
              | Some e' => Done (acc ++ out, Some e', Lzma2.mk (Some e') i2)
              | None =>
                  if (length out =? 0)%nat
                  then Done (acc ++ out, Some (NewError "lzma2: Reader doesn't get data"),
                             Lzma2.mk (Lzma2.err r) i2)
                  else Lzma2.readLoop f k (acc ++ out) (Lzma2.mk (Lzma2.err r) i2)
              end = Done (out', e', r') /\
              (exists more, out' = acc ++ more) /\
              (e' = None -> (k <= length out')%nat /\ Lzma2.err r' = Lzma2.err r)).
  { intros [e2|] i2.
    - eexists _, _, _. split; [reflexivity|]. split; [eauto | discriminate].
    - destruct (Nat.eqb_spec (length out) 0) as [Hz | Hnz].
      + eexists _, _, _. split; [reflexivity|]. split; [eauto | discriminate].
      + destruct (IH k (acc ++ out) (Lzma2.mk (Lzma2.err r) i2))
          as (out' & e' & r' & Hrun & (more & Hmore) & Hok).
        * rewrite length_app. lia.
        * exists out', e', r'. split; [exact Hrun|]. split.
          -- exists (out ++ more). now rewrite app_assoc.
          -- exact Hok. }
  destruct e as [e|]; [destruct e|].
  all: cbv beta iota.
  all: try (eexists _, _, _; split; [reflexivity|]; split; [eauto | discriminate]).
  - destruct (Lzma2.startChunk i1) as [e2 i2]. exact (Hstep e2 i2).
  - exact (Hstep None i1).
Qed.

(** X14: [Reader.Read] of the chunk sequence reader returns, and never
    returns short without an error.  With no latched error, [Read] ends
    after at most [len(p)] rounds, since a round that brings no data ends
    it with an error; when it returns no error the buffer is full, and no
    error has been latched. *)
Theorem lzma2_Read_fills {ch : Lzma2.ChunkedOps} (k : nat) (r : Lzma2.Reader) :
  Lzma2.err r = None ->
  exists out e r',
    Lzma2.Read k r = Done (out, e, r') /\
    (e = None -> (k <= length out)%nat /\ Lzma2.err r' = None).
Proof.
  intros Herr. unfold Lzma2.Read. rewrite Herr.
  destruct (lzma2_readLoop_fills (S k) k [] r) as (out & e & r' & Hrun & _ & Hok).
  - cbn. lia.
  - exists out, e, r'. split; [exact Hrun|].
    intros He. destruct (Hok He) as [Hk Hr]. split; [exact Hk | congruence].
Qed.

(** Two reads of the chunk reader, of two bytes and of one, fill a buffer
    of three. *)
Lemma lzma2_Read_fills_witness :
  exists out e r',
    Lzma2.Read (ch := Script.chunked) 3
      (Lzma2.mk (ch := Script.chunked) None [([1; 2], None); ([3], None)])
    = Done (out, e, r') /\
    (e = None -> (3 <= length out)%nat).
Proof.
  destruct (@lzma2_Read_fills Script.chunked 3
              (Lzma2.mk (ch := Script.chunked) None [([1; 2], None); ([3], None)]))
    as (out & e & r' & Hrun & Hok).
  - reflexivity.
  - exists out, e, r'. split; [exact Hrun|]. intros He. apply Hok, He.
Defined.

(** ** Further properties: the encoder's loop *)

Section EncoderLoop.

Context {eops : Writer.EncoderOps} {dops : Writer.DictOps}.

Lemma bestMatch_cases (offsets : list Z) (w : Writer.Writer) :
  Writer.bestMatch offsets w = Err errNoMatch \/
  exists m, Writer.bestMatch offsets w = Ok m /\ 1 <= Writer.m_length m.
Proof.
  unfold Writer.bestMatch.
  destruct (foldl _ (-1, 0) (reverse offsets)) as [off len] eqn:Efold.
  pose proof (bestMatch_fold
                (fun o => Writer.EqualBytes (Writer.Offset (Writer.Dict w)) o
                            Writer.MaxLength (Writer.Dict w))
                (reverse offsets) (-1) 0 off len Efold) as (Hle & _ & Hsel).
  destruct (Z.ltb_spec off 0) as [Hneg | Hpos]; [now left|].
  destruct (_ && _); [now left|].
  right. eexists. split; [reflexivity|]. cbn.
  destruct Hsel as [E | (_ & _ & Hl)]; [inversion E; lia | lia].
Qed.

Lemma process_lowMark (fuel : nat) (flags : Z) :
  forall (w w' : Writer.Writer),
    Writer.process fuel flags w = Done (None, w') ->
    Writer.Readable (Writer.Dict w')
    <= (if Z.land flags Writer.allData =? 0 then Writer.MaxLength - 1 else 0).
Proof.
  induction fuel as [|f IH]; intros w w' H; [discriminate|].
  cbn [Writer.process] in H.
  destruct (Z.ltb_spec (if Z.land flags Writer.allData =? 0
                        then Writer.MaxLength - 1 else 0)
                       (Writer.Readable (Writer.Dict w))) as [Hlt | Hge];
    cbn [negb] in H.
  - destruct (Writer.findOp w) as [[op | e] | |]; try discriminate.
    destruct (Writer.writeOp op w) as [[[] | e] w1]; [|discriminate].
    destruct (Writer.discardOp op w1) as [[[] | e] w2]; [|discriminate].
    exact (IH _ _ H).
  - inversion H; subst. exact Hge.
Qed.

End EncoderLoop.

(** X15: [findOp] always finds an operation when the head can be peeked.
    When [PeekHead] yields at least one byte and no error other than
    [errAgain] or [io.EOF], [findOp] returns an operation and no error:
    the match [bestMatch] chose among the potential offsets, or, when it
    found none, the literal of the first byte peeked; the operation covers
    at least one byte.  With nothing to peek it returns [errEmptyBuf]. *)
Theorem findOp_finds
  {eops : Writer.EncoderOps} {dops : Writer.DictOps}
  (w : Writer.Writer) (p : list Z) (n : Z) (e : option error) :
  Writer.PeekHead 4 (Writer.Dict w) = (p, n, e) ->
  e = None \/ e = Some errAgain \/ e = Some EOF ->
  0 <= n ->
  let offs := Writer.potentialOffsets (take (Z.to_nat n) p) w in
  (n = 0 -> Writer.findOp w = Done (Err errEmptyBuf)) /\
  (0 < n ->
   exists op, Writer.findOp w = Done (Ok op) /\ 1 <= Writer.opLen op /\
     match op with
     | Writer.opLit b =>
         b = default 0 (p !! 0%nat) /\ Writer.bestMatch offs w = Err errNoMatch
     | Writer.opMatch m => Writer.bestMatch offs w = Ok m
     end).
Proof.
  intros Hpeek He Hn offs. unfold Writer.findOp. rewrite Hpeek.
  assert (Hbad : match e with
                 | None | Some errAgain | Some EOF => None
                 | Some e' => Some e'
                 end = @None error)
    by (destruct He as [-> | [-> | ->]]; reflexivity).
  rewrite Hbad. split.
  - intros ->. reflexivity.
  - intros Hpos.
    destruct (Z.leb_spec n 0) as [Hle | _]; [lia|].
    fold offs.
    destruct (bestMatch_cases offs w) as [E | (m & E & Hlen)]; rewrite E.
    + exists (Writer.opLit (default 0 (p !! 0%nat))). split; [reflexivity|].
      cbn. split; [lia | now split].
    + exists (Writer.opMatch m). split; [reflexivity|]. cbn. now split.
Qed.

(** The head holds one byte that repeats nothing: a literal. *)
Lemma findOp_finds_witness :
  let w := @Writer.mkWriter Script.encoder Script.dict [0; 0; 0; 0] 0
             (Props.mkProperties 3 0 2)
             (Script.mkSdict 0 0 1 [] [65]) []
             (Writer.mkParameters 0 false false) in
  exists op, Writer.findOp w = Done (Ok op) /\ 1 <= Writer.opLen op.
Proof.
  intros w.
  destruct (@findOp_finds Script.encoder Script.dict w
              (fst (fst (Writer.PeekHead 4 (Writer.Dict w))))
              (snd (fst (Writer.PeekHead 4 (Writer.Dict w))))
              (snd (Writer.PeekHead 4 (Writer.Dict w))))
    as (_ & Hop).
  - reflexivity.
  - vm_compute. auto.
  - vm_compute. discriminate.
  - destruct Hop as (op & Hrun & Hlen & _); [vm_compute; reflexivity|].
    exists op. split; [exact Hrun | exact Hlen].
Defined.

Section EncoderRounds.

Context {eops : Writer.EncoderOps} {dops : Writer.DictOps}.

Lemma findOp_opLen (w : Writer.Writer) (op : Writer.operation) :
  Writer.findOp w = Done (Ok op) -> 1 <= Writer.opLen op.
Proof.
  unfold Writer.findOp.
  destruct (Writer.PeekHead 4 (Writer.Dict w)) as [[p n] e].
  destruct (match e with
            | None | Some errAgain | Some EOF => None
            | Some e' => Some e'
            end); [discriminate|].
  destruct (n <=? 0); [destruct (n <? 0); discriminate|].
  destruct (bestMatch_cases (Writer.potentialOffsets (take (Z.to_nat n) p) w) w)
    as [E | (m & E & Hlen)]; rewrite E; intros H; inversion H; subst; cbn; lia.
Qed.

Lemma process_rounds (fuel : nat) (flags : Z) :
  forall (w w' : Writer.Writer),
    Writer.process fuel flags w = Done (None, w') ->
    exists ops,
      rounds (if Z.land flags Writer.allData =? 0 then Writer.MaxLength - 1 else 0)
             w ops w' /\
      Forall (fun op => 1 <= Writer.opLen op) ops.
Proof.
  induction fuel as [|f IH]; intros w w' H; [discriminate|].
  cbn [Writer.process] in H.
  destruct (Z.ltb_spec (if Z.land flags Writer.allData =? 0
                        then Writer.MaxLength - 1 else 0)
                       (Writer.Readable (Writer.Dict w))) as [Hlt | Hge];
    cbn [negb] in H.
  - destruct (Writer.findOp w) as [[op | e] | |] eqn:Efind; try discriminate.
    destruct (Writer.writeOp op w) as [[[] | e] w1] eqn:Ewrite; [|discriminate].
    destruct (Writer.discardOp op w1) as [[[] | e] w2] eqn:Ediscard; [|discriminate].
    destruct (IH _ _ H) as (ops & Hrounds & Hlens).
    exists (op :: ops). split.
    + exact (rounds_cons _ w w1 w2 w' op ops Hlt Efind Ewrite Ediscard Hrounds).
    + constructor; [exact (findOp_opLen w op Efind) | exact Hlens].
  - inversion H; subst. exists []. split; constructor.
Qed.

End EncoderRounds.



(** ** Further properties: the reader of uncompressed data *)

Lemma uncompressed_readLoop_stream (fuel : nat) :
  forall (k : nat) (acc : list Z) (r : Uncompressed.uncompressedReader),
    (length acc <= k)%nat ->
    Buffer.wf (Uncompressed.dict r) ->
    0 < Buffer.bufferSize (Uncompressed.dict r) ->
    (length (Uncompressed.z r) < fuel)%nat ->
    exists e r',
      Uncompressed.readLoop fuel k acc r
      = Done (acc ++ take (k - length acc) (Uncompressed.pending r), e, r') /\
      Uncompressed.pending r' = drop (k - length acc) (Uncompressed.pending r) /\
      Buffer.wf (Uncompressed.dict r') /\
      Buffer.bufferSize (Uncompressed.dict r') = Buffer.bufferSize (Uncompressed.dict r) /\
      (e = None \/ e = Some EOF) /\
      (e = None <-> (k <= length acc + length (Uncompressed.pending r))%nat).
Proof.
  induction fuel as [|f IH]; intros k acc r Hacc Hwf Hbs Hfuel; [lia|].
  destruct r as [[data rd bs ws off] z]. unfold Buffer.wf, Uncompressed.pending in *.
  cbn [Uncompressed.dict Uncompressed.z Buffer.rd_pos Buffer.data Buffer.bufferSize] in *.
  cbn [Uncompressed.readLoop]. unfold Buffer.Read.
  cbn [Uncompressed.dict Uncompressed.z Buffer.rd_pos Buffer.data Buffer.bufferSize
       Buffer.windowSize Buffer.off].
  set (k' := (k - length acc)%nat).
  assert (Hk' : k' = (k - length acc)%nat) by reflexivity.
  set (unread := drop rd data).
  assert (Hun : length unread = (length data - rd)%nat) by (unfold unread; apply length_drop).
  destruct (Nat.eqb_spec (length (acc ++ take k' unread)) k) as [Hfull | Hnot].
  - (* the buffer is full *)
    rewrite length_app, length_take in Hfull.
    exists None. eexists. split.
    { f_equal. f_equal. f_equal. rewrite take_app_le by lia. reflexivity. }
    cbn [Uncompressed.dict Uncompressed.z Buffer.rd_pos Buffer.data Buffer.bufferSize].
    split.
    { assert (Hmin : (k' `min` length unread = k')%nat) by lia.
      rewrite length_take, Hmin. rewrite drop_app_le by lia. f_equal.
      unfold unread. rewrite drop_drop. reflexivity. }
    split; [rewrite length_take; lia|]. split; [reflexivity|].
    split; [now left|]. split; [intros _; rewrite length_app; lia | reflexivity].
  - (* everything buffered has been handed out *)
    rewrite length_app, length_take in Hnot.
    assert (Hshort : (length unread < k')%nat) by lia.
    rewrite (take_ge unread) by lia.
    unfold Uncompressed.fillBuffer.
    cbn [Uncompressed.dict Uncompressed.z].
    unfold Buffer.Available, Buffer.Len, Buffer.append.
    cbn [Buffer.rd_pos Buffer.data Buffer.bufferSize Buffer.windowSize Buffer.off].
    rewrite Hun.
    replace (length data - (rd + (length data - rd)))%nat with 0%nat by lia.
    change (Z.of_nat 0) with 0. rewrite Z.sub_0_r.
    set (n := Z.to_nat bs). assert (Hn : (1 <= n)%nat) by (unfold n; lia).
    destruct z as [|b z'] eqn:Ez.
    + (* the input is at its end *)
      rewrite take_nil, drop_nil, app_nil_r. cbn [length].
      destruct (Nat.ltb_spec 0 n) as [_ | Hbad]; [|lia].
      cbn [Uncompressed.dict Uncompressed.z Buffer.rd_pos Buffer.data Buffer.bufferSize].
      rewrite app_nil_r.
      replace (length data - (rd + (length data - rd)))%nat with 0%nat by lia.
      change (0 <? Z.of_nat 0) with false. cbv iota.
      exists (Some EOF). eexists. split.
      { rewrite take_ge by lia. reflexivity. }
      cbn [Uncompressed.dict Uncompressed.z Buffer.rd_pos Buffer.data Buffer.bufferSize].
      split.
      { rewrite app_nil_r. rewrite !drop_ge by lia. reflexivity. }
      split; [lia|]. split; [reflexivity|]. split; [now right|].
      split; [discriminate|]. rewrite ?app_nil_r. intros Hc. exfalso. lia.
    + (* bytes move from the input into the buffer *)
      rewrite <- Ez in *. assert (Hz : (0 < length z)%nat) by (subst z; cbn; lia).
      clear Ez b z'.
      destruct (IH k (acc ++ unread)
                  (Uncompressed.mk
                     (Buffer.mk (data ++ take n z) (rd + (length data - rd)) bs ws off)
                     (drop n z)))
        as (e & r' & Hrun & Hpend & Hwf' & Hbs' & He & Hnone).
      * rewrite length_app. lia.
      * cbn. rewrite length_app. lia.
      * cbn. exact Hbs.
      * cbn. rewrite length_drop. lia.
      * unfold Uncompressed.pending in Hrun, Hpend, Hnone.
        cbn [Uncompressed.dict Uncompressed.z Buffer.rd_pos Buffer.data Buffer.bufferSize]
          in Hrun, Hpend, Hwf', Hbs', Hnone.
        assert (Hnew : drop (rd + (length data - rd)) (data ++ take n z) ++ drop n z = z).
        { rewrite drop_app_ge by lia.
          replace (rd + (length data - rd) - length data)%nat with 0%nat by lia.
          rewrite drop_0. apply take_drop. }
        rewrite Hnew in Hrun, Hpend, Hnone.
        rewrite length_app in Hrun, Hpend, Hnone.
        assert (Hres : (acc ++ unread) ++ take (k - (length acc + length unread)) z
                       = acc ++ take k' (unread ++ z)).
        { rewrite <- app_assoc. f_equal. rewrite take_app_ge by lia.
          f_equal. f_equal. unfold k'. lia. }
        assert (Hrest : drop (k - (length acc + length unread)) z
                        = drop k' (unread ++ z)).
        { rewrite drop_app_ge by lia. f_equal. unfold k'. lia. }
        rewrite Hres in Hrun. rewrite Hrest in Hpend.
        assert (Hlen : Z.of_nat (length (data ++ take n z) - (rd + (length data - rd)))
                       = Z.of_nat (length (take n z))).
        { rewrite length_app. f_equal. lia. }
        exists e, r'.
        split.
        { destruct (length z <? n)%nat;
            cbn [Uncompressed.dict Uncompressed.z Buffer.rd_pos Buffer.data
                 Buffer.bufferSize].
          - rewrite Hlen, length_take.
            destruct (Z.ltb_spec 0 (Z.of_nat (n `min` length z))) as [_ | Hbad]; [|lia].
            exact Hrun.
          - exact Hrun. }
        split; [exact Hpend|]. split; [exact Hwf'|]. split; [exact Hbs'|].
        split; [exact He|]. rewrite Hnone, length_app. lia.
Qed.

(** X17: the reader of uncompressed data is the identity on the stream.
    With a buffer of positive size, [Read] with a buffer of [k] bytes
    returns the first [k] of the bytes still to come (those buffered and
    not yet read, then the input), all of them when there are fewer, and
    leaves the rest for the next call; it returns nil when it could fill
    the buffer and [io.EOF] when the stream ended first, and no other
    error. *)
Theorem uncompressed_Read_identity (k : nat) (r : Uncompressed.uncompressedReader) :
  Buffer.wf (Uncompressed.dict r) ->
  0 < Buffer.bufferSize (Uncompressed.dict r) ->
  exists e r',
    Uncompressed.Read k r = Done (take k (Uncompressed.pending r), e, r') /\
    Uncompressed.pending r' = drop k (Uncompressed.pending r) /\
    Buffer.wf (Uncompressed.dict r') /\
    Buffer.bufferSize (Uncompressed.dict r') = Buffer.bufferSize (Uncompressed.dict r) /\
    (e = None <-> (k <= length (Uncompressed.pending r))%nat) /\
    (e <> None -> e = Some EOF).
Proof.
  intros Hwf Hbs. unfold Uncompressed.Read.
  destruct (uncompressed_readLoop_stream (S (length (Uncompressed.z r))) k [] r)
    as (e & r' & Hrun & Hpend & Hwf' & Hbs' & He & Hnone).
  - cbn. lia.
  - exact Hwf.
  - exact Hbs.
  - lia.
  - cbn [length app] in *. rewrite Nat.sub_0_r in *.
    exists e, r'. split; [exact Hrun|]. split; [exact Hpend|].
    split; [exact Hwf'|]. split; [exact Hbs'|]. split; [exact Hnone|].
    intros Hne. destruct He as [-> | ->]; [contradiction | reflexivity].
Qed.

(** One byte buffered and unread, three to come, a buffer of two bytes in
    the dictionary: a read of three crosses from the buffer into the
    input. *)
Lemma uncompressed_Read_identity_witness :
  exists e r',
    Uncompressed.Read 3
      (Uncompressed.mk (Buffer.mk [7; 8] 1 2 2 0) [1; 2; 3])
    = Done ([8; 1; 2], e, r') /\
    Uncompressed.pending r' = [3].
Proof.
  destruct (uncompressed_Read_identity 3
              (Uncompressed.mk (Buffer.mk [7; 8] 1 2 2 0) [1; 2; 3]))
    as (e & r' & Hrun & Hpend & _).
  - unfold Buffer.wf. cbn. lia.
  - cbn. lia.
  - exists e, r'. split; [exact Hrun | exact Hpend].
Defined.

(** ** Further properties: the configuration of the LZMA2 writer *)

(** X18: what [fixSBConfig] establishes.  For a window size from 0 up to
    2^62 (twice the size fits an [int]) the result does not depend on the
    sizes the configuration held before: the window size is the one
    given, the shrink size is the larger of the window size and 64 KiB,
    the buffer size the larger of twice the window size and 256 KiB; so
    the shrink size is neither below the window size nor below the size
    of an uncompressed chunk, the buffer holds the shrink size and two
    windows, and applying the function again changes nothing. *)
Theorem fixSBConfig_bounds (cfg : Writer2.SBConfig) (ws : Z) :
  0 <= ws < 2 ^ 62 ->
  let c := Writer2.fixSBConfig cfg ws in
  Writer2.WindowSize c = ws /\
  Writer2.ShrinkSize c = Z.max ws (2 ^ 16) /\
  Writer2.BufferSize c = Z.max (2 * ws) (2 ^ 18) /\
  Writer2.WindowSize c <= Writer2.ShrinkSize c <= Writer2.BufferSize c /\
  2 * Writer2.WindowSize c <= Writer2.BufferSize c /\
  Writer2.fixSBConfig c (Writer2.WindowSize c) = c.
Proof.
  intros Hws c.
  assert (Hc : c = Writer2.mkSB ws (Z.max ws (2 ^ 16)) (Z.max (2 * ws) (2 ^ 18))).
  { subst c. unfold Writer2.fixSBConfig, Writer2.minBufferSize, Writer2.minShrinkSize.
    cbn [Writer2.WindowSize Writer2.ShrinkSize Writer2.BufferSize].
    rewrite wrap64_small by lia.
    destruct (Z.ltb_spec (2 * ws) (256 * 2 ^ 10));
      cbn [Writer2.WindowSize Writer2.ShrinkSize Writer2.BufferSize];
      destruct (Z.ltb_spec ws (2 ^ 16));
      cbn [Writer2.WindowSize Writer2.ShrinkSize Writer2.BufferSize];
      f_equal; lia. }
  rewrite Hc. cbn [Writer2.WindowSize Writer2.ShrinkSize Writer2.BufferSize].
  repeat split; try lia.
  unfold Writer2.fixSBConfig, Writer2.minBufferSize, Writer2.minShrinkSize.
  cbn [Writer2.WindowSize Writer2.ShrinkSize Writer2.BufferSize].
  rewrite wrap64_small by lia.
  destruct (Z.ltb_spec (2 * ws) (256 * 2 ^ 10));
    cbn [Writer2.WindowSize Writer2.ShrinkSize Writer2.BufferSize];
    destruct (Z.ltb_spec ws (2 ^ 16));
    cbn [Writer2.WindowSize Writer2.ShrinkSize Writer2.BufferSize];
    f_equal; lia.
Qed.

(** A window of 4096 bytes. *)
Lemma fixSBConfig_bounds_witness :
  Writer2.fixSBConfig (Writer2.mkSB 1 2 3) 4096 = Writer2.mkSB 4096 65536 262144 /\
  Writer2.ShrinkSize (Writer2.fixSBConfig (Writer2.mkSB 1 2 3) 4096) = Z.max 4096 (2 ^ 16).
Proof.
  split; [reflexivity|].
  destruct (fixSBConfig_bounds (Writer2.mkSB 1 2 3) 4096) as (_ & H & _).
  - lia.
  - exact H.
Defined.

Section Writer2Facts.

Context {lz : Writer2.LzOps}.

(** A store through the pointer that [BufferConfig] returns is seen by the
    next [BufferConfig]. *)
Hypothesis store_seen :
  forall sb c, Writer2.BufferConfig (Writer2.setBufferConfig sb c) = sb.

Lemma ApplyDefaults_facts (gm : Z) (cfg cfg' : Writer2.Writer2Config) :
  1 <= gm ->
  Writer2.ApplyDefaults gm cfg = Done cfg' ->
  (exists c, Writer2.LZ cfg' = Some c) /\
  Writer2.Workers cfg' = (if Writer2.Workers cfg =? 0 then gm else Writer2.Workers cfg) /\
  Writer2.WorkerBufferSize cfg' =
  (if (Writer2.WorkerBufferSize cfg =? 0) && (1 <? Writer2.Workers cfg')
   then 2 ^ 20 else Writer2.WorkerBufferSize cfg) /\
  (1 < Writer2.Workers cfg' -> Writer2.WorkerBufferSize cfg = 0 ->
   forall c, Writer2.LZ cfg' = Some c ->
     2 ^ 20 <= Writer2.BufferSize (Writer2.BufferConfig c)).
Proof.
  intros Hgm H. unfold Writer2.ApplyDefaults in H.
  match type of H with
  | match ?made with _ => _ end = _ => destruct made as [c | |]; try discriminate
  end.
  set (wk := if Writer2.Workers cfg =? 0 then gm else Writer2.Workers cfg) in *.
  destruct (Z.eqb_spec (Writer2.WorkerBufferSize cfg) 0) as [Hz | Hnz];
    destruct (Z.ltb_spec 1 wk) as [Hw | Hw]; cbn [andb] in H;
    inversion H; subst cfg'; clear H;
    cbn [Writer2.LZ Writer2.Workers Writer2.WorkerBufferSize]; fold wk.
  all: try (destruct (Z.eqb_spec (Writer2.WorkerBufferSize cfg) 0); [|lia]).
  all: try (destruct (Z.eqb_spec (Writer2.WorkerBufferSize cfg) 0); [lia|]).
  all: try (destruct (Z.ltb_spec 1 wk); [|lia]).
  all: try (destruct (Z.ltb_spec 1 wk); [lia|]).
  all: cbn [andb].
  all: split; [eauto|]; split; [reflexivity|]; split; [reflexivity|].
  all: intros Hw' Hz' c0 Hc0; try lia.
  inversion Hc0; subst c0; clear Hc0.
  match goal with
  | |- context [if ?b then _ else _] => destruct b eqn:Eb
  end.
  - rewrite store_seen. cbn. lia.
  - apply Z.ltb_ge in Eb. exact Eb.
Qed.

End Writer2Facts.

(** X19: what [NewWriter2Config] grants the parallel writer.  Provided a
    store through the pointer of [BufferConfig()] is seen by later calls
    and [GOMAXPROCS] is at least one: a configuration that ends in the
    parallel writer has at least two workers and a worker buffer size
    above zero that the sequence buffer holds, with properties that
    [Verify] accepts; the given numbers of workers and the given worker
    buffer size are kept when they are not zero, and 1 MiB stands for a
    worker buffer size of zero; the writer without workers is built for
    exactly one worker.  The check of the worker buffer size against the
    sequence buffer in [Verify] never fails here, as the buffer was
    raised before. *)
Theorem NewWriter2Config_parallel
  {lz : Writer2.LzOps} (gm : Z) (cfg : Writer2.Writer2Config) :
  (forall sb c, Writer2.BufferConfig (Writer2.setBufferConfig sb c) = sb) ->
  1 <= gm ->
  (forall c, Writer2.NewWriter2Config gm cfg = Done (Ok (Writer2.MultiWriter c)) ->
     2 <= Writer2.Workers c /\
     0 < Writer2.WorkerBufferSize c /\
     (exists l, Writer2.LZ c = Some l /\
                Writer2.WorkerBufferSize c <= Writer2.BufferSize (Writer2.BufferConfig l)) /\
     Props.Verify (Writer2.Properties c) = None /\
     (Writer2.Workers cfg <> 0 -> Writer2.Workers c = Writer2.Workers cfg) /\
     (Writer2.WorkerBufferSize cfg <> 0 ->
      Writer2.WorkerBufferSize c = Writer2.WorkerBufferSize cfg) /\
     (Writer2.WorkerBufferSize cfg = 0 -> Writer2.WorkerBufferSize c = 2 ^ 20)) /\
  (forall c, Writer2.NewWriter2Config gm cfg = Done (Ok (Writer2.SingleWriter c)) ->
     Writer2.Workers c = 1) /\
  (forall e, Writer2.NewWriter2Config gm cfg = Done (Err e) ->
     e <> NewError
            "lzma: sequence buffer size must be less or equal than worker buffer size" \/
     exists l p, Writer2.lzVerify l = Some e \/ Props.Verify p = Some e \/
                 Writer2.newChunkWriter l p = Some e).
Proof.
  intros Hstore Hgm.
  unfold Writer2.NewWriter2Config.
  destruct (Writer2.ApplyDefaults gm cfg) as [cfg1 | |] eqn:Eapp;
    try (repeat split; intros; discriminate).
  destruct (ApplyDefaults_facts Hstore gm cfg cfg1 Hgm Eapp)
    as ((c1 & Hlz) & Hwk & Hwbs & Hbuf).
  rewrite Hlz.
  set (c2 := if (1 <? Writer2.Workers cfg1) &&
                (Writer2.BufferSize (Writer2.BufferConfig c1) <?
                 Writer2.WorkerBufferSize cfg1)
             then Writer2.setBufferConfig
                    (Writer2.mkSB (Writer2.WindowSize (Writer2.BufferConfig c1))
                       (Writer2.ShrinkSize (Writer2.BufferConfig c1))
                       (Writer2.WorkerBufferSize cfg1)) c1
             else c1).
  assert (Hraised : 1 < Writer2.Workers cfg1 ->
            Writer2.WorkerBufferSize cfg1 <= Writer2.BufferSize (Writer2.BufferConfig c2)).
  { intros Hw. subst c2. destruct (Z.ltb_spec 1 (Writer2.Workers cfg1)); [|lia].
    cbn [andb].
    destruct (Z.ltb_spec (Writer2.BufferSize (Writer2.BufferConfig c1))
                         (Writer2.WorkerBufferSize cfg1)).
    - rewrite Hstore. cbn. lia.
    - lia. }
  unfold Writer2.Verify, Writer2.set_LZ.
  cbn [Writer2.LZ Writer2.Properties Writer2.Workers Writer2.WorkerBufferSize].
  destruct (Writer2.lzVerify c2) as [e1|] eqn:Elz.
  { repeat split; try (intros; discriminate).
    intros e He. inversion He; subst. right. exists c2, (Writer2.Properties cfg1). auto. }
  destruct (Props.Verify (Writer2.Properties cfg1)) as [e2|] eqn:Eprops.
  { repeat split; try (intros; discriminate).
    intros e He. inversion He; subst. right. exists c2, (Writer2.Properties cfg1). auto. }
  destruct (Z.ltb_spec (Writer2.Workers cfg1) 0) as [Hneg | Hnonneg].
  { repeat split; try (intros; discriminate).
    intros e He. inversion He; subst. left. discriminate. }
  destruct (Z.ltb_spec 1 (Writer2.Workers cfg1)) as [Hmany | Hfew]; cbn [andb].
  - destruct (Z.leb_spec (Writer2.WorkerBufferSize cfg1) 0) as [Hle | Hpos].
    { repeat split; try (intros; discriminate).
      intros e He. inversion He; subst. left. discriminate. }
    destruct (Z.ltb_spec (Writer2.BufferSize (Writer2.BufferConfig c2))
                         (Writer2.WorkerBufferSize cfg1)) as [Hbad | Hok].
    { specialize (Hraised Hmany). lia. }
    destruct (Z.eqb_spec (Writer2.Workers cfg1) 1) as [Hone | _]; [lia|].
    split; [|split; intros; discriminate].
    intros c Hc. inversion Hc; subst c; clear Hc.
    cbn [Writer2.LZ Writer2.Properties Writer2.Workers Writer2.WorkerBufferSize].
    split; [lia|]. split; [lia|]. split; [exists c2; split; [reflexivity | lia]|].
    split; [exact Eprops|]. split.
    { intros Hnz. rewrite Hwk. destruct (Z.eqb_spec (Writer2.Workers cfg) 0); [lia|].
      reflexivity. }
    destruct (Z.ltb_spec 1 (Writer2.Workers cfg1)) as [_ | Hc]; [|lia].
    rewrite andb_true_r in Hwbs.
    split; intros Hz; rewrite Hwbs;
      destruct (Z.eqb_spec (Writer2.WorkerBufferSize cfg) 0); try lia; reflexivity.
  - destruct (Z.eqb_spec (Writer2.Workers cfg1) 1) as [Hone | Hnot].
    + destruct (Writer2.newChunkWriter c2 (Writer2.Properties cfg1)) as [e3|] eqn:Ecw.
      * repeat split; try (intros; discriminate).
        intros e He. inversion He; subst. right.
        exists c2, (Writer2.Properties cfg1). auto.
      * split; [intros; discriminate|]. split; [|intros; discriminate].
        intros c Hc. inversion Hc; subst c. exact Hone.
    + (* no workers at all: GOMAXPROCS is at least one *)
      exfalso. rewrite Hwk in Hfew, Hnot, Hnonneg.
      destruct (Z.eqb_spec (Writer2.Workers cfg) 0); lia.
Qed.

(** The zero configuration on a machine with four processors: a parallel
    writer with four workers and worker buffers of 1 MiB. *)
Lemma NewWriter2Config_parallel_witness :
  let cfg := @Writer2.mkConfig Script_lz 0 (Props.mkProperties 0 0 0) false 0 0 None in
  exists c, Writer2.NewWriter2Config 4 cfg = Done (Ok (Writer2.MultiWriter c)) /\
            2 <= Writer2.Workers c /\ Writer2.WorkerBufferSize c = 2 ^ 20.
Proof.
  intros cfg.
  destruct (@NewWriter2Config_parallel Script_lz 4 cfg) as (Hmulti & _).
  - intros sb c. reflexivity.
  - lia.
  - eexists. split; [vm_compute; reflexivity|].
    match goal with
    | |- 2 <= Writer2.Workers ?c /\ _ =>
        destruct (Hmulti c) as (Hw & _ & _ & _ & _ & _ & Hb);
        [vm_compute; reflexivity|]
    end.
    split; [exact Hw | apply Hb; reflexivity].
Defined.

(** ** Further properties: the stream parameters *)

Section ParamFacts.

Context {ops : Params.ParamOps}.

Ltac params_simpl :=
  cbn [Params.LC Params.LP Params.PB Params.DictSize Params.Size Params.SizeInHeader
       Params.EOS Params.ExtraBufSize Params.set_DictSize Params.set_ExtraBufSize].

Lemma normalizeDictSize_facts (p : Params.Parameters) :
  0 < Params.MinDictSize ->
  let q := Params.normalizeDictSize p in
  Params.MinDictSize <= Params.DictSize q /\
  (Params.DictSize p = 0 -> Params.MinDictSize <= 8 * 1024 * 1024 ->
   Params.DictSize q = 8 * 1024 * 1024) /\
  (Params.MinDictSize <= Params.DictSize p -> Params.DictSize q = Params.DictSize p) /\
  q = Params.set_DictSize (Params.DictSize q) p /\
  Params.normalizeDictSize q = q.
Proof.
  intros Hmin q. subst q. destruct p as [lc lp pb d sz sh eos x].
  unfold Params.normalizeDictSize, Params.Default. params_simpl.
  destruct (Z.eqb_spec d 0) as [Hd | Hd]; params_simpl.
  - destruct (Z.ltb_spec (8 * 1024 * 1024) Params.MinDictSize) as [Hlow | Hlow];
      params_simpl.
    + split; [lia|]. split; [lia|]. split; [lia|]. split; [reflexivity|].
      destruct (Z.eqb_spec Params.MinDictSize 0); [lia|]. params_simpl.
      destruct (Z.ltb_spec Params.MinDictSize Params.MinDictSize); [lia|]. reflexivity.
    + split; [lia|]. split; [reflexivity|]. split; [lia|]. split; [reflexivity|].
      change (8 * 1024 * 1024 =? 0) with false. params_simpl.
      destruct (Z.ltb_spec (8 * 1024 * 1024) Params.MinDictSize); [lia|]. reflexivity.
  - destruct (Z.ltb_spec d Params.MinDictSize) as [Hlow | Hlow]; params_simpl.
    + split; [lia|]. split; [lia|]. split; [lia|]. split; [reflexivity|].
      destruct (Z.eqb_spec Params.MinDictSize 0); [lia|]. params_simpl.
      destruct (Z.ltb_spec Params.MinDictSize Params.MinDictSize); [lia|]. reflexivity.
    + split; [lia|]. split; [lia|]. split; [reflexivity|]. split; [reflexivity|].
      destruct (Z.eqb_spec d 0); [lia|]. params_simpl.
      destruct (Z.ltb_spec d Params.MinDictSize); [lia|]. reflexivity.
Qed.

Lemma Verify_normalized (q : Params.Parameters) :
  Params.MinDictSize <= Params.DictSize q ->
  0 <= Params.ExtraBufSize q ->
  (Params.Verify q = None <->
   Params.verifyProperties (Params.LC q) (Params.LP q) (Params.PB q) = None /\
   Params.DictSize q <= Params.MaxDictSize /\
   Params.DictSize q = Params.toInt (Params.DictSize q) /\
   0 <= Params.Size q /\
   wrap64 (Params.DictSize q + Params.ExtraBufSize q)
   = Params.toInt (wrap64 (Params.DictSize q + Params.ExtraBufSize q))).
Proof.
  intros Hd Hx. unfold Params.Verify.
  destruct (Params.verifyProperties _ _ _) as [e|].
  { split; [discriminate | intros (Hc & _); discriminate]. }
  destruct (Z.leb_spec Params.MinDictSize (Params.DictSize q)) as [_ | Hc]; [|lia].
  destruct (Z.leb_spec (Params.DictSize q) Params.MaxDictSize) as [Hmax | Hmax];
    cbn [andb negb].
  2:{ split; [discriminate | intros (_ & Hc & _); lia]. }
  destruct (Z.eqb_spec (Params.DictSize q) (Params.toInt (Params.DictSize q)))
    as [Hint | Hint]; cbn [negb].
  2:{ split; [discriminate | intros (_ & _ & Hc & _); contradiction]. }
  destruct (Z.ltb_spec (Params.Size q) 0) as [Hsz | Hsz].
  { split; [discriminate | intros (_ & _ & _ & Hc & _); lia]. }
  destruct (Z.ltb_spec (Params.ExtraBufSize q) 0) as [Hc | _]; [lia|].
  destruct (Z.eqb_spec (wrap64 (Params.DictSize q + Params.ExtraBufSize q))
              (Params.toInt (wrap64 (Params.DictSize q + Params.ExtraBufSize q))))
    as [Hbuf | Hbuf]; cbn [negb].
  - split; [intros _; repeat split; assumption | reflexivity].
  - split; [discriminate | intros (_ & _ & _ & _ & Hc); contradiction].
Qed.

End ParamFacts.

(** X20: what the normalising methods establish for [Verify].  With a
    smallest dictionary size above zero, [normalizeReaderSizes] and
    [normalizeWriterSizes] bring the dictionary size to at least
    [MinDictSize] (8 MiB for zero) and the extra buffer size to at least 0
    for a reader and above 0 for a writer (4096 when it was not), leave
    every other field alone, and change nothing when applied again.  After
    either of them [Verify] passes exactly when the properties pass, the
    dictionary size is at most [MaxDictSize] and fits an [int], the size
    is not negative and dictionary plus extra buffer fit an [int]: the
    lower bound of the dictionary size and the sign of the extra buffer
    size can no longer fail. *)
Theorem normalize_then_Verify {ops : Params.ParamOps} (p : Params.Parameters) :
  0 < Params.MinDictSize ->
  let r := Params.normalizeReaderSizes p in
  let w := Params.normalizeWriterSizes p in
  (Params.MinDictSize <= Params.DictSize r /\ Params.DictSize w = Params.DictSize r /\
   (Params.DictSize p = 0 -> Params.MinDictSize <= 8 * 1024 * 1024 ->
    Params.DictSize r = 8 * 1024 * 1024) /\
   (Params.MinDictSize <= Params.DictSize p -> Params.DictSize r = Params.DictSize p)) /\
  (Params.ExtraBufSize r = Z.max 0 (Params.ExtraBufSize p) /\
   Params.ExtraBufSize w =
   (if Params.ExtraBufSize p <=? 0 then 4096 else Params.ExtraBufSize p)) /\
  (Params.normalizeReaderSizes r = r /\ Params.normalizeWriterSizes w = w) /\
  (forall q, q = r \/ q = w ->
     (Params.LC q, Params.LP q, Params.PB q, Params.Size q,
      Params.SizeInHeader q, Params.EOS q)
     = (Params.LC p, Params.LP p, Params.PB p, Params.Size p,
        Params.SizeInHeader p, Params.EOS p) /\
     (Params.Verify q = None <->
      Params.verifyProperties (Params.LC p) (Params.LP p) (Params.PB p) = None /\
      Params.DictSize q <= Params.MaxDictSize /\
      Params.DictSize q = Params.toInt (Params.DictSize q) /\
      0 <= Params.Size p /\
      wrap64 (Params.DictSize q + Params.ExtraBufSize q)
      = Params.toInt (wrap64 (Params.DictSize q + Params.ExtraBufSize q)))).
Proof.
  intros Hmin r w. subst r w.
  unfold Params.normalizeReaderSizes, Params.normalizeWriterSizes.
  destruct (normalizeDictSize_facts p Hmin) as (Hlow & Hzero & Hkeep & Hshape & _).
  remember (Params.normalizeDictSize p) as q eqn:Eq. clear Eq.
  destruct p as [lc lp pb d sz sh eos x].
  destruct q as [lc' lp' pb' d' sz' sh' eos' x'].
  cbn [Params.LC Params.LP Params.PB Params.DictSize Params.Size Params.SizeInHeader
       Params.EOS Params.ExtraBufSize Params.set_DictSize] in *.
  inversion Hshape; subst lc' lp' pb' sz' sh' eos' x'. clear Hshape.
  assert (Hnorm : forall x0, Params.normalizeDictSize (Params.mk lc lp pb d' sz sh eos x0)
                             = Params.mk lc lp pb d' sz sh eos x0).
  { intros x0. unfold Params.normalizeDictSize.
    cbn [Params.DictSize]. destruct (Z.eqb_spec d' 0); [lia|].
    cbn [Params.DictSize]. destruct (Z.ltb_spec d' Params.MinDictSize); [lia|].
    reflexivity. }
  unfold Params.normalizeReaderExtraBufSize, Params.normalizeWriterExtraBufSize,
    Params.set_ExtraBufSize.
  cbn [Params.LC Params.LP Params.PB Params.DictSize Params.Size Params.SizeInHeader
       Params.EOS Params.ExtraBufSize].
  destruct (Z.ltb_spec x 0) as [Hx | Hx]; destruct (Z.leb_spec x 0) as [Hx' | Hx'];
    try lia;
    cbn [Params.LC Params.LP Params.PB Params.DictSize Params.Size Params.SizeInHeader
         Params.EOS Params.ExtraBufSize].
  all: split; [split; [exact Hlow|]; split; [reflexivity|]; split; assumption|].
  all: split; [split; [lia | reflexivity]|].
  all: split;
    [split; rewrite Hnorm;
     cbn [Params.LC Params.LP Params.PB Params.DictSize Params.Size Params.SizeInHeader
          Params.EOS Params.ExtraBufSize];
     match goal with
     | |- context [?a <? 0] => destruct (Z.ltb_spec a 0); [lia | reflexivity]
     | |- context [?a <=? 0] => destruct (Z.leb_spec a 0); [lia | reflexivity]
     end|].
  all: intros q [-> | ->]; (split; [reflexivity|]);
    rewrite Verify_normalized
      by (cbn [Params.DictSize Params.ExtraBufSize]; lia);
    reflexivity.
Qed.

(** A zero value: 8 MiB of dictionary; a writer gets 4096 bytes of extra
    buffer. *)
Lemma normalize_then_Verify_witness :
  let p := Params.mk 3 0 2 0 0 false false 0 in
  Params.DictSize (Params.normalizeWriterSizes (ops := Script_params) p) = 8 * 1024 * 1024 /\
  Params.Verify (ops := Script_params)
    (Params.normalizeWriterSizes (ops := Script_params) p) = None.
Proof.
  intros p.
  destruct (@normalize_then_Verify Script_params p) as ((_ & Hd & Hz & _) & _ & _ & Hv).
  - cbn. lia.
  - split.
    + rewrite Hd. apply Hz; [reflexivity | cbn; lia].
    + destruct (Hv (Params.normalizeWriterSizes (ops := Script_params) p)) as (_ & Hiff);
        [now right|].
      apply Hiff. split; [reflexivity|]. split; [vm_compute; discriminate|].
      split; [vm_compute; reflexivity|]. split; [vm_compute; discriminate|].
      vm_compute; reflexivity.
Defined.

(** ** Further properties: the LZMA2 filter record *)

(** X21: what [UnmarshalBinary] of the filter accepts, and that it reads
    what [MarshalBinary] writes.  The data is accepted exactly when it is
    the filter id 0x21, the size 1 and a byte that [DecodeDictSize]
    accepts, and the filter then holds the decoded size; on every error
    the filter is left as it was.  The record [MarshalBinary] writes has
    these three bytes, so it is read back, with the size its byte decodes
    to, whenever that byte decodes. *)
Theorem lzmaFilter_unmarshal_accepts
  {codec : LzmaFilter.DictSizeCodec} (data : list Z) (f f0 : LzmaFilter.lzmaFilter) :
  (forall dc, LzmaFilter.UnmarshalBinary data f0 = (None, LzmaFilter.mk dc) <->
     exists c, data = [LzmaFilter.lzmaFilterID; 1; c] /\
               LzmaFilter.DecodeDictSize c = Ok dc) /\
  (forall e f1, LzmaFilter.UnmarshalBinary data f0 = (Some e, f1) -> f1 = f0) /\
  snd (LzmaFilter.MarshalBinary f) = None /\
  (forall dc,
     LzmaFilter.DecodeDictSize (LzmaFilter.EncodeDictSize (LzmaFilter.dictSize f)) = Ok dc ->
     LzmaFilter.UnmarshalBinary (fst (LzmaFilter.MarshalBinary f)) f0
     = (None, LzmaFilter.mk dc)).
Proof.
  split; [|split; [|split; [reflexivity|]]].
  - intros dc. unfold LzmaFilter.UnmarshalBinary, LzmaFilter.lzmaFilterLen.
    destruct data as [|a [|b [|c [|x data']]]]; cbn [length Nat.eqb negb];
      try (split; [discriminate | intros (c0 & Hc & _); discriminate]).
    change (default 0 ([a; b; c] !! 0%nat)) with a.
    change (default 0 ([a; b; c] !! 1%nat)) with b.
    change (default 0 ([a; b; c] !! 2%nat)) with c.
    destruct (Z.eqb_spec a LzmaFilter.lzmaFilterID) as [Ha | Ha]; cbn [negb].
    2:{ split; [discriminate | intros (c0 & Hc & _); inversion Hc; contradiction]. }
    destruct (Z.eqb_spec b 1) as [Hb | Hb]; cbn [negb].
    2:{ split; [discriminate | intros (c0 & Hc & _); inversion Hc; contradiction]. }
    subst a b.
    destruct (LzmaFilter.DecodeDictSize c) as [dc0 | e] eqn:Edec.
    + split.
      * intros H. inversion H; subst. exists c. now split.
      * intros (c0 & Hc & Hd). inversion Hc; subst c0. congruence.
    + split; [discriminate|].
      intros (c0 & Hc & Hd). inversion Hc; subst c0. congruence.
  - intros e f1. unfold LzmaFilter.UnmarshalBinary.
    destruct (negb _); [intros H; now inversion H|].
    destruct (negb _); [intros H; now inversion H|].
    destruct (negb _); [intros H; now inversion H|].
    destruct (LzmaFilter.DecodeDictSize _); intros H; inversion H. reflexivity.
  - intros dc Hdc. unfold LzmaFilter.MarshalBinary, LzmaFilter.UnmarshalBinary.
    cbn [fst length Nat.eqb negb LzmaFilter.lzmaFilterLen].
    change (default 0 ([LzmaFilter.lzmaFilterID; 1;
                        LzmaFilter.EncodeDictSize (LzmaFilter.dictSize f)] !! 0%nat))
      with LzmaFilter.lzmaFilterID.
    change (default 0 ([LzmaFilter.lzmaFilterID; 1;
                        LzmaFilter.EncodeDictSize (LzmaFilter.dictSize f)] !! 1%nat))
      with 1.
    change (default 0 ([LzmaFilter.lzmaFilterID; 1;
                        LzmaFilter.EncodeDictSize (LzmaFilter.dictSize f)] !! 2%nat))
      with (LzmaFilter.EncodeDictSize (LzmaFilter.dictSize f)).
    rewrite Z.eqb_refl. cbn [negb]. change (1 =? 1) with true. cbn [negb].
    rewrite Hdc. reflexivity.
Qed.

(** ** Further properties: reading a header back *)

Lemma getLE_bound (n : nat) :
  forall bs, Forall is_byte bs -> 0 <= Header.getLE n bs < 256 ^ Z.of_nat n.
Proof.
  induction n as [|n IH]; intros bs Hbs.
  - cbn. lia.
  - rewrite Nat2Z.inj_succ, Z.pow_succ_r by lia.
    destruct bs as [|b bs']; cbn [Header.getLE].
    + pose proof (Z.pow_pos_nonneg 256 (Z.of_nat n)). lia.
    + apply Forall_cons in Hbs. destruct Hbs as [Hb Hbs']. unfold is_byte in Hb.
      specialize (IH bs' Hbs'). lia.
Qed.

Lemma putLE_getLE (n : nat) :
  forall bs, length bs = n -> Forall is_byte bs ->
             Header.putLE n (Header.getLE n bs) = bs.
Proof.
  induction n as [|n IH]; intros bs Hlen Hbs.
  - destruct bs; [reflexivity | discriminate].
  - destruct bs as [|b bs']; [discriminate|].
    apply Forall_cons in Hbs. destruct Hbs as [Hb Hbs']. unfold is_byte in Hb.
    cbn [Header.getLE Header.putLE]. cbn [length] in Hlen.
    replace ((b + 256 * Header.getLE n bs') mod 256) with b.
    2:{ rewrite (Z.mul_comm 256), Z.mod_add by lia. symmetry. apply Z.mod_small. lia. }
    replace ((b + 256 * Header.getLE n bs') / 256) with (Header.getLE n bs').
    2:{ rewrite (Z.mul_comm 256), Z.div_add by lia.
        rewrite (Z.div_small b) by lia. lia. }
    f_equal. apply IH; [lia | exact Hbs'].
Qed.

(** X22: a header that [UnmarshalBinary] accepts.  For input bytes, a
    header is accepted exactly when it has 13 bytes and the first is at
    most 224.  The header read then has properties that [Verify] accepts,
    a dictionary size below 2^32 and a size below 2^64; [AppendBinary]
    writes it back as the very bytes it was read from; and [Verify] of
    the header can only fail on the dictionary size: it passes exactly
    when that is at least [minDictSize] and at most [math.MaxInt]. *)
Theorem header_unmarshal_then_Verify
  (x : list Z) (h0 : Header.params) (maxInt : Z) :
  Forall is_byte x ->
  let res := Header.UnmarshalBinary x h0 in
  let h := snd res in
  (fst res = None <-> length x = 13%nat /\ default 0 (x !! 0%nat) <= 224) /\
  (fst res = None ->
   Props.Verify (Header.props h) = None /\
   0 <= Header.dictSize h < 2 ^ 32 /\
   0 <= Header.uncompressedSize h < 2 ^ 64 /\
   Header.AppendBinary [] h = x /\
   (Header.Verify maxInt h = None <->
    Header.minDictSize <= Header.dictSize h <= maxInt)).
Proof.
  intros Hx res h. subst h res.
  destruct (Nat.eq_dec (length x) 13%nat) as [Hlen | Hlen].
  2:{ unfold Header.UnmarshalBinary, Header.headerLen.
      destruct (Nat.eqb_spec (length x) 13%nat) as [Hc | _]; [contradiction|].
      cbn [negb fst]. split; [split; [discriminate | tauto] | discriminate]. }
  destruct x as [|b x']; [discriminate|].
  assert (Hsplit : x' = take 4 x' ++ drop 4 x') by (symmetry; apply take_drop).
  cbn [length] in Hlen.
  assert (Hd : length (take 4 x') = 4%nat) by (rewrite length_take; lia).
  assert (Hu : length (drop 4 x') = 8%nat) by (rewrite length_drop; lia).
  apply Forall_cons in Hx. destruct Hx as [Hb Hx'].
  assert (Hdb : Forall is_byte (take 4 x')) by (now apply Forall_take).
  assert (Hub : Forall is_byte (drop 4 x')) by (now apply Forall_drop).
  pose proof (unmarshal_header_bytes b _ _ h0 Hd Hu) as Hun.
  rewrite <- Hsplit in Hun. rewrite !Hun. clear Hun.
  change (default 0 ((b :: x') !! 0%nat)) with b.
  pose proof (fromByte_error_iff b Hb) as Herr.
  pose proof (fromByte_fields b Hb) as Hfields.
  destruct (Props.fromByte b) as [pr [e|]] eqn:Efrom; cbn [fst snd] in *.
  - split.
    + split; [discriminate|]. intros [_ Hle].
      assert (Hgt : 224 < b) by (apply Herr; discriminate). lia.
    + discriminate.
  - assert (Hle : b <= 224).
    { destruct (Z.le_gt_cases b 224) as [H | H]; [exact H|].
      exfalso. apply Herr in H. now apply H. }
    split; [split; [intros _; split; [cbn; lia | exact Hle] | reflexivity]|].
    intros _. cbn [Header.props Header.dictSize Header.uncompressedSize].
    destruct Hfields as (Hbyte & Hlc & Hlp & Hpb).
    assert (Hpb4 : Props.PB pr <= 4) by lia.
    assert (Hv : Props.Verify pr = None) by (apply Props_Verify_ok; lia).
    pose proof (getLE_bound 4 _ Hdb) as Hdict.
    pose proof (getLE_bound 8 _ Hub) as Hsize.
    change (256 ^ Z.of_nat 4) with (2 ^ 32) in Hdict.
    change (256 ^ Z.of_nat 8) with (2 ^ 64) in Hsize.
    split; [exact Hv|]. split; [exact Hdict|]. split; [exact Hsize|]. split.
    + unfold Header.AppendBinary.
      cbn [Header.props Header.dictSize Header.uncompressedSize app].
      rewrite (putLE_getLE 4 _ Hd Hdb), (putLE_getLE 8 _ Hu Hub), <- Hsplit.
      f_equal. unfold Props.byte. rewrite <- Hbyte. apply Z.mod_small.
      unfold is_byte in Hb. lia.
    + unfold Header.Verify. cbn [Header.props Header.dictSize]. rewrite Hv.
      destruct (Z.ltb_spec maxInt (Header.getLE 4 (take 4 x'))).
      { split; [discriminate | lia]. }
      destruct (Z.ltb_spec (Header.getLE 4 (take 4 x')) Header.minDictSize).
      { split; [discriminate | lia]. }
      split; [lia | reflexivity].
Qed.

(** The header of a stream with the properties byte 0x5D, a dictionary of
    8 MiB and an unknown size. *)
Lemma header_unmarshal_then_Verify_witness :
  let x := [93; 0; 0; 128; 0; 255; 255; 255; 255; 255; 255; 255; 255] in
  let h := snd (Header.UnmarshalBinary x (Header.mkParams (Props.mkProperties 0 0 0) 0 0)) in
  Header.AppendBinary [] h = x /\ Header.Verify (2 ^ 63 - 1) h = None.
Proof.
  intros x h.
  destruct (header_unmarshal_then_Verify x
              (Header.mkParams (Props.mkProperties 0 0 0) 0 0) (2 ^ 63 - 1))
    as (_ & Hok).
  - repeat constructor; unfold is_byte; lia.
  - destruct Hok as (_ & _ & _ & Happ & Hv); [reflexivity|].
    split; [exact Happ|]. apply Hv. vm_compute. split; discriminate.
Defined.

(** ** Further properties: [Write] of the encoder *)

Lemma writeLoop_nil {eops : Writer.EncoderOps} {dops : Writer.DictOps} (fuel : nat) :
  forall (p : list Z) (n : Z) (rerr : option error) (w : Writer.Writer)
         (n' : Z) (w' : Writer.Writer),
    Writer.writeLoop fuel p n rerr w = Done (n', None, w') ->
    rerr = None /\ Z.of_nat (length p) <= n' /\
    (n < Z.of_nat (length p) \/
     Writer.Readable (Writer.Dict w) <= Writer.MaxLength - 1 ->
     Writer.Readable (Writer.Dict w') <= Writer.MaxLength - 1).
Proof.
  induction fuel as [|f IH]; intros p n rerr w n' w' H; [discriminate|].
  cbn [Writer.writeLoop] in H.
  destruct (Z.ltb_spec n (Z.of_nat (length p))) as [Hlt | Hge]; cbn [negb] in H.
  2:{ inversion H; subst. split; [reflexivity|]. split; [lia|].
      intros [Hc | Hr]; [lia | exact Hr]. }
  destruct (Writer.dictWrite _ (Writer.Dict w)) as [[k e] d].
  assert (Hstep : forall w2,
            Writer.process f 0 (Writer.set_Dict d w) = Done (None, w2) ->
            Writer.writeLoop f p (n + k) rerr w2 = Done (n', None, w') ->
            rerr = None /\ Z.of_nat (length p) <= n' /\
            (n < Z.of_nat (length p) \/
             Writer.Readable (Writer.Dict w) <= Writer.MaxLength - 1 ->
             Writer.Readable (Writer.Dict w') <= Writer.MaxLength - 1)).
  { intros w2 Hp Hrec.
    pose proof (process_lowMark f 0 _ _ Hp) as Hlow.
    change (Z.land 0 Writer.allData =? 0) with true in Hlow. cbv iota in Hlow.
    destruct (IH _ _ _ _ _ _ Hrec) as (Hr & Hn & Hread).
    split; [exact Hr|]. split; [exact Hn|]. intros _. apply Hread. now right. }
  destruct e as [e|].
  - destruct (negb (error_eqb e errAgain)); [discriminate|].
    destruct (Writer.process f 0 (Writer.set_Dict d w)) as [[[e2|] w2] | |] eqn:Ep;
      try discriminate.
    exact (Hstep w2 eq_refl H).
  - destruct (Writer.process f 0 (Writer.set_Dict d w)) as [[[e2|] w2] | |] eqn:Ep;
      try discriminate.
    exact (Hstep w2 eq_refl H).
Qed.

(** X23: a nil error of [Write] means that all of [p] was taken.  When
    [Write] returns no error, the count is at least [len(p)], the write
    did not go beyond a size declared in the header, and, for a [p] that
    is not empty, at most [MaxLength - 1] bytes are left in the dictionary
    for the next call to encode. *)
Theorem Write_nil_takes_all
  {eops : Writer.EncoderOps} {dops : Writer.DictOps}
  (fuel : nat) (p : list Z) (w w' : Writer.Writer) (n : Z) :
  Writer.Write fuel p w = Done (n, None, w') ->
  Z.of_nat (length p) <= n /\
  (Writer.SizeInHeader (Writer.params w) = true ->
   wrap64 (Writer.d_end (Writer.Dict w) + Z.of_nat (length p))
   <= Writer.Size (Writer.params w)) /\
  (p <> [] -> Writer.Readable (Writer.Dict w') <= Writer.MaxLength - 1).
Proof.
  unfold Writer.Write. intros H.
  destruct (_ <? 0); [discriminate|].
  destruct (Writer.SizeInHeader (Writer.params w)) eqn:Esh; cbn [andb] in H.
  - destruct (Z.ltb_spec (Writer.Size (Writer.params w))
                (wrap64 (Writer.d_end (Writer.Dict w) + Z.of_nat (length p))))
      as [Hover | Hin].
    + destruct (Writer.sliceTo _ _) as [p'|]; [|discriminate].
      destruct (writeLoop_nil _ _ _ _ _ _ _ H) as (Hc & _). discriminate.
    + destruct (writeLoop_nil _ _ _ _ _ _ _ H) as (_ & Hn & Hread).
      split; [exact Hn|]. split; [intros _; exact Hin|].
      intros Hne. apply Hread. left. destruct p; [contradiction | cbn; lia].
  - destruct (writeLoop_nil _ _ _ _ _ _ _ H) as (_ & Hn & Hread).
    split; [exact Hn|]. split; [discriminate|].
    intros Hne. apply Hread. left. destruct p; [contradiction | cbn; lia].
Qed.

(** Three bytes into an empty dictionary: all are taken, and they wait
    there, fewer than a longest match, for more data or for [Close]. *)
Lemma Write_nil_takes_all_witness :
  let w := @Writer.mkWriter Script.encoder Script.dict [0; 0; 0; 0] 0
             (Props.mkProperties 3 0 2) (Script.mkSdict 0 0 0 [] []) []
             (Writer.mkParameters 0 false true) in
  let w' := @Writer.mkWriter Script.encoder Script.dict [0; 0; 0; 0] 0
              (Props.mkProperties 3 0 2) (Script.mkSdict 0 0 3 [] [65; 66; 65]) []
              (Writer.mkParameters 0 false true) in
  Writer.Write 20 [65; 66; 65] w = Done (3, None, w') /\
  @Writer.Readable Script.dict (Writer.Dict w') <= @Writer.MaxLength Script.encoder - 1.
Proof.
  intros w w'.
  assert (H : Writer.Write 20 [65; 66; 65] w = Done (3, None, w'))
    by (vm_compute; reflexivity).
  split; [exact H|].
  destruct (@Write_nil_takes_all Script.encoder Script.dict _ _ _ _ _ H)
    as (_ & _ & Hread).
  apply Hread. discriminate.
Defined.
